(** * SKOS/TTL cleaner: a shallow embedding of [ttl_cleaner.py]

    The Python class [TTLCleaner] is modelled function by function.  A Python
    [str] is a list of Unicode code points; the mutable cleaner object
    ([self]) is a record threaded through a small state monad; a concept
    dictionary is a record with the keys the parser creates. *)

From Stdlib Require Import String Ascii Numbers.DecimalString.
From Stdlib Require Import NArith ZArith Arith Bool Lia List.
Import ListNotations.

Set Implicit Arguments.

(* ================================================================== *)
(** ** Python strings *)
(* ================================================================== *)

Module PyStr.

(** A character is a Unicode code point, a string a list of them. *)
Definition char := N.
Definition str := list char.

(** ASCII literal of the source, as code points. *)
Definition L (s : string) : str := map N_of_ascii (list_ascii_of_string s).

Definition str_eq_dec : forall a b : str, {a = b} + {a <> b} := list_eq_dec N.eq_dec.

Fixpoint str_eqb (a b : str) : bool :=
  match a, b with
  | [], [] => true
  | x :: a', y :: b' => N.eqb x y && str_eqb a' b'
  | _, _ => false
  end.

Definition nonempty (s : str) : bool := match s with [] => false | _ => true end.

(** Truthiness of an [Optional[str]]: [None] and [''] are false. *)
Definition truthy (o : option str) : bool :=
  match o with Some s => nonempty s | None => false end.

Definition c_nl : char := 10%N.
Definition c_sp : char := 32%N.
Definition c_dq : char := 34%N.   (* the double quote *)
Definition c_sq : char := 39%N.   (* the apostrophe *)
Definition c_lt : char := 60%N.
Definition c_gt : char := 62%N.

(** [str.isspace] / regex [\s] on a [str] pattern: the Unicode white space
    of CPython. *)
Definition is_space (c : char) : bool :=
  ((9 <=? c) && (c <=? 13) || (28 <=? c) && (c <=? 32) || (c =? 133) || (c =? 160)
   || (c =? 5760) || (8192 <=? c) && (c <=? 8202) || (c =? 8232) || (c =? 8233)
   || (c =? 8239) || (c =? 8287) || (c =? 12288))%N.

(** Membership in a table of code point ranges, both ends included *)
Definition in_ranges (rs : list (N * N)) (c : char) : bool :=
  existsb (fun r => ((fst r <=? c) && (c <=? snd r))%N) rs.

(** The digits of the explicit classes [[0-9]] *)
Definition is_ascii_digit (c : char) : bool := ((48 <=? c) && (c <=? 57))%N.

(** [\d] of a [str] pattern: the decimal digits of every script (the
    general category Nd), here as Unicode 14.0 lists them, the version of
    the character database of CPython 3.11. *)
Definition decimal_digit_ranges : list (N * N) :=
  [ (48, 57); (1632, 1641); (1776, 1785); (1984, 1993); (2406, 2415);
    (2534, 2543); (2662, 2671); (2790, 2799); (2918, 2927); (3046, 3055);
    (3174, 3183); (3302, 3311); (3430, 3439); (3558, 3567); (3664, 3673);
    (3792, 3801); (3872, 3881); (4160, 4169); (4240, 4249); (6112, 6121);
    (6160, 6169); (6470, 6479); (6608, 6617); (6784, 6793); (6800, 6809);
    (6992, 7001); (7088, 7097); (7232, 7241); (7248, 7257); (42528, 42537);
    (43216, 43225); (43264, 43273); (43472, 43481); (43504, 43513);
    (43600, 43609); (44016, 44025); (65296, 65305); (66720, 66729);
    (68912, 68921); (69734, 69743); (69872, 69881); (69942, 69951);
    (70096, 70105); (70384, 70393); (70736, 70745); (70864, 70873);
    (71248, 71257); (71360, 71369); (71472, 71481); (71904, 71913);
    (72016, 72025); (72784, 72793); (73040, 73049); (73120, 73129);
    (92768, 92777); (92864, 92873); (93008, 93017); (120782, 120831);
    (123200, 123209); (123632, 123641); (125264, 125273); (130032, 130041) ]%N.
Definition is_digit (c : char) : bool := in_ranges decimal_digit_ranges c.

(** [str.isdigit] on one character: the characters whose numeric type is
    Decimal or Digit; besides the decimal digits these are the superscript,
    subscript, circled and similar digits (same version). *)
Definition isdigit_ranges : list (N * N) :=
  [ (48, 57); (178, 179); (185, 185); (1632, 1641); (1776, 1785);
    (1984, 1993); (2406, 2415); (2534, 2543); (2662, 2671); (2790, 2799);
    (2918, 2927); (3046, 3055); (3174, 3183); (3302, 3311); (3430, 3439);
    (3558, 3567); (3664, 3673); (3792, 3801); (3872, 3881); (4160, 4169);
    (4240, 4249); (4969, 4977); (6112, 6121); (6160, 6169); (6470, 6479);
    (6608, 6618); (6784, 6793); (6800, 6809); (6992, 7001); (7088, 7097);
    (7232, 7241); (7248, 7257); (8304, 8304); (8308, 8313); (8320, 8329);
    (9312, 9320); (9332, 9340); (9352, 9360); (9450, 9450); (9461, 9469);
    (9471, 9471); (10102, 10110); (10112, 10120); (10122, 10130);
    (42528, 42537); (43216, 43225); (43264, 43273); (43472, 43481);
    (43504, 43513); (43600, 43609); (44016, 44025); (65296, 65305);
    (66720, 66729); (68160, 68163); (68912, 68921); (69216, 69224);
    (69714, 69722); (69734, 69743); (69872, 69881); (69942, 69951);
    (70096, 70105); (70384, 70393); (70736, 70745); (70864, 70873);
    (71248, 71257); (71360, 71369); (71472, 71481); (71904, 71913);
    (72016, 72025); (72784, 72793); (73040, 73049); (73120, 73129);
    (92768, 92777); (92864, 92873); (93008, 93017); (120782, 120831);
    (123200, 123209); (123632, 123641); (125264, 125273); (127232, 127242);
    (130032, 130041) ]%N.
Definition is_isdigit_char (c : char) : bool := in_ranges isdigit_ranges c.

Definition is_lower (c : char) : bool := ((97 <=? c) && (c <=? 122))%N.
Definition is_upper (c : char) : bool := ((65 <=? c) && (c <=? 90))%N.
Definition is_alnum (c : char) : bool := is_lower c || is_upper c || is_ascii_digit c.

Definition mem_char (cs : str) (c : char) : bool := existsb (N.eqb c) cs.

Fixpoint startswith (p s : str) : bool :=
  match p, s with
  | [], _ => true
  | a :: p', b :: s' => N.eqb a b && startswith p' s'
  | _ :: _, [] => false
  end.

Definition endswith (p s : str) : bool := startswith (rev p) (rev s).

(** [sub in s] *)
Fixpoint contains (sub s : str) : bool :=
  startswith sub s || match s with [] => false | _ :: t => contains sub t end.

(** [x in l] for a list of strings *)
Definition mem_str (x : str) (l : list str) : bool := existsb (str_eqb x) l.

Fixpoint lstrip_by (p : char -> bool) (s : str) : str :=
  match s with
  | c :: t => if p c then lstrip_by p t else s
  | [] => []
  end.
Definition rstrip_by (p : char -> bool) (s : str) : str := rev (lstrip_by p (rev s)).
Definition strip_by (p : char -> bool) (s : str) : str := rstrip_by p (lstrip_by p s).

(** [s.strip()], [s.strip(chars)], [s.rstrip(chars)] *)
Definition strip (s : str) : str := strip_by is_space s.
Definition strip_chars (cs s : str) : str := strip_by (mem_char cs) s.
Definition rstrip_chars (cs s : str) : str := rstrip_by (mem_char cs) s.

(** [s[1:-1]] *)
Definition slice_1_m1 (s : str) : str := removelast (tl s).

(** [s[:n]] *)
Definition take (n : nat) (s : str) : str := firstn n s.

(** [s.split(sep)] for a one-character separator *)
Fixpoint split_on (sep : char) (s : str) : list str :=
  match s with
  | [] => [[]]
  | c :: t =>
      if N.eqb c sep then [] :: split_on sep t
      else match split_on sep t with
           | h :: r => (c :: h) :: r
           | [] => [[c]]
           end
  end.

(** [s.split(sep, 1)] when [sep in s]: the parts before and after the
    first separator. *)
Fixpoint split_first (sep : char) (s : str) : str * str :=
  match s with
  | [] => ([], [])
  | c :: t => if N.eqb c sep then ([], t)
              else let '(a, b) := split_first sep t in (c :: a, b)
  end.

(** [sep.join(l)] *)
Fixpoint join (sep : str) (l : list str) : str :=
  match l with
  | [] => []
  | [x] => x
  | x :: r => x ++ sep ++ join sep r
  end.

(** [s.split()]: the maximal runs of non-space characters. *)
Fixpoint split_ws_aux (cur : str) (s : str) : list str :=
  match s with
  | [] => match cur with [] => [] | _ => [rev cur] end
  | c :: t =>
      if is_space c
      then match cur with [] => split_ws_aux [] t | _ => rev cur :: split_ws_aux [] t end
      else split_ws_aux (c :: cur) t
  end.
Definition split_ws (s : str) : list str := split_ws_aux [] s.

(** [s.replace(old, new)] for a non-empty [old]: occurrences are replaced
    left to right and do not overlap; [skip] counts the characters of a
    replaced occurrence that are still to be dropped. *)
Fixpoint replace_aux (old new : str) (skip : nat) (s : str) : str :=
  match s with
  | [] => []
  | c :: t =>
      match skip with
      | S k => replace_aux old new k t
      | O => if startswith old s
             then new ++ replace_aux old new (length old - 1) t
             else c :: replace_aux old new 0 t
      end
  end.
Definition replace (old new s : str) : str := replace_aux old new 0 s.

(** The longest prefix of [s] whose characters satisfy [p], and the rest. *)
Fixpoint span (p : char -> bool) (s : str) : str * str :=
  match s with
  | c :: t => if p c then let '(a, b) := span p t in (c :: a, b) else ([], s)
  | [] => ([], [])
  end.

(** [str(n)] for a natural number *)
Definition str_of_nat (n : nat) : str := L (NilEmpty.string_of_uint (Nat.to_uint n)).

(** ASCII lower-casing, enough for the prefix test it is used in. *)
Definition lower_ascii (c : char) : char := if is_upper c then (c + 32)%N else c.

End PyStr.
Import PyStr.

(* ================================================================== *)
(** ** Regular expressions of the source

    Every pattern of the source is deterministic in the sense that a greedy
    repetition is always followed by a character outside its class, so that
    backtracking into it cannot succeed.  Each pattern is written as a
    function that matches at the start of its argument. *)
(* ================================================================== *)

Module Re.

(** [re.findall] / [re.finditer]: try the matcher at every position from
    left to right; after a match at a position the scan resumes where the
    match ended.  No pattern of the source matches the empty string. *)
Fixpoint scan (A : Type) (m : str -> option (A * str)) (skip : nat) (s : str) : list A :=
  match s with
  | [] => []
  | _ :: t =>
      match skip with
      | S k => scan m k t
      | O => match m s with
             | Some (a, rest) => a :: scan m (length s - length rest - 1) t
             | None => scan m 0 t
             end
      end
  end.
Definition findall (A : Type) (m : str -> option (A * str)) (s : str) : list A := scan m 0 s.

(** [re.search]: the leftmost match. *)
Definition search (A : Type) (m : str -> option (A * str)) (s : str) : option A :=
  hd_error (findall m s).

(** A literal *)
Definition lit (p : str) (s : str) : option str :=
  if startswith p s then Some (skipn (length p) s) else None.

(** [c+] for a class [c] *)
Definition many1 (p : char -> bool) (s : str) : option (str * str) :=
  match span p s with
  | ([], _) => None
  | r => Some r
  end.

(** [<([^>]+)>]: group 1 and the rest *)
Definition angle (s : str) : option (str * str) :=
  match s with
  | c :: s1 =>
      if N.eqb c c_lt then
        match span (fun x => negb (N.eqb x c_gt)) s1 with
        | ((_ :: _) as inner, _ :: s3) => Some (inner, s3)
        | _ => None
        end
      else None
  | [] => None
  end.

(** The class [[a-zA-Z0-9_:/-]] *)
Definition is_tokchar (c : char) : bool :=
  is_alnum c || mem_char (L "_:/-") c.

(** [(<[^>]+>|[a-zA-Z0-9_:/-]+)\s+a\s+KW] at the start of [s]: group 1.
    The two alternatives exclude each other on the first character. *)
Definition subject (kw : str) (s : str) : option str :=
  let tok :=
    match angle s with
    | Some (inner, r) => Some (c_lt :: inner ++ [c_gt], r)
    | None => match s with
              | c :: _ => if N.eqb c c_lt then None else many1 is_tokchar s
              | [] => None
              end
    end in
  match tok with
  | Some (g1, r) =>
      match many1 is_space r with
      | Some (_, r1) =>
          match lit (L "a") r1 with
          | Some r2 =>
              match many1 is_space r2 with
              | Some (_, r3) => if startswith kw r3 then Some g1 else None
              | None => None
              end
          | None => None
          end
      | None => None
      end
  | None => None
  end.

(** [re.search('^' + p, s, re.MULTILINE)]: [^] holds at the start and
    after every newline. *)
Fixpoint search_after_nl (A : Type) (m : str -> option A) (s : str) : option A :=
  match s with
  | [] => None
  | c :: t =>
      if N.eqb c c_nl
      then match m t with Some r => Some r | None => search_after_nl m t end
      else search_after_nl m t
  end.
Definition search_multiline (A : Type) (m : str -> option A) (s : str) : option A :=
  match m s with Some r => Some r | None => search_after_nl m s end.

End Re.

(* ================================================================== *)
(** ** The cleaner object and the concept records *)
(* ================================================================== *)

(** [self.stats] *)
Record Stats := mkStats {
  total_concepts : nat;
  duplicates_removed : nat;
  malformed_uris_fixed : nat;
  uri_normalizations : nat;
  encoding_issues_fixed : nat;
  text_fields_cleaned : nat;
  labels_processed : nat;
  final_concepts : nat;
  definitions_processed : nat;
  notes_processed : nat;
  empty_labels_removed : nat;
  invalid_concepts_removed : nat;
  comma_fixes : nat;
  concepts_without_preflabel : nat
}.

Definition stats0 : Stats := mkStats 0 0 0 0 0 0 0 0 0 0 0 0 0 0.

(** The fields of [self] that the modelled methods read or write. *)
Record Cleaner := mkCleaner {
  stats : Stats;
  change_log : list str;
  validation_violations : list str;
  validation_warnings : list str;
  validation_infos : list str;
  base_declaration : option str;
  concept_scheme : option str;
  base_uri : option str;
  chunk_size : Z;
  enable_validation : bool;
  memory_efficient : bool;
  processed_chunks : nat;
  enable_skos_xl : bool;
  autofix_broader : bool;
  warn_missing_narrower : bool
}.

(** [TTLCleaner(chunk_size, enable_validation, memory_efficient,
    enable_skos_xl, autofix_broader, warn_missing_narrower)]; the chunk size
    is any integer, the command line does not restrict it. *)
Definition new_cleaner (cs : Z) (ev me xl af wn : bool) : Cleaner :=
  mkCleaner stats0 [] [] [] [] None None None cs ev me 0 xl af wn.

(** [TTLCleaner()] *)
Definition default_cleaner : Cleaner := new_cleaner 1000 true false false false false.

Definition set_stats (f : Stats -> Stats) (c : Cleaner) : Cleaner :=
  mkCleaner (f (stats c)) (change_log c) (validation_violations c) (validation_warnings c)
    (validation_infos c) (base_declaration c) (concept_scheme c) (base_uri c) (chunk_size c)
    (enable_validation c) (memory_efficient c) (processed_chunks c) (enable_skos_xl c)
    (autofix_broader c) (warn_missing_narrower c).

Definition set_change_log (l : list str) (c : Cleaner) : Cleaner :=
  mkCleaner (stats c) l (validation_violations c) (validation_warnings c)
    (validation_infos c) (base_declaration c) (concept_scheme c) (base_uri c) (chunk_size c)
    (enable_validation c) (memory_efficient c) (processed_chunks c) (enable_skos_xl c)
    (autofix_broader c) (warn_missing_narrower c).

Definition set_findings (v w : list str) (c : Cleaner) : Cleaner :=
  mkCleaner (stats c) (change_log c) v w
    (validation_infos c) (base_declaration c) (concept_scheme c) (base_uri c) (chunk_size c)
    (enable_validation c) (memory_efficient c) (processed_chunks c) (enable_skos_xl c)
    (autofix_broader c) (warn_missing_narrower c).

Definition set_infos (l : list str) (c : Cleaner) : Cleaner :=
  mkCleaner (stats c) (change_log c) (validation_violations c) (validation_warnings c)
    l (base_declaration c) (concept_scheme c) (base_uri c) (chunk_size c)
    (enable_validation c) (memory_efficient c) (processed_chunks c) (enable_skos_xl c)
    (autofix_broader c) (warn_missing_narrower c).

Definition set_base (decl uri : option str) (c : Cleaner) : Cleaner :=
  mkCleaner (stats c) (change_log c) (validation_violations c) (validation_warnings c)
    (validation_infos c) decl (concept_scheme c) uri (chunk_size c)
    (enable_validation c) (memory_efficient c) (processed_chunks c) (enable_skos_xl c)
    (autofix_broader c) (warn_missing_narrower c).

Definition set_concept_scheme (s : option str) (c : Cleaner) : Cleaner :=
  mkCleaner (stats c) (change_log c) (validation_violations c) (validation_warnings c)
    (validation_infos c) (base_declaration c) s (base_uri c) (chunk_size c)
    (enable_validation c) (memory_efficient c) (processed_chunks c) (enable_skos_xl c)
    (autofix_broader c) (warn_missing_narrower c).

Definition set_processed_chunks (n : nat) (c : Cleaner) : Cleaner :=
  mkCleaner (stats c) (change_log c) (validation_violations c) (validation_warnings c)
    (validation_infos c) (base_declaration c) (concept_scheme c) (base_uri c) (chunk_size c)
    (enable_validation c) (memory_efficient c) n (enable_skos_xl c)
    (autofix_broader c) (warn_missing_narrower c).

(** [self.stats['total_concepts'] = n], and [self.stats[key] += 1] with one
    function per key that is written. *)
Definition set_total_concepts (n : nat) (s : Stats) : Stats :=
  mkStats n (duplicates_removed s) (malformed_uris_fixed s)
    (uri_normalizations s) (encoding_issues_fixed s) (text_fields_cleaned s)
    (labels_processed s) (final_concepts s) (definitions_processed s) (notes_processed s)
    (empty_labels_removed s) (invalid_concepts_removed s) (comma_fixes s)
    (concepts_without_preflabel s).
Definition inc_duplicates_removed (s : Stats) : Stats :=
  mkStats (total_concepts s) (S (duplicates_removed s)) (malformed_uris_fixed s)
    (uri_normalizations s) (encoding_issues_fixed s) (text_fields_cleaned s)
    (labels_processed s) (final_concepts s) (definitions_processed s) (notes_processed s)
    (empty_labels_removed s) (invalid_concepts_removed s) (comma_fixes s)
    (concepts_without_preflabel s).
Definition inc_malformed_uris_fixed (s : Stats) : Stats :=
  mkStats (total_concepts s) (duplicates_removed s) (S (malformed_uris_fixed s))
    (uri_normalizations s) (encoding_issues_fixed s) (text_fields_cleaned s)
    (labels_processed s) (final_concepts s) (definitions_processed s) (notes_processed s)
    (empty_labels_removed s) (invalid_concepts_removed s) (comma_fixes s)
    (concepts_without_preflabel s).
Definition inc_uri_normalizations (s : Stats) : Stats :=
  mkStats (total_concepts s) (duplicates_removed s) (malformed_uris_fixed s)
    (S (uri_normalizations s)) (encoding_issues_fixed s) (text_fields_cleaned s)
    (labels_processed s) (final_concepts s) (definitions_processed s) (notes_processed s)
    (empty_labels_removed s) (invalid_concepts_removed s) (comma_fixes s)
    (concepts_without_preflabel s).
Definition inc_encoding_issues_fixed (s : Stats) : Stats :=
  mkStats (total_concepts s) (duplicates_removed s) (malformed_uris_fixed s)
    (uri_normalizations s) (S (encoding_issues_fixed s)) (text_fields_cleaned s)
    (labels_processed s) (final_concepts s) (definitions_processed s) (notes_processed s)
    (empty_labels_removed s) (invalid_concepts_removed s) (comma_fixes s)
    (concepts_without_preflabel s).
Definition inc_text_fields_cleaned (s : Stats) : Stats :=
  mkStats (total_concepts s) (duplicates_removed s) (malformed_uris_fixed s)
    (uri_normalizations s) (encoding_issues_fixed s) (S (text_fields_cleaned s))
    (labels_processed s) (final_concepts s) (definitions_processed s) (notes_processed s)
    (empty_labels_removed s) (invalid_concepts_removed s) (comma_fixes s)
    (concepts_without_preflabel s).
Definition inc_labels_processed (s : Stats) : Stats :=
  mkStats (total_concepts s) (duplicates_removed s) (malformed_uris_fixed s)
    (uri_normalizations s) (encoding_issues_fixed s) (text_fields_cleaned s)
    (S (labels_processed s)) (final_concepts s) (definitions_processed s) (notes_processed s)
    (empty_labels_removed s) (invalid_concepts_removed s) (comma_fixes s)
    (concepts_without_preflabel s).
Definition inc_definitions_processed (s : Stats) : Stats :=
  mkStats (total_concepts s) (duplicates_removed s) (malformed_uris_fixed s)
    (uri_normalizations s) (encoding_issues_fixed s) (text_fields_cleaned s)
    (labels_processed s) (final_concepts s) (S (definitions_processed s)) (notes_processed s)
    (empty_labels_removed s) (invalid_concepts_removed s) (comma_fixes s)
    (concepts_without_preflabel s).
Definition inc_notes_processed (s : Stats) : Stats :=
  mkStats (total_concepts s) (duplicates_removed s) (malformed_uris_fixed s)
    (uri_normalizations s) (encoding_issues_fixed s) (text_fields_cleaned s)
    (labels_processed s) (final_concepts s) (definitions_processed s) (S (notes_processed s))
    (empty_labels_removed s) (invalid_concepts_removed s) (comma_fixes s)
    (concepts_without_preflabel s).
Definition inc_empty_labels_removed (s : Stats) : Stats :=
  mkStats (total_concepts s) (duplicates_removed s) (malformed_uris_fixed s)
    (uri_normalizations s) (encoding_issues_fixed s) (text_fields_cleaned s)
    (labels_processed s) (final_concepts s) (definitions_processed s) (notes_processed s)
    (S (empty_labels_removed s)) (invalid_concepts_removed s) (comma_fixes s)
    (concepts_without_preflabel s).
Definition inc_comma_fixes (s : Stats) : Stats :=
  mkStats (total_concepts s) (duplicates_removed s) (malformed_uris_fixed s)
    (uri_normalizations s) (encoding_issues_fixed s) (text_fields_cleaned s)
    (labels_processed s) (final_concepts s) (definitions_processed s) (notes_processed s)
    (empty_labels_removed s) (invalid_concepts_removed s) (S (comma_fixes s))
    (concepts_without_preflabel s).
Definition inc_concepts_without_preflabel (s : Stats) : Stats :=
  mkStats (total_concepts s) (duplicates_removed s) (malformed_uris_fixed s)
    (uri_normalizations s) (encoding_issues_fixed s) (text_fields_cleaned s)
    (labels_processed s) (final_concepts s) (definitions_processed s) (notes_processed s)
    (empty_labels_removed s) (invalid_concepts_removed s) (comma_fixes s)
    (S (concepts_without_preflabel s)).

(** *** The state monad of the methods *)

Definition M (A : Type) : Type := Cleaner -> A * Cleaner.
Definition ret (A : Type) (a : A) : M A := fun c => (a, c).
Definition bind (A B : Type) (m : M A) (k : A -> M B) : M B :=
  fun c => let '(a, c1) := m c in k a c1.

Declare Scope cleaner_scope.
Delimit Scope cleaner_scope with cleaner.
Notation "x <- m ;; k" := (bind m (fun x => k))
  (at level 61, m at next level, right associativity) : cleaner_scope.
Notation "m ;; k" := (bind m (fun _ => k))
  (at level 61, right associativity) : cleaner_scope.
Open Scope cleaner_scope.

Definition get : M Cleaner := fun c => (c, c).
Definition bump (f : Stats -> Stats) : M unit := fun c => (tt, set_stats f c).
(** [self.change_log.append(msg)] *)
Definition log (msg : str) : M unit :=
  fun c => (tt, set_change_log (change_log c ++ [msg]) c).

(** [{'text': t, 'lang': l}] *)
Record Label := mkLabel { text : str; lang : str }.

Definition label_eqb (a b : Label) : bool :=
  str_eqb (text a) (text b) && str_eqb (lang a) (lang b).

(** The dictionary built by [_parse_concept_block]. *)
Record Concept := mkConcept {
  uri : str;
  prefLabels : list Label;
  altLabels : list Label;
  definitions : list Label;
  notes : list Label;
  scopeNotes : list Label;
  editorialNotes : list Label;
  historyNotes : list Label;
  changeNotes : list Label;
  examples : list Label;
  other_properties : list str;
  raw_block : str;
  issues : list str
}.

Definition set_other_properties (p : list str) (c : Concept) : Concept :=
  mkConcept (uri c) (prefLabels c) (altLabels c) (definitions c) (notes c) (scopeNotes c)
    (editorialNotes c) (historyNotes c) (changeNotes c) (examples c) p (raw_block c) (issues c).

(* ================================================================== *)
(** ** URI canonicalizer *)
(* ================================================================== *)

(** The first two statements of [_clean_uri]: [uri.strip()], then the
    enclosing angle brackets are removed when both are present. *)
Definition strip_brackets (raw : str) : str :=
  let u := strip raw in
  if startswith (L "<") u && endswith (L ">") u then slice_1_m1 u else u.

(** [f"{self.base_uri.rstrip('/')}/{uri}"] *)
Definition resolve_base (b : option str) (u : str) : str :=
  rstrip_chars (L "/") (match b with Some x => x | None => [] end) ++ L "/" ++ u.

(** [_clean_uri] *)
Definition _clean_uri (cl : Cleaner) (raw : str) : str :=
  let u := strip_brackets raw in
  if negb (startswith (L "http") u) then
    if truthy (base_uri cl) && negb (contains (L ":") u) then
      resolve_base (base_uri cl) u
    else if contains (L ":") u then
      let '(prefix, local) := split_first 58%N u in
      if str_eqb prefix (L "esco")
      then L "http://data.europa.eu/esco/skill/" ++ local
      else L "http://example.org/" ++ prefix ++ L "/" ++ local
    else
      if truthy (base_uri cl)
      then resolve_base (base_uri cl) u
      else L "http://data.europa.eu/esco/skill/" ++ u
  else u.

(** [_classify_uri_change]: [(is_fix, message)] *)
Definition _classify_uri_change (cl : Cleaner) (raw_uri cleaned_uri : str) : bool * str :=
  let raw := strip raw_uri in
  let bracketed := startswith (L "<") raw && endswith (L ">") raw in
  let raw_inner := if bracketed then slice_1_m1 raw else raw in
  if bracketed && startswith (L "http") raw_inner then
    (false, L "URI normalized (angle brackets removed): " ++ raw)
  else if truthy (base_uri cl) && negb (startswith (L "http") raw_inner)
          && negb (contains (L ":") raw_inner) then
    let expected_abs := resolve_base (base_uri cl) (strip_chars (L "<>") raw_inner) in
    if str_eqb expected_abs cleaned_uri then (false, [])
    else (false, L "URI normalized using @base: " ++ raw ++ L " -> <" ++ cleaned_uri ++ L ">")
  else if contains (L ":") raw_inner && negb (startswith (L "http") raw_inner) then
    (true, L "URI fixed: expanded prefix '" ++ raw_inner ++ L "' -> <" ++ cleaned_uri ++ L ">")
  else if negb (startswith (L "http") raw_inner) && negb (truthy (base_uri cl)) then
    (true, L "URI fixed: added default namespace -> <" ++ cleaned_uri ++ L "> from '"
             ++ raw ++ L "'")
  else if negb (str_eqb raw raw_uri) then
    (false, L "URI normalized (whitespace trimmed): '" ++ raw_uri ++ L "' -> '" ++ raw ++ L "'")
  else if negb (str_eqb raw cleaned_uri) then
    (false, L "URI normalized: " ++ raw ++ L " -> <" ++ cleaned_uri ++ L ">")
  else (false, []).

(* ================================================================== *)
(** ** Deduplicator *)
(* ================================================================== *)

(** The loop of [_clean_concepts]: [seen] is [seen_uris]; the result is
    [unique_concepts] in the order of the appends.  (The [Counter] and the
    [uri_groups] built before the loop are never read.) *)
Fixpoint dedup_loop (seen : list str) (concepts : list Concept) : M (list Concept) :=
  match concepts with
  | [] => ret []
  | c :: rest =>
      if mem_str (uri c) seen then
        bump inc_duplicates_removed ;;
        log (L "Duplicate removed: " ++ uri c) ;;
        dedup_loop seen rest
      else
        r <- dedup_loop (uri c :: seen) rest ;;
        ret (c :: r)
  end.

Definition _clean_concepts (concepts : list Concept) : M (list Concept) :=
  dedup_loop [] concepts.

(* ================================================================== *)
(** ** Text normalizer *)
(* ================================================================== *)

(** The [replacements] dictionary of [_clean_label], in insertion order:
    a mis-decoded two-character sequence and the character it stands for. *)
Definition label_replacements : list (str * str) :=
  [ ([195; 164], [228]); ([195; 182], [246]); ([195; 188], [252]);
    ([195; 8222], [196]); ([195; 8211], [214]); ([195; 339], [220]);
    ([195; 376], [223]); ([195; 169], [233]); ([195; 168], [232]);
    ([195; 161], [225]); ([195; 32], [224]); ([195; 179], [243]);
    ([195; 178], [242]); ([195; 186], [250]); ([195; 185], [249]) ]%N.

(** The dictionary of [_clean_text_field]: the same, then HTML entities. *)
Definition text_replacements : list (str * str) :=
  label_replacements ++
  [ (L "&nbsp;", L " "); (L "&amp;", L "&"); (L "&lt;", L "<"); (L "&gt;", L ">");
    (L "&quot;", [c_dq]); (L "&#39;", [c_sq]); (L "&apos;", [c_sq]) ].

(** [for wrong, correct in replacements.items(): s = s.replace(wrong, correct)] *)
Definition apply_replacements (tbl : list (str * str)) (s : str) : str :=
  fold_left (fun acc wc => replace (fst wc) (snd wc) acc) tbl s.

(** The truncation of a logged value: [x[:117] + '...'] when [len(x) > 120]. *)
Definition trunc120 (s : str) : str :=
  if 120 <? length s then take 117 s ++ L "..." else s.

(** [f"{kind}: '{old}' -> '{new}'"] with both values stripped and truncated *)
Definition change_msg (kind old new : str) : str :=
  kind ++ L ": '" ++ trunc120 (strip old) ++ L "' -> '" ++ trunc120 (strip new) ++ L "'".

(** [_clean_label] *)
Definition _clean_label (label : str) : M (option str) :=
  if negb (nonempty label) then ret None
  else
    let original_label := label in
    let label1 := apply_replacements label_replacements label in
    (if negb (str_eqb label1 original_label)
     then bump inc_encoding_issues_fixed ;;
          log (change_msg (L "Label cleaned") original_label label1)
     else ret tt) ;;
    let before_ws := label1 in
    let label2 := join (L " ") (split_ws label1) in
    (if negb (str_eqb label2 before_ws) && str_eqb before_ws original_label
     then log (change_msg (L "Label normalized (whitespace)") before_ws label2)
     else ret tt) ;;
    if negb (nonempty (strip label2))
    then bump inc_empty_labels_removed ;; ret None
    else ret (Some label2).

(** What follows a punctuation mark, for the negative look-aheads:
    [(?!\s)], [(?!\s|$)] and [(?!\s|$|\d)]. *)
Definition la_space (o : option char) : bool :=
  match o with Some d => is_space d | None => false end.
Definition la_space_end (o : option char) : bool :=
  match o with Some d => is_space d | None => true end.
Definition la_space_end_digit (o : option char) : bool :=
  match o with Some d => is_space d || is_digit d | None => true end.

(** [re.sub(p + '(?!...)', p + ' ', s)] for a punctuation mark [p] *)
Fixpoint sub_space_after (p : char) (la : option char -> bool) (s : str) : str :=
  match s with
  | [] => []
  | c :: t =>
      if N.eqb c p && negb (la (hd_error t))
      then c :: c_sp :: sub_space_after p la t
      else c :: sub_space_after p la t
  end.

(** The six punctuation substitutions, in the order of the source:
    comma, period, semicolon, colon, exclamation mark, question mark. *)
Definition fix_punctuation (s : str) : str :=
  let s := sub_space_after 44%N la_space s in
  let s := sub_space_after 46%N la_space_end_digit s in
  let s := sub_space_after 59%N la_space s in
  let s := sub_space_after 58%N la_space_end s in
  let s := sub_space_after 33%N la_space_end s in
  sub_space_after 63%N la_space_end s.

(** [re.sub(r'\s+', ' ', s)] *)
Fixpoint sub_ws (in_run : bool) (s : str) : str :=
  match s with
  | [] => []
  | c :: t =>
      if is_space c
      then if in_run then sub_ws true t else c_sp :: sub_ws true t
      else c :: sub_ws false t
  end.

(** [re.sub(r'\s{2,}', ' ', s)]; [run] is the white-space run being read. *)
Definition flush_run (run : str) : str :=
  match run with
  | [] => []
  | [x] => [x]
  | _ => [c_sp]
  end.
Fixpoint sub_ws2 (run : str) (s : str) : str :=
  match s with
  | [] => flush_run run
  | c :: t =>
      if is_space c then sub_ws2 (c :: run) t
      else flush_run run ++ c :: sub_ws2 [] t
  end.

(** [_clean_text_field] *)
Definition _clean_text_field (txt : str) : M (option str) :=
  if negb (nonempty txt) then ret None
  else
    let original_text := txt in
    let t1 := apply_replacements text_replacements txt in
    let t2 := fix_punctuation t1 in
    let t3 := strip (sub_ws false t2) in
    (if negb (str_eqb t3 original_text)
     then bump inc_text_fields_cleaned ;;
          log (change_msg (L "Text field cleaned") original_text t3)
     else ret tt) ;;
    if negb (nonempty (strip t3))
    then bump inc_empty_labels_removed ;; ret None
    else ret (Some t3).

(** [_fix_comma_spacing]: the class body defines this method twice; the
    second definition replaces the first and is the one every call reaches. *)
Definition _fix_comma_spacing (txt : str) : M str :=
  if negb (nonempty txt) then ret txt
  else
    let original_text := txt in
    let t := strip (sub_ws2 [] (fix_punctuation txt)) in
    (if negb (str_eqb t original_text)
     then bump inc_comma_fixes ;;
          bump inc_text_fields_cleaned ;;
          log (change_msg (L "Comma spacing fixed") original_text t)
     else ret tt) ;;
    ret t.

(* ================================================================== *)
(** ** Concept parser *)
(* ================================================================== *)

(** The quoted literal with its optional language tag, written here with
    [Q] for the double quote: [Q([^Q]+)Q(?:@([a-z]{2}))?].  Groups 1 and 2
    (group 2 is empty when the optional part does not take part in the
    match) and the rest. *)
Definition quoted_lang (s : str) : option ((str * str) * str) :=
  match s with
  | q :: s1 =>
      if N.eqb q c_dq then
        match span (fun x => negb (N.eqb x c_dq)) s1 with
        | ((_ :: _) as g1, _ :: s3) =>
            match s3 with
            | a :: x :: y :: s4 =>
                if N.eqb a 64%N && is_lower x && is_lower y
                then Some ((g1, [x; y]), s4)
                else Some ((g1, []), s3)
            | _ => Some ((g1, []), s3)
            end
        | _ => None
        end
      else None
  | [] => None
  end.

(** [KW\s+], giving the text after the match *)
Definition kw_space (kw : str) (s : str) : option (str * str) :=
  match Re.lit kw s with
  | Some r => match Re.many1 is_space r with
              | Some (_, r1) => Some (r1, r1)
              | None => None
              end
  | None => None
  end.

(** [KW\s+Q([^Q]+)Q(?:@([a-z]{2}))?] *)
Definition kw_quoted_lang (kw : str) (s : str) : option ((str * str) * str) :=
  match kw_space kw s with
  | Some (r, _) => quoted_lang r
  | None => None
  end.

(** [lang or 'en'] *)
Definition lang_or_en (lng : str) : str := if nonempty lng then lng else L "en".

(** The loop over the matches of a text predicate: every cleaned,
    non-empty value is appended; with [dedupe] an entry already in the list
    is not appended again. *)
Fixpoint add_values (clean : str -> M (option str)) (dedupe : bool)
    (found : list (str * str)) (acc : list Label) : M (list Label) :=
  match found with
  | [] => ret acc
  | (lbl, lng) :: rest =>
      cleaned <- clean lbl ;;
      match cleaned with
      | Some t =>
          let entry := mkLabel t (lang_or_en lng) in
          if dedupe && existsb (label_eqb entry) acc
          then add_values clean dedupe rest acc
          else add_values clean dedupe rest (acc ++ [entry])
      | None => add_values clean dedupe rest acc
      end
  end.

(** [tail[:end_match.start()] if end_match else tail] for [re.search(r'[;\.]', tail)] *)
Definition segment_of (tail : str) : str :=
  fst (span (fun x => negb (N.eqb x 59%N || N.eqb x 46%N)) tail).

(** The second pass over a label predicate: for every [KW\s+] match, the
    quoted values up to the next [;] or [.]. *)
Fixpoint add_multi (tails : list str) (acc : list Label) : M (list Label) :=
  match tails with
  | [] => ret acc
  | tail :: rest =>
      acc1 <- add_values _clean_label true (Re.findall quoted_lang (segment_of tail)) acc ;;
      add_multi rest acc1
  end.

(** Both passes for [skos:prefLabel] and [skos:altLabel] *)
Definition parse_labels (kw : str) (block : str) : M (list Label) :=
  l1 <- add_values _clean_label false (Re.findall (kw_quoted_lang kw) block) [] ;;
  add_multi (Re.findall (kw_space kw) block) l1.

(** The single pass of the seven note-like predicates *)
Definition parse_texts (kw : str) (block : str) : M (list Label) :=
  add_values _clean_text_field false (Re.findall (kw_quoted_lang kw) block) [].

(** [skip_patterns] of [_parse_multiline_properties] *)
Definition skip_patterns : list str :=
  [ L "skos:prefLabel"; L "skos:altLabel"; L "skos:definition"; L "skos:note";
    L "skos:scopeNote"; L "skos:editorialNote"; L "skos:historyNote";
    L "skos:changeNote"; L "skos:example" ].

(** The end of a collected property: joined, trailing punctuation removed,
    kept when it is non-empty and still has a colon. *)
Definition finish_property (property_lines : list str) : list str :=
  match property_lines with
  | [] => []
  | _ =>
      let complete := strip (rstrip_chars (L " ;.,") (join (L " ") property_lines)) in
      if nonempty complete && contains (L ":") complete then [complete] else []
  end.

(** The two nested [while] loops of [_parse_multiline_properties] share the
    index [i]; they are one pass over the lines with the lines collected so
    far for the open property ([None] outside of a property).  The line that
    opens a property is also the first line that the inner loop reads. *)
Fixpoint properties_loop (collecting : option (list str)) (lines : list str) : list str :=
  match lines with
  | [] => match collecting with Some pl => finish_property pl | None => [] end
  | raw :: rest =>
      let line := strip raw in
      match collecting with
      | Some pl =>
          if negb (nonempty line) then properties_loop (Some pl) rest
          else if endswith (L ";") line || endswith (L ".") line
               then finish_property (pl ++ [line]) ++ properties_loop None rest
               else properties_loop (Some (pl ++ [line])) rest
      | None =>
          if negb (nonempty line) || startswith (L "#") line
             || endswith (L "a skos:Concept ;") line || str_eqb line (L ".")
             || startswith (L "http://") line || startswith (L "<") line
          then properties_loop None rest
          else if existsb (fun p => contains p line) skip_patterns
          then properties_loop None rest
          else if contains (L ":") line then
            if endswith (L ";") line || endswith (L ".") line
            then finish_property [line] ++ properties_loop None rest
            else properties_loop (Some [line]) rest
          else properties_loop None rest
      end
  end.

Definition _parse_multiline_properties (block : str) : list str :=
  properties_loop None (split_on c_nl block).

(** The subject declaration searched by [_parse_concept_block]:
    [re.search(r'^(<[^>]+>|[a-zA-Z0-9_:/-]+)\s+a\s+skos:Concept', block, re.MULTILINE)] *)
Definition find_subject (block : str) : option str :=
  Re.search_multiline (Re.subject (L "skos:Concept")) block.

(** The URI part of [_parse_concept_block]: the cleaned URI and the
    [issues] entry it leaves. *)
Definition parse_uri (g1 : str) : M (str * list str) :=
  let raw_uri := strip g1 in
  cl <- get ;;
  let cleaned_uri := _clean_uri cl raw_uri in
  if negb (str_eqb raw_uri cleaned_uri) then
    let '(is_fix, msg) := _classify_uri_change cl raw_uri cleaned_uri in
    if nonempty msg then
      log msg ;;
      bump (if is_fix then inc_malformed_uris_fixed else inc_uri_normalizations) ;;
      ret (cleaned_uri, [if is_fix then L "URI fixed" else L "URI normalized"])
    else ret (cleaned_uri, [])
  else ret (cleaned_uri, []).

(** The body of [_parse_concept_block] from the subject to the last field:
    the record as it is just before the final validation. *)
Definition parse_fields (block g1 : str) : M Concept :=
  ui <- parse_uri g1 ;;
  pl <- parse_labels (L "skos:prefLabel") block ;;
  al <- parse_labels (L "skos:altLabel") block ;;
  df <- parse_texts (L "skos:definition") block ;;
  nt <- parse_texts (L "skos:note") block ;;
  sn <- parse_texts (L "skos:scopeNote") block ;;
  en <- parse_texts (L "skos:editorialNote") block ;;
  hn <- parse_texts (L "skos:historyNote") block ;;
  cn <- parse_texts (L "skos:changeNote") block ;;
  ex <- parse_texts (L "skos:example") block ;;
  ret (mkConcept (fst ui) pl al df nt sn en hn cn ex
         (_parse_multiline_properties block) block (snd ui)).

(** [_parse_concept_block].  The [issues] entries appended just before a
    [return None] die with the record and are not modelled. *)
Definition _parse_concept_block (block : str) : M (option Concept) :=
  match find_subject block with
  | Some g1 =>
      concept <- parse_fields block g1 ;;
      match prefLabels concept with
      | [] => bump inc_concepts_without_preflabel ;; ret None
      | _ => ret (Some concept)
      end
  | None => ret None
  end.

(* ================================================================== *)
(** ** Lexical segmenter and document metadata *)
(* ================================================================== *)

(** [(@base\s+<[^>]+>\s*\.)]: the matched text, the URI inside the
    brackets, and the rest. *)
Definition base_decl (s : str) : option ((str * str) * str) :=
  match Re.lit (L "@base") s with
  | Some r =>
      match Re.many1 is_space r with
      | Some (_, r1) =>
          match Re.angle r1 with
          | Some (inner, r2) =>
              match Re.lit (L ".") (snd (span is_space r2)) with
              | Some r3 => Some ((firstn (length s - length r3) s, inner), r3)
              | None => None
              end
          | None => None
          end
      | None => None
      end
  | None => None
  end.

(** [_extract_base_uri]; the second search of the source uses the same
    pattern with the group around the URI and finds the same match. *)
Definition _extract_base_uri (content : str) : M (option str) :=
  match Re.search base_decl content with
  | Some (decl, inner) =>
      fun c => (Some inner, set_base (Some decl) (base_uri c) c)
  | None => ret None
  end.

(** The non-blank, non-comment lines, stripped *)
Definition content_lines (content : str) : list str :=
  filter (fun l => nonempty l && negb (startswith (L "#") l))
         (map strip (split_on c_nl content)).

(** The loop of [_extract_metadata]: [(in_concept_scheme, current_block)]
    and the last scheme block completed. *)
Fixpoint metadata_loop (cur : option (list str)) (found : option str) (lines : list str)
  : option str :=
  match lines with
  | [] => found
  | line :: rest =>
      if contains (L "a skos:ConceptScheme") line then metadata_loop (Some [line]) found rest
      else match cur with
           | Some blk =>
               if endswith (L " .") line
               then metadata_loop None (Some (join (c_nl :: L "    ") (blk ++ [line]))) rest
               else metadata_loop (Some (blk ++ [line])) found rest
           | None => metadata_loop None found rest
           end
  end.

Definition _extract_metadata (content : str) : M unit :=
  fun c => (tt, set_concept_scheme
                  (metadata_loop None (concept_scheme c) (content_lines content)) c).

(** [re.match(r'^(<[^>]+>|[a-zA-Z0-9_:/-]+)\s+a\s+skos:Concept', line)] *)
Definition starts_concept (line : str) : bool :=
  match Re.subject (L "skos:Concept") line with Some _ => true | None => false end.

Definition nonempty_list (A : Type) (l : list A) : bool :=
  match l with [] => false | _ => true end.

(** The loop of [_split_into_concept_blocks] over the cleaned lines;
    [cur] is [current_block]. *)
Fixpoint blocks_loop (cur : list str) (lines : list str) : list str :=
  match lines with
  | [] => match cur with [] => [] | _ => [join [c_nl] cur] end
  | line :: rest =>
      if starts_concept line then
        match cur with
        | [] => blocks_loop [line] rest
        | _ => join [c_nl] cur :: blocks_loop [line] rest
        end
      else if str_eqb (strip line) (L ".") && nonempty_list cur then
        join [c_nl] (cur ++ [line]) :: blocks_loop [] rest
      else match cur with
           | [] => blocks_loop [] rest
           | _ => blocks_loop (cur ++ [line]) rest
           end
  end.

Definition _split_into_concept_blocks (content : str) : list str :=
  blocks_loop [] (content_lines content).

(** The loop of [_extract_concepts] over the blocks *)
Fixpoint parse_blocks (blocks : list str) : M (list Concept) :=
  match blocks with
  | [] => ret []
  | b :: rest =>
      c <- _parse_concept_block b ;;
      r <- parse_blocks rest ;;
      ret (match c with Some x => x :: r | None => r end)
  end.

(** [_extract_concepts] *)
Definition _extract_concepts (content : str) : M (list Concept) :=
  b <- _extract_base_uri content ;;
  (fun c => (tt, set_base (base_declaration c) b c)) ;;
  _extract_metadata content ;;
  let blocks := _split_into_concept_blocks content in
  bump (set_total_concepts (length blocks)) ;;
  parse_blocks blocks.

(* ================================================================== *)
(** ** Serializer and the cleaning pipeline *)
(* ================================================================== *)

(** One of the loops of [_format_concept] over a field:
    [lang_tag], [_fix_comma_spacing], the property line, then the counter
    of that field when it has one. *)
Fixpoint format_values (kw : str) (counter : option (Stats -> Stats)) (ls : list Label)
  : M (list str) :=
  match ls with
  | [] => ret []
  | l :: rest =>
      let lang_tag := if nonempty (lang l) then L "@" ++ lang l else [] in
      fixed_text <- _fix_comma_spacing (text l) ;;
      (match counter with Some f => bump f | None => ret tt end) ;;
      r <- format_values kw counter rest ;;
      ret ((kw ++ L " " ++ [c_dq] ++ fixed_text ++ [c_dq] ++ lang_tag) :: r)
  end.

(** The opaque properties, trailing punctuation removed, empty ones dropped *)
Definition format_other (props : list str) : list str :=
  filter nonempty (map (fun p => strip (rstrip_chars (L " ;.,") p)) props).

(** [' ;'] after every property but the last, [' .'] after the last *)
Fixpoint with_separators (props : list str) : list str :=
  match props with
  | [] => []
  | [p] => [L "    " ++ p ++ L " ."]
  | p :: r => (L "    " ++ p ++ L " ;") :: with_separators r
  end.

(** [_format_concept] *)
Definition _format_concept (concept : Concept) : M str :=
  cl <- get ;;
  let u := uri concept in
  let head :=
    match base_uri cl with
    | Some b =>
        if nonempty b && startswith b u
        then L "<" ++ skipn (length b) u ++ L ">" ++ L " a skos:Concept ;"
        else u ++ L " a skos:Concept ;"
    | None => u ++ L " a skos:Concept ;"
    end in
  p1 <- format_values (L "skos:prefLabel") (Some inc_labels_processed) (prefLabels concept) ;;
  p2 <- format_values (L "skos:altLabel") (Some inc_labels_processed) (altLabels concept) ;;
  p3 <- format_values (L "skos:definition") (Some inc_definitions_processed)
          (definitions concept) ;;
  p4 <- format_values (L "skos:note") (Some inc_notes_processed) (notes concept) ;;
  p5 <- format_values (L "skos:scopeNote") (Some inc_notes_processed) (scopeNotes concept) ;;
  p6 <- format_values (L "skos:editorialNote") (Some inc_notes_processed)
          (editorialNotes concept) ;;
  p7 <- format_values (L "skos:historyNote") (Some inc_notes_processed)
          (historyNotes concept) ;;
  p8 <- format_values (L "skos:changeNote") (Some inc_notes_processed)
          (changeNotes concept) ;;
  p9 <- format_values (L "skos:example") None (examples concept) ;;
  let all_properties :=
    p1 ++ p2 ++ p3 ++ p4 ++ p5 ++ p6 ++ p7 ++ p8 ++ p9
       ++ format_other (other_properties concept) in
  ret (join [c_nl] (head :: with_separators all_properties)).

(** The loop over the concepts in [_generate_cleaned_content]: the
    formatted concept, then an empty line. *)
Fixpoint format_concepts (concepts : list Concept) : M (list str) :=
  match concepts with
  | [] => ret []
  | c :: rest =>
      s <- _format_concept c ;;
      r <- format_concepts rest ;;
      ret (s :: [] :: r)
  end.

(** [_generate_cleaned_content] *)
Definition _generate_cleaned_content (concepts : list Concept) (original_content : str)
  : M str :=
  cl <- get ;;
  let prefixes :=
    filter (startswith (L "@prefix")) (map strip (split_on c_nl original_content)) in
  let l_base := match base_declaration cl with
                | Some d => if nonempty d then [d] else []
                | None => []
                end in
  let l_prefixes :=
    match prefixes with
    | [] => [ L "@prefix skos: <http://www.w3.org/2004/02/skos/core#> .";
              L "@prefix esco: <http://data.europa.eu/esco/> ."; [] ]
    | _ => prefixes ++ [[]]
    end in
  let l_scheme := match concept_scheme cl with
                  | Some s => if nonempty s then [s; []] else []
                  | None => []
                  end in
  cs <- format_concepts concepts ;;
  ret (join [c_nl] (l_base ++ l_prefixes ++ l_scheme ++ cs)).

(** [clean_file], from the text that [_read_file_with_encoding] returned:
    the cleaned text; the statistics are those of the final state. *)
Definition clean_file (content : str) : M str :=
  if negb (nonempty content) then ret content
  else
    concepts <- _extract_concepts content ;;
    cleaned_concepts <- _clean_concepts concepts ;;
    _generate_cleaned_content cleaned_concepts content.

(* ================================================================== *)
(** ** Dictionaries and sets of the validators *)
(* ================================================================== *)

Module Dict.

(** A Python [dict] with string keys: the items in insertion order.  An
    assignment to an existing key keeps the key's position. *)
Definition t (V : Type) := list (str * V).

Fixpoint set (V : Type) (k : str) (v : V) (d : t V) : t V :=
  match d with
  | [] => [(k, v)]
  | (k', v') :: r => if str_eqb k k' then (k, v) :: r else (k', v') :: set k v r
  end.

Fixpoint get (V : Type) (k : str) (d : t V) : option V :=
  match d with
  | [] => None
  | (k', v) :: r => if str_eqb k k' then Some v else get k r
  end.

Definition keys (V : Type) (d : t V) : list str := map fst d.

(** [d[k].add(x)] on a [defaultdict(set)]; a set is kept as the list of
    its members in the order of their first insertion. *)
Definition add_str (x : str) (s : list str) : list str :=
  if mem_str x s then s else s ++ [x].
Definition add_to (k x : str) (d : t (list str)) : t (list str) :=
  set k (add_str x (match get k d with Some s => s | None => [] end)) d.

(** [d.get(k, set())] *)
Definition get_set (k : str) (d : t (list str)) : list str :=
  match get k d with Some s => s | None => [] end.

End Dict.

(** [a & b] for two sets of strings, as the members of [a] that are in [b] *)
Definition inter (a b : list str) : list str := filter (fun x => mem_str x b) a.

(** Comparison of two strings as Python compares them: by code points. *)
Fixpoint str_leb (a b : str) : bool :=
  match a, b with
  | [], _ => true
  | _ :: _, [] => false
  | x :: a', y :: b' => if N.ltb x y then true else if N.ltb y x then false else str_leb a' b'
  end.

Fixpoint insert_sorted (x : str) (l : list str) : list str :=
  match l with
  | [] => [x]
  | y :: r => if str_leb x y then x :: l else y :: insert_sorted x r
  end.

(** [sorted(s)] for a set of strings *)
Definition sorted (l : list str) : list str := fold_right insert_sorted [] l.

(* ================================================================== *)
(** ** Code tokens and the hierarchy autofixer *)
(* ================================================================== *)

(** [re.findall(r'<([^>]+)>', prop)] and the re-wrapping in brackets:
    [_extract_uris_from_property] *)
Definition _extract_uris_from_property (prop : str) : list str :=
  map (fun u => L "<" ++ u ++ L ">") (Re.findall Re.angle prop).

(** [_extract_uri_from_property]: the first bracketed token *)
Definition _extract_uri_from_property (prop : str) : option str :=
  match Re.search Re.angle prop with
  | Some u => Some (L "<" ++ u ++ L ">")
  | None => None
  end.

(** The characters of the code read from the end of the token, last
    character first: digits, and a hyphen when a digit stands before it. *)
Fixpoint rev_code (r : str) : str :=
  match r with
  | c :: t =>
      if is_digit c then c :: rev_code t
      else if N.eqb c 45%N && match t with d :: _ => is_digit d | [] => false end
      then c :: rev_code t
      else []
  | [] => []
  end.

(** The search for the group [\d+(?:-\d+)*] anchored by [$]: the leftmost
    match that reaches the end; [$] also holds before a newline that ends
    the string. *)
Definition trailing_code (s : str) : option str :=
  let r := match rev s with
           | c :: t => if N.eqb c c_nl then t else c :: t
           | [] => []
           end in
  match r with
  | c :: _ => if is_digit c then Some (rev (rev_code r)) else None
  | [] => None
  end.

(** [_extract_numeric_code] *)
Definition _extract_numeric_code (uri_or_token : str) : option str :=
  if negb (nonempty uri_or_token) then None
  else
    let s := strip uri_or_token in
    let s := if startswith (L "<") s && endswith (L ">") s then slice_1_m1 s else s in
    let s := if contains (L "/") s
             then last (split_on 47%N (rstrip_chars (L "/") s)) []
             else s in
    trailing_code s.

(** [s.isdigit()] *)
Definition isdigit (s : str) : bool := nonempty s && forallb is_isdigit_char s.

(** [[f(k) for k in range(n - 1, 0, -1)]] *)
Definition down_range (n : nat) : list nat := rev (seq 1 (n - 1)).

(** The order-preserving removal of repeated entries at the end of
    [_code_prefixes] *)
Fixpoint dedupe (seen : list str) (l : list str) : list str :=
  match l with
  | [] => []
  | p :: r => if mem_str p seen then dedupe seen r else p :: dedupe (p :: seen) r
  end.

(** [_code_prefixes], for a code that is present *)
Definition _code_prefixes (code : str) : list str :=
  if negb (nonempty code) then []
  else
    let prefixes :=
      if contains (L "-") code then
        let parts := split_on 45%N code in
        let segs := map (fun i => join (L "-") (firstn i parts)) (down_range (length parts)) in
        let first := hd [] parts in
        segs ++ (if isdigit first && (1 <? length first)
                 then map (fun k => take k first) (down_range (length first))
                 else [])
      else
        if isdigit code && (1 <? length code)
        then map (fun k => take k code) (down_range (length code))
        else [] in
    dedupe [] prefixes.

(** The first loop of the autofixer and of the hierarchy validator: the
    maps [code_to_uri] and [uri_to_code]. *)
Fixpoint code_maps (concepts : list Concept) (m : Dict.t str * Dict.t str)
  : Dict.t str * Dict.t str :=
  match concepts with
  | [] => m
  | c :: rest =>
      match _extract_numeric_code (uri c) with
      | Some code => code_maps rest (Dict.set code (uri c) (fst m), Dict.set (uri c) code (snd m))
      | None => code_maps rest m
      end
  end.

(** The codes of the targets of one property *)
Definition target_codes (prop : str) : list str :=
  flat_map (fun t => match _extract_numeric_code t with Some k => [k] | None => [] end)
           (_extract_uris_from_property prop).

(** [broader_map[src_code].add(tgt_code)] for the targets of the
    properties of one concept that contain [pred] *)
Definition add_targets (src_code : str) (codes : list str) (m : Dict.t (list str))
  : Dict.t (list str) :=
  fold_left (fun acc k => Dict.add_to src_code k acc) codes m.

(** The second loop of the autofixer: [broader_map] *)
Fixpoint autofix_broader_map (uri_to_code : Dict.t str) (concepts : list Concept)
    (m : Dict.t (list str)) : Dict.t (list str) :=
  match concepts with
  | [] => m
  | c :: rest =>
      match Dict.get (uri c) uri_to_code with
      | Some src_code =>
          autofix_broader_map uri_to_code rest
            (fold_left (fun acc prop =>
                          if contains (L "skos:broader ") prop
                          then add_targets src_code (target_codes prop) acc
                          else acc)
                       (other_properties c) m)
      | None => autofix_broader_map uri_to_code rest m
      end
  end.

(** [max(candidates, key=len)]: the first entry of greatest length *)
Fixpoint max_by_len (best : str) (l : list str) : str :=
  match l with
  | [] => best
  | x :: r => if length best <? length x then max_by_len x r else max_by_len best r
  end.

(** [f"skos:broader <{parent_uri.strip('<>')}>"] *)
Definition broader_triple (parent_uri : str) : str :=
  L "skos:broader <" ++ strip_chars (L "<>") parent_uri ++ L ">".

(** The existing candidates of a code and, when the autofixer is to act
    on a concept with that code, the parent it links to. *)
Definition autofix_parent (code_to_uri : Dict.t str) (broader_map : Dict.t (list str))
    (code : str) : option str :=
  let candidates := filter (fun p => mem_str p (Dict.keys code_to_uri)) (_code_prefixes code) in
  match candidates with
  | [] => None
  | c0 :: cr =>
      if nonempty_list (inter (Dict.get_set code broader_map) candidates) then None
      else Some (match Dict.get (max_by_len c0 cr) code_to_uri with
                 | Some u => u
                 | None => []
                 end)
  end.

(** One turn of the third loop of the autofixer: the concept after the
    turn and whether a link was added. *)
Definition autofix_concept (code_to_uri uri_to_code : Dict.t str)
    (broader_map : Dict.t (list str)) (c : Concept) : M (Concept * bool) :=
  match Dict.get (uri c) uri_to_code with
  | Some code =>
      match autofix_parent code_to_uri broader_map code with
      | Some parent_uri =>
          let triple := broader_triple parent_uri in
          if mem_str triple (other_properties c) then ret (c, false)
          else
            log (L "Autofix: added skos:broader <" ++ strip_chars (L "<>") parent_uri
                   ++ L "> to <" ++ uri c ++ L "> based on code " ++ code) ;;
            ret (set_other_properties (other_properties c ++ [triple]) c, true)
      | None => ret (c, false)
      end
  | None => ret (c, false)
  end.

Fixpoint autofix_loop (code_to_uri uri_to_code : Dict.t str)
    (broader_map : Dict.t (list str)) (concepts : list Concept) : M (list Concept * nat) :=
  match concepts with
  | [] => ret ([], 0)
  | c :: rest =>
      r1 <- autofix_concept code_to_uri uri_to_code broader_map c ;;
      r2 <- autofix_loop code_to_uri uri_to_code broader_map rest ;;
      ret (fst r1 :: fst r2, (if snd r1 then 1 else 0) + snd r2)
  end.

(** [_apply_hierarchy_autofix]: the concepts as the in-place appends leave
    them, and the number of links added. *)
Definition _apply_hierarchy_autofix (concepts : list Concept) : M (list Concept * nat) :=
  let '(code_to_uri, uri_to_code) := code_maps concepts ([], []) in
  match code_to_uri with
  | [] => ret (concepts, 0)
  | _ =>
      autofix_loop code_to_uri uri_to_code
        (autofix_broader_map uri_to_code concepts []) concepts
  end.

(* ================================================================== *)
(** ** Validation engine *)
(* ================================================================== *)

Section Validation.

(** What the Python runtime contributes to the validators:
    - [urlparse u] is the scheme and the network location that
      [urllib.parse.urlparse] finds in [u], [None] when it raises;
    - [set_iter l] is the order in which a [set] with the members [l] is
      iterated (it depends on the hash seed of the process);
    - [repr s] is [repr] of a string, as it appears in the text of a list. *)
Variable urlparse : str -> option (str * str).
Variable set_iter : forall A : Type, list A -> list A.
Variable repr : str -> str.

(** [str(l)] for a list of strings *)
Definition str_of_list (l : list str) : str := L "[" ++ join (L ", ") (map repr l) ++ L "]".

(** *** The texts of the findings *)

Definition msg_s14 (u : str) (count : nat) (lng : str) (labels : list str) : str :=
  L "S14 Violation: <" ++ u ++ L "> has " ++ str_of_nat count
    ++ L " prefLabels for language '" ++ lng ++ L "': "
    ++ join (L ", ") (map (fun l => [c_dq] ++ l ++ [c_dq]) labels) ++ L ". "
    ++ L "Suggestion: Keep only one prefLabel per language, move others to altLabel.".

Definition msg_s13 (u : str) (overlap : list (str * str)) : str :=
  L "S13 Violation: <" ++ u ++ L "> has overlapping prefLabel/altLabel: "
    ++ join (L ", ") (map (fun tl => [c_dq] ++ fst tl ++ [c_dq] ++ L "@" ++ snd tl) overlap)
    ++ L ". "
    ++ L "Suggestion: Remove duplicate from altLabel or use different preferred term.".

Definition msg_long_label (u label_text : str) : str :=
  L "Very long label (" ++ str_of_nat (length label_text) ++ L " chars) in <" ++ u
    ++ L ">: '" ++ take 50 label_text ++ L "...'. "
    ++ L "Suggestion: Consider shortening or using skos:definition for detailed descriptions.".

Definition msg_empty_label (u : str) : str :=
  L "Empty label in <" ++ u
    ++ L ">. Suggestion: Remove empty label or provide meaningful text.".

Definition msg_encoding (u label_text : str) : str :=
  L "Potential encoding issue in <" ++ u ++ L ">: '" ++ label_text ++ L "'. "
    ++ L "Suggestion: Check UTF-8 encoding of source data.".

Definition msg_label_uri (u label_text : str) : str :=
  L "Label looks like URI in <" ++ u ++ L ">: '" ++ label_text ++ L "'. "
    ++ L "Suggestion: Use skos:exactMatch for URI mappings instead.".

Definition msg_s27 (src tgt : str) : str :=
  L "S27 Violation: <" ++ src ++ L "> has both skos:broader and skos:related to <" ++ tgt
    ++ L ">. "
    ++ L "Suggestion: Use either broader or related, but not both for the same concept pair.".

Definition msg_cycle (src tgt : str) : str :=
  L "Simple cycle detected: <" ++ src ++ L "> and <" ++ tgt ++ L "> are mutually broader. "
    ++ L "Suggestion: Remove one of the broader relations to create a proper hierarchy.".

Definition msg_invalid_uri (u : str) : str := L "Invalid URI format: " ++ u.

Definition msg_lang_tag (lng u : str) : str :=
  L "Potentially invalid language tag '" ++ lng ++ L "' in " ++ u.

Definition msg_gap (u code parent_prefix : str) : str :=
  L "Hierarchy gap: <" ++ u ++ L "> (code " ++ code
    ++ L ") is missing intermediate level concept '" ++ parent_prefix ++ L "'. "
    ++ L "Suggestion: Add concept '" ++ parent_prefix
    ++ L "' or adjust codes to reflect intended hierarchy.".

Definition msg_inconsistent (u code : str) (candidate_uris broader_uris : list str) : str :=
  L "Inconsistent hierarchy: <" ++ u ++ L "> (code " ++ code
    ++ L ") has no skos:broader to any prefix among " ++ str_of_list candidate_uris ++ L ". "
    ++ L "Found broader targets: " ++ join (L ", ") broader_uris ++ L ". "
    ++ L "Suggestion: Add a skos:broader to one of its prefix concepts (e.g., "
    ++ hd [] candidate_uris ++ L ").".

Definition msg_missing_narrower (parent_uri u code : str) : str :=
  L "Parent missing skos:narrower: " ++ parent_uri ++ L " should include <" ++ u
    ++ L "> (code " ++ code ++ L ") as narrower. "
    ++ L "Suggestion: Add 'skos:narrower <" ++ u ++ L ">' to parent.".

Definition msg_top_without_in (concept_uri scheme_token : str) : str :=
  L "Concept <" ++ concept_uri ++ L "> has topConceptOf " ++ scheme_token
    ++ L " but is missing inScheme " ++ scheme_token.

Definition msg_top_non_concept (target_bare : str) : str :=
  L "hasTopConcept points to non-Concept: <" ++ target_bare ++ L ">".

Definition msg_top_target (target_bare report_token : str) : str :=
  L "Concept <" ++ target_bare ++ L "> is hasTopConcept of " ++ report_token
    ++ L " but missing inScheme " ++ report_token.

Definition msg_xl_conflict (xl_uri u : str) : str :=
  L "SKOS-XL label URI <" ++ xl_uri ++ L "> conflicts with concept URI in <" ++ u ++ L ">. "
    ++ L "Suggestion: Use different namespace for XL labels.".

Definition msg_xl_orphan (u : str) : str :=
  L "Orphaned SKOS-XL label <" ++ u ++ L "> not referenced by any concept. "
    ++ L "Suggestion: Link to concept via skosxl:prefLabel/altLabel/hiddenLabel.".

(** *** Family 1: label cardinality and disjointness *)

(** [lang_counts] and [lang_labels] after the loop over the preferred labels *)
Definition lang_tables (pref_labels : list Label) : Dict.t nat * Dict.t (list str) :=
  fold_left
    (fun acc l =>
       (Dict.set (lang l) (S (match Dict.get (lang l) (fst acc) with Some n => n | None => 0 end))
                 (fst acc),
        Dict.set (lang l) (Dict.get_set (lang l) (snd acc) ++ [text l]) (snd acc)))
    pref_labels ([], []).

Definition s14_violations (u : str) (pref_labels : list Label) : list str :=
  let '(lang_counts, lang_labels) := lang_tables pref_labels in
  flat_map (fun lc => if 1 <? snd lc
                      then [msg_s14 u (snd lc) (fst lc) (Dict.get_set (fst lc) lang_labels)]
                      else [])
           lang_counts.

Definition pair_eqb (a b : str * str) : bool :=
  str_eqb (fst a) (fst b) && str_eqb (snd a) (snd b).
Definition mem_pair (x : str * str) (l : list (str * str)) : bool := existsb (pair_eqb x) l.

(** [set(l)] for a list of pairs: the members in the order of their first
    insertion *)
Fixpoint set_of_pairs (seen : list (str * str)) (l : list (str * str)) : list (str * str) :=
  match l with
  | [] => []
  | x :: r => if mem_pair x seen then set_of_pairs seen r else x :: set_of_pairs (x :: seen) r
  end.

Definition label_pairs (ls : list Label) : list (str * str) :=
  set_of_pairs [] (map (fun l => (text l, lang l)) ls).

(** The S13 check; the set of hidden labels is empty, so that the two
    overlaps with it are empty and their findings are never produced. *)
Definition s13_violations (u : str) (c : Concept) : list str :=
  let pref_alt_overlap :=
    filter (fun x => mem_pair x (label_pairs (altLabels c))) (label_pairs (prefLabels c)) in
  match pref_alt_overlap with
  | [] => []
  | _ => [msg_s13 u (set_iter pref_alt_overlap)]
  end.

(** The four mis-decoded sequences looked for in a label *)
Definition residue : list str := [ [195; 164]; [195; 182]; [195; 188]; [195; 376] ]%N.

(** [label_text.lower().startswith(('http://', 'https://'))]; only ASCII
    capitals lower-case to the letters of the two prefixes. *)
Definition looks_like_uri (label_text : str) : bool :=
  let l := map lower_ascii label_text in
  startswith (L "http://") l || startswith (L "https://") l.

Definition label_warnings (u : str) (label_text : str) : list str :=
  (if 500 <? length label_text then [msg_long_label u label_text] else [])
  ++ (if negb (nonempty label_text) then [msg_empty_label u] else [])
  ++ (if existsb (fun r => contains r label_text) residue then [msg_encoding u label_text]
      else [])
  ++ (if looks_like_uri label_text then [msg_label_uri u label_text] else []).

(** [_validate_skos_integrity] *)
Definition _validate_skos_integrity (concepts : list Concept) : list str * list str :=
  (flat_map (fun c => s14_violations (uri c) (prefLabels c) ++ s13_violations (uri c) c)
            concepts,
   flat_map (fun c => flat_map (fun l => label_warnings (uri c) (text l))
                               (prefLabels c ++ altLabels c))
            concepts).

(** *** Family 2: semantic relations *)

(** The pairs that one concept contributes to [broader_relations] and to
    [related_relations] *)
Definition relations_of (pred : str) (excluded : option str) (c : Concept) : list (str * str) :=
  flat_map (fun prop =>
              if match excluded with Some e => contains e prop | None => false end then []
              else if contains pred prop
              then map (fun t => (uri c, t)) (_extract_uris_from_property prop)
              else [])
           (other_properties c).

(** [_validate_semantic_relations] *)
Definition _validate_semantic_relations (concepts : list Concept) : list str * list str :=
  let broader_relations := flat_map (relations_of (L "skos:broader ") None) concepts in
  let related_relations :=
    flat_map (relations_of (L "skos:related ") (Some (L "skos:broader "))) concepts in
  let broader_set := set_of_pairs [] broader_relations in
  let related_set := set_of_pairs [] related_relations in
  let direct_conflicts := filter (fun x => mem_pair x related_set) broader_set in
  (map (fun conflict => msg_s27 (fst conflict) (snd conflict)) (set_iter direct_conflicts),
   flat_map (fun st => if mem_pair (snd st, fst st) broader_set
                       then [msg_cycle (fst st) (snd st)] else [])
            broader_relations).

(** *** Family 3: datatypes and URIs *)

(** [_is_valid_uri] *)
Definition _is_valid_uri (u : str) : bool :=
  match urlparse (strip_chars (L "<>") u) with
  | Some (scheme, netloc) => nonempty scheme && nonempty netloc
  | None => false
  end.

(** The sub-tags [(-[A-Za-z0-9]{1,8})*] up to the end of the string; [$]
    also holds before a newline that ends the string. *)
Fixpoint subtags (fuel : nat) (s : str) : bool :=
  match s with
  | [] => true
  | [c] => N.eqb c c_nl
  | c :: t =>
      match fuel with
      | O => false
      | S f =>
          N.eqb c 45%N &&
          let '(sub, rest) := span is_alnum t in
          (1 <=? length sub) && (length sub <=? 8) && subtags f rest
      end
  end.

(** [_is_valid_language_tag]: [^[a-z]{2,3}(-[A-Za-z0-9]{1,8})*$] *)
Definition _is_valid_language_tag (tag : str) : bool :=
  if negb (nonempty tag) then false
  else
    let '(letters, rest) := span is_lower tag in
    if length letters <? 2 then false
    else subtags (length tag) (skipn 3 letters ++ rest).

(** [_validate_datatypes_and_uris] *)
Definition _validate_datatypes_and_uris (concepts : list Concept) : list str * list str :=
  (flat_map (fun c => if negb (_is_valid_uri (uri c)) then [msg_invalid_uri (uri c)] else [])
            concepts,
   flat_map (fun c =>
               flat_map (fun l => if nonempty (lang l) && negb (_is_valid_language_tag (lang l))
                                  then [msg_lang_tag (lang l) (uri c)] else [])
                        (prefLabels c ++ altLabels c))
            concepts).

(** *** Family 4: SKOS-XL labels *)

Definition xl_predicates : list str :=
  [ L "skosxl:prefLabel"; L "skosxl:altLabel"; L "skosxl:hiddenLabel" ].

(** The loop over the properties of one concept: [xl_label_uris] so far
    and the warnings of the concept *)
Fixpoint xl_props (concept_uris : list str) (u : str) (props : list str)
    (xl_label_uris : list str) : list str * list str :=
  match props with
  | [] => (xl_label_uris, [])
  | prop :: rest =>
      if existsb (fun x => contains x prop) xl_predicates then
        match _extract_uri_from_property prop with
        | Some xl_uri =>
            let '(s, w) := xl_props concept_uris u rest (Dict.add_str xl_uri xl_label_uris) in
            (s, (if mem_str xl_uri concept_uris then [msg_xl_conflict xl_uri u] else []) ++ w)
        | None => xl_props concept_uris u rest xl_label_uris
        end
      else if contains (L "skosxl:literalForm") prop then
        let '(s, w) := xl_props concept_uris u rest xl_label_uris in
        (s, (if negb (mem_str u xl_label_uris) then [msg_xl_orphan u] else []) ++ w)
      else xl_props concept_uris u rest xl_label_uris
  end.

Fixpoint xl_concepts (concept_uris : list str) (concepts : list Concept)
    (xl_label_uris : list str) : list str :=
  match concepts with
  | [] => []
  | c :: rest =>
      let '(s, w) := xl_props concept_uris (uri c) (other_properties c) xl_label_uris in
      w ++ xl_concepts concept_uris rest s
  end.

(** [_validate_skos_xl_labels] *)
Definition _validate_skos_xl_labels (cl : Cleaner) (concepts : list Concept)
  : list str * list str :=
  if negb (enable_skos_xl cl) then ([], [])
  else ([], xl_concepts (map uri concepts) concepts []).

(** *** Family 5: hierarchy gaps and parent consistency *)

(** [broader_map] and [narrower_map] of the hierarchy validator *)
Fixpoint hierarchy_maps (uri_to_code : Dict.t str) (concepts : list Concept)
    (m : Dict.t (list str) * Dict.t (list str)) : Dict.t (list str) * Dict.t (list str) :=
  match concepts with
  | [] => m
  | c :: rest =>
      match Dict.get (uri c) uri_to_code with
      | Some src_code =>
          hierarchy_maps uri_to_code rest
            (fold_left
               (fun acc prop =>
                  if contains (L "skos:broader ") prop
                  then (add_targets src_code (target_codes prop) (fst acc), snd acc)
                  else if contains (L "skos:narrower ") prop
                  then (fst acc, add_targets src_code (target_codes prop) (snd acc))
                  else acc)
               (other_properties c) m)
      | None => hierarchy_maps uri_to_code rest m
      end
  end.

(** [code_to_uri.get(k, f"<{k}>")] *)
Definition uri_of_code (code_to_uri : Dict.t str) (k : str) : str :=
  match Dict.get k code_to_uri with Some u => u | None => L "<" ++ k ++ L ">" end.

(** One turn of the loop over [code_to_uri.items()]: the violations, the
    warnings and the infos of one code *)
Definition hierarchy_check (cl : Cleaner) (code_to_uri : Dict.t str)
    (broader_map narrower_map : Dict.t (list str)) (code u : str)
  : list str * list str * list str :=
  let all_codes := Dict.keys code_to_uri in
  let prefixes := _code_prefixes code in
  match prefixes with
  | [] => ([], [], [])
  | _ =>
      let warnings :=
        flat_map (fun p => if negb (mem_str p all_codes) then [msg_gap u code p] else [])
                 prefixes in
      let broader_codes := Dict.get_set code broader_map in
      let prefix_candidates := filter (fun p => mem_str p all_codes) prefixes in
      let violations :=
        if nonempty_list prefix_candidates
           && negb (nonempty_list (inter broader_codes prefix_candidates))
        then
          let broader_uris :=
            match map (uri_of_code code_to_uri) (sorted broader_codes) with
            | [] => [[8212%N]]
            | l => l
            end in
          let candidate_uris := map (uri_of_code code_to_uri) (sorted prefix_candidates) in
          [msg_inconsistent u code candidate_uris broader_uris]
        else [] in
      let infos :=
        flat_map
          (fun parent_code =>
             if warn_missing_narrower cl
                && negb (mem_str code (Dict.get_set parent_code narrower_map))
             then [msg_missing_narrower (uri_of_code code_to_uri parent_code) u code]
             else [])
          (set_iter (inter broader_codes prefix_candidates)) in
      (violations, warnings, infos)
  end.

(** [_validate_hierarchy_gaps]; the infos are appended to
    [self.validation_infos]. *)
Definition _validate_hierarchy_gaps (concepts : list Concept) : M (list str * list str) :=
  let '(code_to_uri, uri_to_code) := code_maps concepts ([], []) in
  match code_to_uri with
  | [] => ret ([], [])
  | _ =>
      cl <- get ;;
      let '(broader_map, narrower_map) := hierarchy_maps uri_to_code concepts ([], []) in
      let found :=
        map (fun cu => hierarchy_check cl code_to_uri broader_map narrower_map (fst cu) (snd cu))
            code_to_uri in
      let infos := flat_map (fun r => snd r) found in
      (fun c => (tt, match infos with
                     | [] => c
                     | _ => set_infos (validation_infos c ++ infos) c
                     end)) ;;
      ret (flat_map (fun r => fst (fst r)) found, flat_map (fun r => snd (fst r)) found)
  end.

(** *** Family 6: scheme consistency *)

(** The tables [in_scheme] and [top_of] after the loop over the concepts *)
Definition scheme_tables (concepts : list Concept) : Dict.t (list str) * Dict.t (list str) :=
  fold_left
    (fun acc c =>
       if negb (nonempty (uri c)) then acc
       else
         fold_left
           (fun acc prop =>
              let acc1 :=
                if contains (L "skos:inScheme ") prop
                then (add_targets (uri c) (_extract_uris_from_property prop) (fst acc), snd acc)
                else acc in
              if contains (L "skos:topConceptOf ") prop
              then (fst acc1, add_targets (uri c) (_extract_uris_from_property prop) (snd acc1))
              else acc1)
           (other_properties c) acc)
    concepts ([], []).

(** The check of the [skos:hasTopConcept] targets of the scheme block *)
Definition top_concept_violations (cl : Cleaner) (scheme : str) (concept_uris : list str)
    (in_scheme : Dict.t (list str)) : list str :=
  let first_line := strip (hd [] (split_on c_nl scheme)) in
  let subject :=
    match Re.subject (L "skos:ConceptScheme") first_line with
    | Some scheme_subject =>
        let inner := if startswith (L "<") scheme_subject && endswith (L ">") scheme_subject
                     then slice_1_m1 scheme_subject else scheme_subject in
        Some (_clean_uri cl inner, L "<" ++ inner ++ L ">",
              L "<" ++ _clean_uri cl inner ++ L ">")
    | None => None
    end in
  flat_map
    (fun target =>
       let target_bare := _clean_uri cl (strip target) in
       if negb (mem_str target_bare concept_uris) then [msg_top_non_concept target_bare]
       else match subject with
            | Some (bare, raw_token, norm_token) =>
                if nonempty bare
                   && negb (nonempty_list (inter (Dict.get_set target_bare in_scheme)
                                                 [raw_token; norm_token]))
                then [msg_top_target target_bare raw_token]
                else []
            | None => []
            end)
    (Re.findall (fun s => match kw_space (L "skos:hasTopConcept") s with
                          | Some (r, _) => Re.angle r
                          | None => None
                          end)
                scheme).

(** [_validate_scheme_consistency] *)
Definition _validate_scheme_consistency (cl : Cleaner) (concepts : list Concept)
  : list str * list str :=
  let concept_uris := filter nonempty (map uri concepts) in
  let '(in_scheme, top_of) := scheme_tables concepts in
  let v1 :=
    flat_map (fun cs =>
                flat_map (fun scheme_token =>
                            if negb (mem_str scheme_token (Dict.get_set (fst cs) in_scheme))
                            then [msg_top_without_in (fst cs) scheme_token] else [])
                         (set_iter (snd cs)))
             top_of in
  let v2 := match concept_scheme cl with
            | Some scheme => if nonempty scheme
                             then top_concept_violations cl scheme concept_uris in_scheme
                             else []
            | None => []
            end in
  (v1 ++ v2, []).

(** *** Chunked and standard validation *)

(** [concepts[i:i + n]] for [i] in [range(0, len(concepts), n)], [n > 0] *)
Fixpoint chunks (A : Type) (fuel n : nat) (l : list A) : list (list A) :=
  match fuel with
  | O => []
  | S f => match l with
           | [] => []
           | _ => firstn n l :: chunks f n (skipn n l)
           end
  end.

(** The three per-chunk families, in the order of the calls *)
Definition validate_chunk (chunk : list Concept) : list str * list str :=
  let r1 := _validate_skos_integrity chunk in
  let r2 := _validate_semantic_relations chunk in
  let r3 := _validate_datatypes_and_uris chunk in
  (fst r1 ++ fst r2 ++ fst r3, snd r1 ++ snd r2 ++ snd r3).

(** The chunks of the two chunked loops: [None] when the chunk size is
    zero, where the division that computes [total_chunks] raises; no chunk
    when it is negative, where [range(0, len(concepts), chunk_size)] is
    empty. *)
Definition chunks_of (A : Type) (size : Z) (l : list A) : option (list (list A)) :=
  match size with
  | Z0 => None
  | Zpos p => Some (chunks (length l) (Pos.to_nat p) l)
  | Zneg _ => Some []
  end.

(** [_validate_concepts_chunked]; [None] is the exception of a chunk size
    of zero. *)
Definition _validate_concepts_chunked (concepts : list Concept)
  : M (option (list str * list str)) :=
  cl <- get ;;
  match chunks_of (chunk_size cl) concepts with
  | None => ret None
  | Some cs =>
      let per_chunk := map validate_chunk cs in
      h <- _validate_hierarchy_gaps concepts ;;
      cl1 <- get ;;
      let s := _validate_scheme_consistency cl1 concepts in
      ret (Some (flat_map fst per_chunk ++ fst h ++ fst s,
                 flat_map snd per_chunk ++ snd h ++ snd s))
  end.

(** The standard path of [clean_ttl_file]: the six families in turn, each
    result appended to [all_violations] and [all_warnings]. *)
Definition validate_standard (concepts : list Concept) : M (list str * list str) :=
  cl <- get ;;
  let r1 := _validate_skos_integrity concepts in
  let r2 := _validate_semantic_relations concepts in
  let r3 := _validate_datatypes_and_uris concepts in
  let r4 := if enable_skos_xl cl then _validate_skos_xl_labels cl concepts else ([], []) in
  h <- _validate_hierarchy_gaps concepts ;;
  cl1 <- get ;;
  let s := _validate_scheme_consistency cl1 concepts in
  ret (fst r1 ++ fst r2 ++ fst r3 ++ fst r4 ++ fst h ++ fst s,
       snd r1 ++ snd r2 ++ snd r3 ++ snd r4 ++ snd h ++ snd s).

(** The validation step of [clean_ttl_file]: [all_violations] and
    [all_warnings] as the reports receive them, also stored in
    [self.validation_violations] and [self.validation_warnings].  In the
    chunked branch the result of [_validate_concepts_chunked] is bound to
    the local names [violations] and [warnings] and the two accumulators
    are left as they are.  [None] is a run that an exception ends. *)
Definition run_validation (cleaned_concepts : list Concept)
  : M (option (list str * list str)) :=
  (fun c => (tt, set_infos [] c)) ;;
  cl <- get ;;
  if enable_validation cl then
    if memory_efficient cl && (chunk_size cl <? Z.of_nat (length cleaned_concepts))%Z then
      r <- _validate_concepts_chunked cleaned_concepts ;;
      match r with
      | Some _ =>
          (fun c => (tt, set_findings [] [] c)) ;;
          ret (Some ([], []))
      | None => ret None
      end
    else
      r <- validate_standard cleaned_concepts ;;
      (fun c => (tt, set_findings (fst r) (snd r) c)) ;;
      ret (Some r)
  else ret (Some ([], [])).

(** *** The run of [clean_ttl_file] *)

(** The loop of [_clean_concepts_chunked] over the chunks *)
Fixpoint clean_chunks (cs : list (list Concept)) : M (list Concept) :=
  match cs with
  | [] => ret []
  | chunk :: rest =>
      (fun c => (tt, set_processed_chunks (S (processed_chunks c)) c)) ;;
      cleaned_chunk <- _clean_concepts chunk ;;
      r <- clean_chunks rest ;;
      ret (cleaned_chunk ++ r)
  end.

(** [_clean_concepts_chunked]; [None] when the chunk size is zero *)
Definition _clean_concepts_chunked (concepts : list Concept) : M (option (list Concept)) :=
  cl <- get ;;
  match chunks_of (chunk_size cl) concepts with
  | None => ret None
  | Some cs => r <- clean_chunks cs ;; ret (Some r)
  end.

(** The concept list that [clean_ttl_file] validates and writes: parsed,
    deduplicated (by chunk in the memory-efficient mode) and, when the
    option is set, autofixed. *)
Definition cleaned_graph (content : str) : M (option (list Concept)) :=
  concepts <- _extract_concepts content ;;
  cl <- get ;;
  cleaned <- (if memory_efficient cl && (chunk_size cl <? Z.of_nat (length concepts))%Z
              then _clean_concepts_chunked concepts
              else r <- _clean_concepts concepts ;; ret (Some r)) ;;
  match cleaned with
  | Some cs =>
      if autofix_broader cl
      then r <- _apply_hierarchy_autofix cs ;; ret (Some (fst r))
      else ret (Some cs)
  | None => ret None
  end.

(** [clean_ttl_file], from the text read from the input file to the text
    written to the output file; [None] is the result [False]. *)
Definition clean_ttl_file (content : str) : M (option str) :=
  if negb (nonempty content) then ret None
  else
    g <- cleaned_graph content ;;
    match g with
    | Some cleaned_concepts =>
        v <- run_validation cleaned_concepts ;;
        match v with
        | Some _ => out <- _generate_cleaned_content cleaned_concepts content ;; ret (Some out)
        | None => ret None
        end
    | None => ret None
    end.

(** *** Summary by category *)

(** The sixteen categories of [_summarize_validation_counts], each with
    its predicate *)
Definition categories : list (str * (str -> bool)) :=
  [ (L "S14 prefLabel duplicates", startswith (L "S14 Violation"));
    (L "S13 pref/alt overlap", startswith (L "S13 Violation"));
    (L "URI format invalid", startswith (L "Invalid URI format"));
    (L "Language tag possibly invalid", contains (L "Potentially invalid language tag"));
    (L "S27 broader+related conflict", startswith (L "S27 Violation"));
    (L "Simple hierarchy cycles", startswith (L "Simple cycle detected"));
    (L "Hierarchy gap (missing intermediate level)", startswith (L "Hierarchy gap"));
    (L "Hierarchy: missing broader to prefix", startswith (L "Inconsistent hierarchy"));
    (L "Hierarchy: parent missing narrower", startswith (L "Parent missing skos:narrower"));
    (L "Scheme: topConceptOf without inScheme",
       fun s => contains (L "has topConceptOf") s && contains (L "missing inScheme") s);
    (L "Scheme: hasTopConcept -> non-Concept",
       contains (L "hasTopConcept points to non-Concept"));
    (L "Scheme: hasTopConcept target missing inScheme",
       fun s => contains (L "is hasTopConcept of") s && contains (L "missing inScheme") s);
    (L "Label warning: very long", startswith (L "Very long label"));
    (L "Label warning: empty", startswith (L "Empty label"));
    (L "Label warning: encoding issue", startswith (L "Potential encoding issue"));
    (L "Label warning: looks like URI", startswith (L "Label looks like URI")) ].

(** [_summarize_validation_counts]: the dictionary in insertion order *)
Definition _summarize_validation_counts (violations warnings infos : list str)
  : list (str * nat) :=
  let all_msgs := violations ++ warnings ++ infos in
  map (fun np => (fst np, length (filter (snd np) all_msgs))) categories.

End Validation.

(* ================================================================== *)
(** ** Notions of the specification used in the statements *)
(* ================================================================== *)

(** [Subseq a b]: [a] is [b] with some entries left out, the others in
    their order. *)
Inductive Subseq (A : Type) : list A -> list A -> Prop :=
| Subseq_nil : Subseq [] []
| Subseq_keep : forall x a b, Subseq a b -> Subseq (x :: a) (x :: b)
| Subseq_drop : forall x a b, Subseq a b -> Subseq a (x :: b).

(** The records of a list whose URI an earlier record of the list has *)
Fixpoint later_duplicates (seen : list str) (concepts : list Concept) : list Concept :=
  match concepts with
  | [] => []
  | c :: rest =>
      if mem_str (uri c) seen then c :: later_duplicates seen rest
      else later_duplicates (uri c :: seen) rest
  end.

(** The first record of a list with a given URI *)
Definition first_with_uri (u : str) (concepts : list Concept) : option Concept :=
  find (fun c => str_eqb (uri c) u) concepts.

(** The number of records of a list with a given URI *)
Definition count_uri (u : str) (concepts : list Concept) : nat :=
  length (filter (fun c => str_eqb (uri c) u) concepts).

(** An absolute scheme in the sense of the specification's step 2: a
    letter, then letters, digits, [+], [-] or [.], then a colon. *)
Definition has_absolute_scheme (v : str) : bool :=
  let '(name, rest) := span (fun c => is_alnum c || mem_char (L "+-.") c) v in
  match name, rest with
  | c :: _, d :: _ => (is_lower c || is_upper c) && N.eqb d 58%N
  | _, _ => false
  end.

(** A language tag of exactly two lower-case ASCII letters *)
Definition two_lowercase (lng : str) : bool :=
  match lng with
  | [x; y] => is_lower x && is_lower y
  | _ => false
  end.

(** Every label and note sequence of a concept *)
Definition all_values (c : Concept) : list Label :=
  prefLabels c ++ altLabels c ++ definitions c ++ notes c ++ scopeNotes c
    ++ editorialNotes c ++ historyNotes c ++ changeNotes c ++ examples c.

(** A step of the parser that leaves [concepts_without_preflabel] alone *)
Definition keeps (A : Type) (m : M A) : Prop :=
  forall cl, concepts_without_preflabel (stats (snd (m cl)))
             = concepts_without_preflabel (stats cl).

(** A tag as the label patterns capture it, and a stored label with a tag
    of two lower-case letters *)
Definition tag_ok (found : str * str) : Prop :=
  snd found = [] \/ two_lowercase (snd found) = true.

Definition label_ok (l : Label) : Prop := two_lowercase (lang l) = true.

(** The tail of a subject match: [\s+a\s+KW] *)
Definition subject_tail (kw r : str) : bool :=
  match Re.many1 is_space r with
  | Some (_, r1) =>
      match Re.lit (L "a") r1 with
      | Some r2 =>
          match Re.many1 is_space r2 with
          | Some (_, r3) => startswith kw r3
          | None => false
          end
      | None => false
      end
  | None => false
  end.

(** [current_block] is empty or begins with a line that starts a concept *)
Definition opened (cur : list str) : Prop :=
  match cur with [] => True | line :: _ => starts_concept line = true end.

(** A finding that at least one of the sixteen predicates matches *)
Definition categorised (msg : str) : bool := existsb (fun np => snd np msg) categories.

Definition is_categorised (msg : str) : Prop := categorised msg = true.

(** The line that the deduplicator logs for a dropped record *)
Definition duplicate_msg (c : Concept) : str := L "Duplicate removed: " ++ uri c.

(** *** The graph as the amended claim speaks of it *)

(** The code token of a concept *)
Definition code_of (c : Concept) : option str := _extract_numeric_code (uri c).

Definition has_code (p : str) (c : Concept) : bool :=
  match code_of c with Some k => str_eqb p k | None => false end.

(** The codes that exist in the graph *)
Definition graph_codes (concepts : list Concept) : list str :=
  flat_map (fun c => match code_of c with Some k => [k] | None => [] end) concepts.

(** The URI of the last concept of the list that has the code [p] *)
Definition concept_of_code (concepts : list Concept) (p : str) : option str :=
  option_map uri (find (has_code p) (rev concepts)).

(** The codes of the [skos:broader] targets declared by the concepts whose
    code is [k] *)
Definition declared_broader (concepts : list Concept) (k : str) : list str :=
  flat_map (fun c => if has_code k c
                     then flat_map target_codes
                            (filter (contains (L "skos:broader ")) (other_properties c))
                     else [])
           concepts.

(** The candidate prefixes of [k] that are codes of the graph, longest
    first *)
Definition existing_candidates (concepts : list Concept) (k : str) : list str :=
  filter (fun p => mem_str p (graph_codes concepts)) (_code_prefixes k).

(** The link that the autofixer is to add to a concept: the URI of the
    parent and the code of the concept; [None] when it adds nothing. *)
Definition autofix_target (concepts : list Concept) (c : Concept) : option (str * str) :=
  match code_of c with
  | Some k =>
      match existing_candidates concepts k with
      | [] => None
      | c0 :: cr =>
          if existsb (fun t => mem_str t (c0 :: cr)) (declared_broader concepts k) then None
          else
            let parent := match concept_of_code concepts (max_by_len c0 cr) with
                          | Some u => u
                          | None => []
                          end in
            if mem_str (broader_triple parent) (other_properties c) then None
            else Some (parent, k)
      end
  | None => None
  end.

(** The concept after the autofixer, and the line it logs *)
Definition autofix_spec (concepts : list Concept) (c : Concept) : Concept :=
  match autofix_target concepts c with
  | Some (parent, _) =>
      set_other_properties (other_properties c ++ [broader_triple parent]) c
  | None => c
  end.

Definition autofix_log (concepts : list Concept) (c : Concept) : list str :=
  match autofix_target concepts c with
  | Some (parent, k) =>
      [L "Autofix: added skos:broader <" ++ strip_chars (L "<>") parent
         ++ L "> to <" ++ uri c ++ L "> based on code " ++ k]
  | None => []
  end.

(** The decision of one turn of the loop, from the maps *)
Definition autofix_decision (cu uc : Dict.t str) (bm : Dict.t (list str)) (c : Concept)
  : option (str * str) :=
  match Dict.get (uri c) uc with
  | Some code =>
      match autofix_parent cu bm code with
      | Some parent =>
          if mem_str (broader_triple parent) (other_properties c) then None
          else Some (parent, code)
      | None => None
      end
  | None => None
  end.

Definition apply_decision (d : option (str * str)) (c : Concept) : Concept :=
  match d with
  | Some (parent, _) => set_other_properties (other_properties c ++ [broader_triple parent]) c
  | None => c
  end.

Definition decision_log (d : option (str * str)) (c : Concept) : list str :=
  match d with
  | Some (parent, k) =>
      [L "Autofix: added skos:broader <" ++ strip_chars (L "<>") parent
         ++ L "> to <" ++ uri c ++ L "> based on code " ++ k]
  | None => []
  end.

Definition is_some (A : Type) (o : option A) : bool :=
  match o with Some _ => true | None => false end.

(* ================================================================== *)
(** ** Further functions of the source and notions for their properties *)
(* ================================================================== *)

(** [final_concepts] as [_print_report] computes it from the statistics;
    the integers of Python do not stop at zero. *)
Definition reported_final_concepts (s : Stats) : Z :=
  (Z.of_nat (total_concepts s) - Z.of_nat (duplicates_removed s)
   - Z.of_nat (concepts_without_preflabel s))%Z.

(** A step that leaves the part [g] of the state alone; [keeps_stat] is the
    case of a statistic. *)
Definition preserves (T : Type) (g : Cleaner -> T) (A : Type) (m : M A) : Prop :=
  forall cl, g (snd (m cl)) = g cl.
Definition keeps_stat (f : Stats -> nat) (A : Type) (m : M A) : Prop :=
  forall cl, f (stats (snd (m cl))) = f (stats cl).


(** A list of strings in which every entry is strictly longer than every
    later one *)
Fixpoint longest_first (l : list str) : Prop :=
  match l with
  | [] => True
  | a :: r => Forall (fun b => length b < length a) r /\ longest_first r
  end.

(** [p] is a prefix of [s] and not [s] itself *)
Definition proper_prefix (s p : str) : Prop :=
  startswith p s = true /\ length p < length s.


(** The strings that [\d+(?:-\d+)*] matches in full: groups of digits
    separated by single hyphens.  [after_digit] tells whether the
    character just read is a digit. *)
Fixpoint code_from (after_digit : bool) (s : str) : bool :=
  match s with
  | [] => after_digit
  | c :: t =>
      if is_digit c then code_from true t
      else N.eqb c 45%N && after_digit && code_from false t
  end.
Definition is_code (s : str) : bool := code_from false s.


(** A base URI that is absent, empty or an [http] URI *)
Definition base_is_http (b : option str) : bool :=
  match b with
  | Some x => negb (nonempty x) || startswith (L "http") x
  | None => true
  end.


(** The link that the autofixer writes for a parent is read back as the
    code of that parent: for every concept with a code, the targets of
    [skos:broader <uri>] have that code among their codes. *)
Definition links_readable (concepts : list Concept) : bool :=
  forallb (fun c => match code_of c with
                    | Some k => mem_str k (target_codes (broader_triple (uri c)))
                    | None => true
                    end)
          concepts.


(** A text whose words are separated by single blanks: it begins and ends
    with a character that is not white space, every white-space character
    in it is the blank U+0020, and no two of them are adjacent.
    [after_word] tells whether the character just read is not white space. *)
Fixpoint spaced_from (after_word : bool) (s : str) : bool :=
  match s with
  | [] => after_word
  | c :: t =>
      if is_space c then N.eqb c c_sp && after_word && spaced_from false t
      else spaced_from true t
  end.
Definition single_spaced (s : str) : bool := spaced_from false s.


(** The positions, in [categories], of the twelve categories that test
    the beginning of a finding; the other four (3, 9, 10 and 11) look for
    a phrase anywhere in it. *)
Definition prefix_categories : list nat := [0; 1; 2; 4; 5; 6; 7; 8; 12; 13; 14; 15].


(** The positions of the four categories that look for a phrase *)
Definition substring_categories : list nat := [3; 9; 10; 11].



(* ================================================================== *)
(** ** Basic facts about strings and the state monad *)
(* ================================================================== *)

Lemma str_eqb_eq (a b : str) : str_eqb a b = true <-> a = b.
Proof.
  revert b; induction a as [|x a IH]; intros [|y b]; simpl; split; try congruence; auto.
  - intros H. apply andb_true_iff in H as [H1 H2].
    apply N.eqb_eq in H1. apply IH in H2. congruence.
  - intros H. inversion H; subst. rewrite N.eqb_refl. simpl. now apply IH.
Qed.

Lemma str_eqb_refl (a : str) : str_eqb a a = true.
Proof. now apply str_eqb_eq. Qed.

Lemma str_eqb_neq (a b : str) : str_eqb a b = false <-> a <> b.
Proof.
  split.
  - intros H E. apply str_eqb_eq in E. congruence.
  - intros H. destruct (str_eqb a b) eqn:E; auto. apply str_eqb_eq in E. contradiction.
Qed.

Lemma mem_str_In (x : str) (l : list str) : mem_str x l = true <-> In x l.
Proof.
  unfold mem_str. rewrite existsb_exists. split.
  - intros [y [Hy E]]. apply str_eqb_eq in E. now subst.
  - intros H. exists x. split; auto. apply str_eqb_refl.
Qed.

Lemma mem_str_not_In (x : str) (l : list str) : mem_str x l = false <-> ~ In x l.
Proof.
  rewrite <- mem_str_In. destruct (mem_str x l); split; congruence.
Qed.

Lemma contains_app_r (sub a b : str) : contains sub b = true -> contains sub (a ++ b) = true.
Proof.
  intros H. induction a as [|x a IH]; simpl; auto.
  rewrite IH. apply orb_true_r.
Qed.

(** Unfolding of the monad on a state *)
Lemma bind_run (A B : Type) (m : M A) (k : A -> M B) (c : Cleaner) :
  bind m k c = k (fst (m c)) (snd (m c)).
Proof. unfold bind. now destruct (m c). Qed.

(* ================================================================== *)
(** ** C1: the deduplicator *)
(* ================================================================== *)

Section Dedup.

Lemma dedup_loop_state (concepts : list Concept) :
  forall seen cl,
    let r := dedup_loop seen concepts cl in
    duplicates_removed (stats (snd r))
      = duplicates_removed (stats cl) + length (later_duplicates seen concepts)
    /\ change_log (snd r) = change_log cl ++ map duplicate_msg (later_duplicates seen concepts)
    /\ length (fst r) + length (later_duplicates seen concepts) = length concepts.
Proof.
  induction concepts as [|c rest IH]; intros seen cl; simpl.
  - repeat split; auto. now rewrite app_nil_r.
  - destruct (mem_str (uri c) seen) eqn:E.
    + rewrite !bind_run. simpl.
      destruct (IH seen (snd (log (duplicate_msg c) (snd (bump inc_duplicates_removed cl)))))
        as [H1 [H2 H3]].
      unfold duplicate_msg in *. simpl in *.
      rewrite H1, H2. repeat split.
      * lia.
      * now rewrite <- app_assoc.
      * lia.
    + rewrite bind_run. simpl.
      destruct (IH (uri c :: seen) cl) as [H1 [H2 H3]].
      repeat split; auto; simpl in *; lia.
Qed.

Lemma dedup_loop_fresh (concepts : list Concept) :
  forall seen cl c, In c (fst (dedup_loop seen concepts cl)) -> ~ In (uri c) seen.
Proof.
  induction concepts as [|c0 rest IH]; intros seen cl c; simpl.
  - tauto.
  - destruct (mem_str (uri c0) seen) eqn:E.
    + rewrite !bind_run. apply IH.
    + rewrite bind_run. simpl. intros [H|H].
      * subst. now apply mem_str_not_In.
      * apply IH in H. intros Hin. apply H. now right.
Qed.

Lemma dedup_loop_nodup (concepts : list Concept) :
  forall seen cl, NoDup (map uri (fst (dedup_loop seen concepts cl))).
Proof.
  induction concepts as [|c rest IH]; intros seen cl; simpl.
  - constructor.
  - destruct (mem_str (uri c) seen) eqn:E.
    + rewrite !bind_run. apply IH.
    + rewrite bind_run. simpl. constructor; auto.
      intros Hin. apply in_map_iff in Hin as [c' [Hu Hc']].
      apply dedup_loop_fresh in Hc'. apply Hc'. left. congruence.
Qed.

Lemma dedup_loop_subseq (concepts : list Concept) :
  forall seen cl, Subseq (fst (dedup_loop seen concepts cl)) concepts.
Proof.
  induction concepts as [|c rest IH]; intros seen cl; simpl.
  - constructor.
  - destruct (mem_str (uri c) seen) eqn:E.
    + rewrite !bind_run. constructor. apply IH.
    + rewrite bind_run. simpl. constructor. apply IH.
Qed.

Lemma dedup_loop_first (concepts : list Concept) :
  forall seen cl u, ~ In u seen ->
    first_with_uri u (fst (dedup_loop seen concepts cl)) = first_with_uri u concepts.
Proof.
  induction concepts as [|c rest IH]; intros seen cl u Hu; simpl; auto.
  destruct (mem_str (uri c) seen) eqn:E.
  - rewrite !bind_run. rewrite IH by auto.
    destruct (str_eqb (uri c) u) eqn:E1; auto.
    apply str_eqb_eq in E1. apply mem_str_In in E. subst. contradiction.
  - rewrite bind_run. simpl.
    destruct (str_eqb (uri c) u) eqn:E1; auto.
    apply IH. intros [H|H]; auto. apply str_eqb_neq in E1. contradiction.
Qed.

Lemma count_uri_nodup (l : list Concept) (u : str) :
  NoDup (map uri l) -> In u (map uri l) -> count_uri u l = 1.
Proof.
  unfold count_uri. induction l as [|c l IH]; simpl; intros Hn Hin; [tauto|].
  inversion Hn as [|? ? Hnot Hn']; subst.
  destruct (str_eqb (uri c) u) eqn:E.
  - apply str_eqb_eq in E. subst. simpl. f_equal.
    clear IH Hin Hn Hn'. induction l as [|d l IH]; simpl; auto.
    destruct (str_eqb (uri d) (uri c)) eqn:E.
    + apply str_eqb_eq in E. exfalso. apply Hnot. left. auto.
    + apply IH. intros H. apply Hnot. now right.
  - apply IH; auto. destruct Hin as [H|H]; auto.
    apply str_eqb_neq in E. contradiction.
Qed.

End Dedup.

(** C1.  [_clean_concepts] keeps exactly the first-seen record of every
    URI, in parse order: the URIs of the result are pairwise different, so
    that every URI of the result has exactly one record; the record kept for
    a URI is the first record of the input with that URI; the result is the
    input with entries left out and the others in their order; each record
    whose URI an earlier record has is dropped, adds one to
    [duplicates_removed] and leaves one line in the change log. *)
Theorem clean_concepts_first_seen_wins (concepts : list Concept) (cl : Cleaner) :
  let out := fst (_clean_concepts concepts cl) in
  let cl' := snd (_clean_concepts concepts cl) in
  NoDup (map uri out)
  /\ (forall u, In u (map uri out) -> count_uri u out = 1)
  /\ (forall u, first_with_uri u out = first_with_uri u concepts)
  /\ Subseq out concepts
  /\ duplicates_removed (stats cl')
       = duplicates_removed (stats cl) + length (later_duplicates [] concepts)
  /\ length out + length (later_duplicates [] concepts) = length concepts
  /\ change_log cl'
       = change_log cl
           ++ map (fun c => L "Duplicate removed: " ++ uri c) (later_duplicates [] concepts).
Proof.
  unfold _clean_concepts. cbv zeta.
  destruct (dedup_loop_state concepts [] cl) as [H1 [H2 H3]].
  repeat split; auto.
  - apply dedup_loop_nodup.
  - intros u Hu. apply count_uri_nodup; auto. apply dedup_loop_nodup.
  - intros u. apply dedup_loop_first. simpl. tauto.
  - apply dedup_loop_subseq.
Qed.

(* ================================================================== *)
(** ** C4: the URI canonicalizer on values that have a scheme *)
(* ================================================================== *)

(** C4, as stated, fails: the token [<urn:isbn:1>] has the absolute scheme
    [urn], and [_clean_uri] does not return the stripped value
    [urn:isbn:1]; it reads [urn] as a prefix and returns
    [http://example.org/urn/isbn:1]. *)
Lemma clean_uri_urn_is_rewritten :
  has_absolute_scheme (strip_brackets (L "<urn:isbn:1>")) = true
  /\ strip_brackets (L "<urn:isbn:1>") = L "urn:isbn:1"
  /\ _clean_uri default_cleaner (L "<urn:isbn:1>") = L "http://example.org/urn/isbn:1"
  /\ _clean_uri default_cleaner (L "<urn:isbn:1>") <> strip_brackets (L "<urn:isbn:1>").
Proof. repeat split; try reflexivity. vm_compute. discriminate. Qed.

(** C4, amended.  A token whose value, after the white space and the
    enclosing angle brackets are stripped, starts with [http] is returned
    as that stripped value, whatever the base URI is. *)
Theorem clean_uri_http_unchanged (cl : Cleaner) (raw : str) :
  startswith (L "http") (strip_brackets raw) = true ->
  _clean_uri cl raw = strip_brackets raw.
Proof.
  intros H. unfold _clean_uri. cbv zeta. now rewrite H.
Qed.

Lemma clean_uri_http_unchanged_witness :
  startswith (L "http") (strip_brackets (L " <https://w3id.org/kim/1> ")) = true
  /\ _clean_uri (set_base None (Some (L "http://w3id.org/base/")) default_cleaner)
       (L " <https://w3id.org/kim/1> ") = L "https://w3id.org/kim/1".
Proof.
  split; [reflexivity|].
  now rewrite (@clean_uri_http_unchanged
                 (set_base None (Some (L "http://w3id.org/base/")) default_cleaner)
                 (L " <https://w3id.org/kim/1> ") eq_refl).
Defined.

(** Any other value with a colon is expanded as a prefixed name. *)
Lemma clean_uri_other_scheme_expanded (cl : Cleaner) (raw : str) :
  startswith (L "http") (strip_brackets raw) = false ->
  contains (L ":") (strip_brackets raw) = true ->
  _clean_uri cl raw
  = let '(prefix, local) := split_first 58%N (strip_brackets raw) in
    if str_eqb prefix (L "esco")
    then L "http://data.europa.eu/esco/skill/" ++ local
    else L "http://example.org/" ++ prefix ++ L "/" ++ local.
Proof.
  intros H1 H2. unfold _clean_uri. cbv zeta. rewrite H1, H2. simpl.
  now rewrite andb_false_r.
Qed.

(* ================================================================== *)
(** ** C9 and C3: two runs of the cleaning pipeline *)
(* ================================================================== *)

(** C9.  The document that consists of the block
    [<42-10> a skos:Concept ; skos:prefLabel Q Foo,Bar Q @en .] (one line,
    [Q] the double quote, no blanks around the label): the parser stores the
    label text [Foo,Bar] unchanged, the cleaned output has the property
    line with [Foo, Bar] and the tag [en], and [comma_fixes] is 1 at the
    end of the run. *)
Theorem foo_bar_comma_fix :
  let block := L "<42-10> a skos:Concept ; skos:prefLabel " ++ [c_dq] ++ L "Foo,Bar"
                 ++ [c_dq] ++ L "@en ." in
  let run := clean_file block default_cleaner in
  fst (_clean_label (L "Foo,Bar") default_cleaner) = Some (L "Foo,Bar")
  /\ option_map prefLabels (fst (_parse_concept_block block default_cleaner))
     = Some [mkLabel (L "Foo,Bar") (L "en")]
  /\ fst run
     = join [c_nl]
         [ L "@prefix skos: <http://www.w3.org/2004/02/skos/core#> .";
           L "@prefix esco: <http://data.europa.eu/esco/> .";
           [];
           L "http://data.europa.eu/esco/skill/42-10 a skos:Concept ;";
           L "    skos:prefLabel " ++ [c_dq] ++ L "Foo, Bar" ++ [c_dq] ++ L "@en .";
           [] ]
  /\ comma_fixes (stats (snd run)) = 1
  /\ comma_fixes (stats (snd (_extract_concepts block default_cleaner))) = 0.
Proof. vm_compute. repeat split. Qed.

(** C3 at a failing input.  The document has the base [http://x/v/] and one
    concept [<http://x/v/a:b>] with the label [Foo].  The first run writes
    the concept with the relative token [<a:b>]; the second run, on that
    output, reads [a:b] as a prefixed name, changes the URI to
    [http://example.org/a/b] and counts one malformed URI fixed. *)
Theorem second_run_fixes_a_uri :
  let doc := join [c_nl]
               [ L "@base <http://x/v/> .";
                 L "<http://x/v/a:b> a skos:Concept ;";
                 L "    skos:prefLabel " ++ [c_dq] ++ L "Foo" ++ [c_dq] ++ L "@en ." ] in
  let run1 := clean_file doc default_cleaner in
  let run2 := clean_file (fst run1) default_cleaner in
  fst run1
  = join [c_nl]
      [ L "@base <http://x/v/> .";
        L "@prefix skos: <http://www.w3.org/2004/02/skos/core#> .";
        L "@prefix esco: <http://data.europa.eu/esco/> .";
        [];
        L "<a:b> a skos:Concept ;";
        L "    skos:prefLabel " ++ [c_dq] ++ L "Foo" ++ [c_dq] ++ L "@en .";
        [] ]
  /\ malformed_uris_fixed (stats (snd run1)) = 0
  /\ malformed_uris_fixed (stats (snd run2)) = 1
  /\ map uri (fst (_extract_concepts doc default_cleaner)) = [L "http://x/v/a:b"]
  /\ map uri (fst (_extract_concepts (fst run1) default_cleaner)) = [L "http://example.org/a/b"].
Proof. vm_compute. repeat split. Qed.

(** A second input for C3: a label with a tab after the character U+00C3.
    The first run only collapses the tab to a blank; this makes the
    two-character key U+00C3 U+0020 of the replacement table, which the
    second run replaces in each of its two passes over the preferred
    labels, counting two encoding fixes. *)
Lemma second_run_fixes_an_encoding :
  let doc := join [c_nl]
               [ L "@base <http://x/v/> .";
                 L "<c1> a skos:Concept ;";
                 L "    skos:prefLabel " ++ [c_dq] ++ [195; 9; 120]%N ++ [c_dq] ++ L "@en ." ] in
  let run1 := clean_file doc default_cleaner in
  let run2 := clean_file (fst run1) default_cleaner in
  encoding_issues_fixed (stats (snd run1)) = 0
  /\ encoding_issues_fixed (stats (snd run2)) = 2.
Proof. vm_compute. repeat split. Qed.

(* ================================================================== *)
(** ** Facts about the parser *)
(* ================================================================== *)

Section ParserFacts.

Lemma keeps_ret (A : Type) (a : A) : keeps (ret a).
Proof. now intros cl. Qed.

Lemma keeps_get : keeps get.
Proof. now intros cl. Qed.

Lemma keeps_log (msg : str) : keeps (log msg).
Proof. now intros cl. Qed.

Lemma keeps_bind (A B : Type) (m : M A) (k : A -> M B) :
  keeps m -> (forall a, keeps (k a)) -> keeps (bind m k).
Proof.
  intros Hm Hk cl. rewrite bind_run. now rewrite Hk, Hm.
Qed.

Lemma keeps_bump (f : Stats -> Stats) :
  (forall s, concepts_without_preflabel (f s) = concepts_without_preflabel s) ->
  keeps (bump f).
Proof. intros H cl. simpl. apply H. Qed.

Lemma keeps_if (A : Type) (b : bool) (m1 m2 : M A) :
  keeps m1 -> keeps m2 -> keeps (if b then m1 else m2).
Proof. now destruct b. Qed.

End ParserFacts.

Ltac keeps_step :=
  first [ apply keeps_ret | apply keeps_get | apply keeps_log
        | apply keeps_bump; intros; reflexivity
        | apply keeps_bind; [| intros ?]
        | apply keeps_if ].

Lemma keeps_clean_label (label : str) : keeps (_clean_label label).
Proof. unfold _clean_label. repeat keeps_step. Qed.

Lemma keeps_clean_text_field (txt : str) : keeps (_clean_text_field txt).
Proof. unfold _clean_text_field. repeat keeps_step. Qed.

Lemma keeps_add_values (clean : str -> M (option str)) (dd : bool) :
  (forall s, keeps (clean s)) ->
  forall found acc, keeps (add_values clean dd found acc).
Proof.
  intros Hc found. induction found as [|[lbl lng] rest IH]; intros acc; simpl.
  - apply keeps_ret.
  - apply keeps_bind; [apply Hc|]. intros [t|]; [|apply IH].
    destruct (dd && existsb _ acc); apply IH.
Qed.

Lemma keeps_add_multi (tails : list str) : forall acc, keeps (add_multi tails acc).
Proof.
  induction tails as [|tail rest IH]; intros acc; simpl.
  - apply keeps_ret.
  - apply keeps_bind; [|intros; apply IH].
    apply keeps_add_values, keeps_clean_label.
Qed.

Lemma keeps_parse_labels (kw block : str) : keeps (parse_labels kw block).
Proof.
  unfold parse_labels. apply keeps_bind.
  - apply keeps_add_values, keeps_clean_label.
  - intros. apply keeps_add_multi.
Qed.

Lemma keeps_parse_texts (kw block : str) : keeps (parse_texts kw block).
Proof. apply keeps_add_values, keeps_clean_text_field. Qed.

Lemma keeps_parse_uri (g1 : str) : keeps (parse_uri g1).
Proof.
  unfold parse_uri. apply keeps_bind; [apply keeps_get|]. intros cl.
  destruct (negb _); [|apply keeps_ret].
  destruct (_classify_uri_change _ _ _) as [is_fix msg].
  destruct (nonempty msg); [|apply keeps_ret].
  destruct is_fix; repeat keeps_step.
Qed.

Lemma keeps_parse_fields (block g1 : str) : keeps (parse_fields block g1).
Proof.
  unfold parse_fields.
  repeat first [ apply keeps_ret
               | apply keeps_bind;
                 [ first [apply keeps_parse_uri | apply keeps_parse_labels
                         | apply keeps_parse_texts] | intros ? ] ].
Qed.

(** *** The language tags that the parser stores *)

Lemma quoted_lang_tag (s g1 g2 r : str) :
  quoted_lang s = Some ((g1, g2), r) -> g2 = [] \/ two_lowercase g2 = true.
Proof.
  unfold quoted_lang. destruct s as [|q s1]; [discriminate|].
  destruct (N.eqb q c_dq); [|discriminate].
  destruct (span _ s1) as [[|x g] [|y s3]]; try discriminate.
  destruct s3 as [|a [|b [|c s4]]]; try (intros H; inversion H; now left).
  destruct (N.eqb a 64 && is_lower b && is_lower c) eqn:E; intros H; inversion H; subst.
  - right. simpl. apply andb_true_iff in E as [E1 E2].
    apply andb_true_iff in E1 as [_ E1]. now rewrite E1, E2.
  - now left.
Qed.

Lemma kw_quoted_lang_tag (kw s g1 g2 r : str) :
  kw_quoted_lang kw s = Some ((g1, g2), r) -> g2 = [] \/ two_lowercase g2 = true.
Proof.
  unfold kw_quoted_lang. destruct (kw_space kw s) as [[r1 ?]|]; [|discriminate].
  apply quoted_lang_tag.
Qed.

Lemma scan_Forall (A : Type) (P : A -> Prop) (m : str -> option (A * str)) :
  (forall s a r, m s = Some (a, r) -> P a) ->
  forall s k, Forall P (Re.scan m k s).
Proof.
  intros Hm s. induction s as [|c t IH]; intros k; simpl.
  - constructor.
  - destruct k; [|apply IH].
    destruct (m (c :: t)) as [[a rest]|] eqn:E; [|apply IH].
    constructor; [eapply Hm; eauto | apply IH].
Qed.

Lemma lang_or_en_ok (lng : str) :
  lng = [] \/ two_lowercase lng = true -> two_lowercase (lang_or_en lng) = true.
Proof.
  intros [H|H]; subst; [reflexivity|].
  unfold lang_or_en. destruct lng; [discriminate|]. exact H.
Qed.

Lemma add_values_ok (clean : str -> M (option str)) (dd : bool) (found : list (str * str)) :
  Forall tag_ok found ->
  forall acc cl, Forall label_ok acc ->
    Forall label_ok (fst (add_values clean dd found acc cl)).
Proof.
  induction 1 as [|[lbl lng] rest Hx Hrest IH]; intros acc cl Hacc; simpl; auto.
  rewrite bind_run. destruct (fst (clean lbl cl)) as [t|]; [|now apply IH].
  assert (Hnew : Forall label_ok (acc ++ [mkLabel t (lang_or_en lng)])).
  { apply Forall_app. split; auto. constructor; [|constructor].
    unfold label_ok. simpl. now apply lang_or_en_ok. }
  destruct (dd && existsb _ acc); now apply IH.
Qed.

Lemma add_multi_ok (tails : list str) :
  forall acc cl, Forall label_ok acc -> Forall label_ok (fst (add_multi tails acc cl)).
Proof.
  induction tails as [|tail rest IH]; intros acc cl Hacc; simpl; auto.
  rewrite bind_run. apply IH. apply add_values_ok; auto.
  apply scan_Forall. intros s [g1 g2] r H. apply (quoted_lang_tag _ H).
Qed.

Lemma parse_labels_ok (kw block : str) (cl : Cleaner) :
  Forall label_ok (fst (parse_labels kw block cl)).
Proof.
  unfold parse_labels. rewrite bind_run. apply add_multi_ok.
  apply add_values_ok; [|constructor].
  apply scan_Forall. intros s [g1 g2] r H. apply (kw_quoted_lang_tag _ _ H).
Qed.

Lemma parse_texts_ok (kw block : str) (cl : Cleaner) :
  Forall label_ok (fst (parse_texts kw block cl)).
Proof.
  unfold parse_texts. apply add_values_ok; [|constructor].
  apply scan_Forall. intros s [g1 g2] r H. apply (kw_quoted_lang_tag _ _ H).
Qed.

Lemma parse_fields_ok (block g1 : str) (cl : Cleaner) :
  Forall label_ok (all_values (fst (parse_fields block g1 cl))).
Proof.
  unfold parse_fields. rewrite !bind_run. unfold all_values. simpl.
  repeat (apply Forall_app; split);
    first [apply parse_labels_ok | apply parse_texts_ok].
Qed.

Lemma parse_concept_block_ok (block : str) (cl : Cleaner) (c : Concept) :
  fst (_parse_concept_block block cl) = Some c -> Forall label_ok (all_values c).
Proof.
  unfold _parse_concept_block. destruct (find_subject block) as [g1|]; [|discriminate].
  rewrite bind_run.
  destruct (prefLabels (fst (parse_fields block g1 cl))) eqn:E; [discriminate|].
  simpl. intros H. inversion H; subst. apply parse_fields_ok.
Qed.

(** *** Every block of the segmenter has a subject declaration *)

Lemma span_app (p : char -> bool) (a b x y : str) :
  span p a = (x, y) -> y <> [] -> span p (a ++ b) = (x, y ++ b).
Proof.
  revert x y. induction a as [|c a IH]; intros x y; simpl.
  - intros H Hy. inversion H; subst. contradiction.
  - destruct (p c).
    + destruct (span p a) as [x' y'] eqn:E. intros H Hy. inversion H; subst.
      now rewrite (IH x' y eq_refl Hy).
    + intros H _. now inversion H.
Qed.

Lemma many1_app (p : char -> bool) (a b x y : str) :
  Re.many1 p a = Some (x, y) -> y <> [] -> Re.many1 p (a ++ b) = Some (x, y ++ b).
Proof.
  unfold Re.many1. destruct (span p a) as [x' y'] eqn:E. intros H Hy.
  destruct x'; [discriminate|]. inversion H; subst.
  now rewrite (@span_app p a b _ _ E Hy).
Qed.

Lemma startswith_app_l (p a b : str) :
  startswith p a = true -> startswith p (a ++ b) = true.
Proof.
  revert a. induction p as [|x p IH]; intros [|y a]; simpl; auto; try discriminate.
  intros H. apply andb_true_iff in H as [H1 H2]. rewrite H1. simpl. now apply IH.
Qed.

Lemma startswith_length (p a : str) : startswith p a = true -> length p <= length a.
Proof.
  revert a. induction p as [|x p IH]; intros [|y a]; simpl; try discriminate; try lia.
  intros H. apply andb_true_iff in H as [_ H]. apply IH in H. lia.
Qed.

Lemma lit_app (p a b r : str) :
  Re.lit p a = Some r -> Re.lit p (a ++ b) = Some (r ++ b).
Proof.
  unfold Re.lit. destruct (startswith p a) eqn:E; [|discriminate].
  intros H. inversion H; subst. rewrite (@startswith_app_l p a b E).
  f_equal. rewrite skipn_app.
  replace (length p - length a) with 0 by (apply startswith_length in E; lia).
  reflexivity.
Qed.

Lemma angle_app (a b inner r : str) :
  Re.angle a = Some (inner, r) -> Re.angle (a ++ b) = Some (inner, r ++ b).
Proof.
  unfold Re.angle. destruct a as [|c a]; [discriminate|]. simpl.
  destruct (N.eqb c c_lt); [|discriminate].
  destruct (span _ a) as [x y] eqn:E.
  destruct x as [|x0 x]; [discriminate|]. destruct y as [|y0 y]; [discriminate|].
  intros H. inversion H; subst.
  rewrite (@span_app _ a b _ _ E) by discriminate. reflexivity.
Qed.

Lemma angle_none_head (c : char) (t : str) : N.eqb c c_lt = false -> Re.angle (c :: t) = None.
Proof. intros H. unfold Re.angle. now rewrite H. Qed.

Lemma subject_tail_app (kw r b : str) :
  kw <> [] -> subject_tail kw r = true -> subject_tail kw (r ++ b) = true.
Proof.
  intros Hkw. unfold subject_tail.
  destruct (Re.many1 is_space r) as [[w1 r1]|] eqn:E1; [|discriminate].
  destruct (Re.lit (L "a") r1) as [r2|] eqn:E2; [|discriminate].
  destruct (Re.many1 is_space r2) as [[w2 r3]|] eqn:E3; [|discriminate].
  intros H.
  assert (H3 : r3 <> []) by (destruct r3; [destruct kw; [contradiction|discriminate]|discriminate]).
  assert (H1 : r1 <> []) by (destruct r1; [discriminate|discriminate]).
  rewrite (@many1_app _ r b _ _ E1 H1), (@lit_app _ r1 b _ E2), (@many1_app _ r2 b _ _ E3 H3).
  now apply startswith_app_l.
Qed.

Lemma subject_tail_nonempty (kw r : str) : subject_tail kw r = true -> r <> [].
Proof. destruct r; [discriminate|discriminate]. Qed.

Lemma subject_unfold (kw s : str) :
  Re.subject kw s
  = match match Re.angle s with
          | Some (inner, r) => Some (c_lt :: inner ++ [c_gt], r)
          | None => match s with
                    | c :: _ => if N.eqb c c_lt then None else Re.many1 Re.is_tokchar s
                    | [] => None
                    end
          end with
    | Some (g1, r) => if subject_tail kw r then Some g1 else None
    | None => None
    end.
Proof.
  unfold Re.subject, subject_tail.
  destruct (match Re.angle s with Some _ => _ | None => _ end) as [[g1 r]|]; auto.
  destruct (Re.many1 is_space r) as [[? r1]|]; auto.
  destruct (Re.lit (L "a") r1) as [r2|]; auto.
  destruct (Re.many1 is_space r2) as [[? r3]|]; auto.
Qed.

Lemma subject_app (kw a b g : str) :
  kw <> [] -> Re.subject kw a = Some g -> Re.subject kw (a ++ b) = Some g.
Proof.
  intros Hkw. rewrite !subject_unfold.
  destruct (Re.angle a) as [[inner r]|] eqn:Ea.
  - rewrite (@angle_app a b _ _ Ea).
    destruct (subject_tail kw r) eqn:Et; [|discriminate].
    now rewrite (@subject_tail_app kw r b Hkw Et).
  - destruct a as [|c t]; [discriminate|]. simpl app.
    destruct (N.eqb c c_lt) eqn:Ec; [discriminate|].
    rewrite (@angle_none_head c (t ++ b) Ec).
    destruct (Re.many1 Re.is_tokchar (c :: t)) as [[tk r]|] eqn:Em; [|discriminate].
    destruct (subject_tail kw r) eqn:Et; [|discriminate].
    intros H. change (c :: t ++ b) with ((c :: t) ++ b).
    rewrite (@many1_app _ (c :: t) b _ _ Em (@subject_tail_nonempty kw r Et)).
    rewrite Ec. now rewrite (@subject_tail_app kw r b Hkw Et).
Qed.

Lemma join_cons_prefix (sep x : str) (r : list str) : exists rest, join sep (x :: r) = x ++ rest.
Proof.
  destruct r as [|y r]; simpl.
  - exists []. now rewrite app_nil_r.
  - eauto.
Qed.

Lemma find_subject_of_block (line : str) (more : list str) :
  starts_concept line = true -> find_subject (join [c_nl] (line :: more)) <> None.
Proof.
  unfold starts_concept, find_subject, Re.search_multiline.
  destruct (Re.subject (L "skos:Concept") line) as [g|] eqn:E; [|discriminate].
  intros _. destruct (join_cons_prefix [c_nl] line more) as [rest ->].
  rewrite (@subject_app (L "skos:Concept") line rest g); [discriminate| discriminate | exact E].
Qed.

Lemma blocks_loop_subjects (lines : list str) :
  forall cur, opened cur -> Forall (fun b => find_subject b <> None) (blocks_loop cur lines).
Proof.
  induction lines as [|line rest IH]; intros cur Hcur; simpl.
  - destruct cur as [|l0 more]; constructor; [|constructor].
    now apply find_subject_of_block.
  - destruct (starts_concept line) eqn:Es.
    + destruct cur as [|l0 more]; [now apply IH|].
      constructor; [now apply find_subject_of_block | now apply IH].
    + destruct cur as [|l0 more]; simpl.
      * rewrite andb_false_r. now apply IH.
      * rewrite andb_true_r. destruct (str_eqb (strip line) (L ".")).
        -- constructor; [|now apply IH].
           change ((l0 :: more) ++ [line]) with (l0 :: (more ++ [line])).
           now apply find_subject_of_block.
        -- apply IH. exact Hcur.
Qed.

Lemma segmenter_blocks_have_subject (content : str) :
  Forall (fun b => find_subject b <> None) (_split_into_concept_blocks content).
Proof. apply blocks_loop_subjects. exact I. Qed.

(** *** What the later stages keep of the parsed concepts *)

Lemma Subseq_Forall (A : Type) (P : A -> Prop) (a b : list A) :
  Subseq a b -> Forall P b -> Forall P a.
Proof.
  induction 1; intros Hb; auto.
  - inversion Hb; subst. constructor; auto.
  - inversion Hb; subst. auto.
Qed.

Lemma clean_concepts_Forall (P : Concept -> Prop) (concepts : list Concept) (cl : Cleaner) :
  Forall P concepts -> Forall P (fst (_clean_concepts concepts cl)).
Proof. apply Subseq_Forall, dedup_loop_subseq. Qed.

Lemma Forall_firstn_skipn (A : Type) (P : A -> Prop) (n : nat) (l : list A) :
  Forall P l -> Forall P (firstn n l) /\ Forall P (skipn n l).
Proof.
  intros H. rewrite <- (firstn_skipn n l) in H. now apply Forall_app in H.
Qed.

Lemma chunks_Forall (A : Type) (P : A -> Prop) (fuel n : nat) :
  forall l : list A, Forall P l -> Forall (Forall P) (chunks fuel n l).
Proof.
  induction fuel as [|f IH]; intros l Hl; simpl; [constructor|].
  destruct l as [|x l]; [constructor|].
  destruct (Forall_firstn_skipn n Hl). constructor; auto.
Qed.

Lemma clean_chunks_Forall (P : Concept -> Prop) (cs : list (list Concept)) :
  Forall (Forall P) cs -> forall cl, Forall P (fst (clean_chunks cs cl)).
Proof.
  induction 1 as [|chunk rest Hc Hr IH]; intros cl; simpl; [constructor|].
  rewrite !bind_run. simpl. apply Forall_app. split.
  - now apply clean_concepts_Forall.
  - apply IH.
Qed.

Lemma autofix_concept_prefLabels (cu uc : Dict.t str) (bm : Dict.t (list str))
    (c : Concept) (cl : Cleaner) :
  prefLabels (fst (fst (autofix_concept cu uc bm c cl))) = prefLabels c
  /\ altLabels (fst (fst (autofix_concept cu uc bm c cl))) = altLabels c
  /\ uri (fst (fst (autofix_concept cu uc bm c cl))) = uri c.
Proof.
  unfold autofix_concept.
  destruct (Dict.get (uri c) uc) as [code|]; [|now simpl].
  destruct (autofix_parent cu bm code) as [parent|]; [|now simpl].
  destruct (mem_str _ _); [now simpl|]. rewrite bind_run. now simpl.
Qed.

Lemma autofix_loop_Forall (P : Concept -> Prop) (cu uc : Dict.t str) (bm : Dict.t (list str)) :
  (forall c c', prefLabels c' = prefLabels c -> altLabels c' = altLabels c ->
                uri c' = uri c -> P c -> P c') ->
  forall concepts cl, Forall P concepts ->
    Forall P (fst (fst (autofix_loop cu uc bm concepts cl))).
Proof.
  intros HP concepts. induction concepts as [|c rest IH]; intros cl H; simpl; [constructor|].
  inversion H as [|? ? Hc Hrest]; subst. rewrite !bind_run. simpl. constructor.
  - destruct (autofix_concept_prefLabels cu uc bm c cl) as [E1 [E2 E3]].
    eapply HP; eauto.
  - now apply IH.
Qed.

Lemma autofix_Forall (P : Concept -> Prop) (concepts : list Concept) (cl : Cleaner) :
  (forall c c', prefLabels c' = prefLabels c -> altLabels c' = altLabels c ->
                uri c' = uri c -> P c -> P c') ->
  Forall P concepts -> Forall P (fst (fst (_apply_hierarchy_autofix concepts cl))).
Proof.
  intros HP H. unfold _apply_hierarchy_autofix.
  destruct (code_maps concepts ([], [])) as [[|x cu] uc]; [exact H|].
  now apply autofix_loop_Forall.
Qed.

Lemma parse_blocks_Forall (P : Concept -> Prop) :
  (forall block cl c, fst (_parse_concept_block block cl) = Some c -> P c) ->
  forall blocks cl, Forall P (fst (parse_blocks blocks cl)).
Proof.
  intros HP blocks. induction blocks as [|b rest IH]; intros cl; simpl; [constructor|].
  rewrite !bind_run. simpl.
  destruct (fst (_parse_concept_block b cl)) as [c|] eqn:E; [|apply IH].
  constructor; [eapply HP; eauto | apply IH].
Qed.

Lemma extract_concepts_Forall (P : Concept -> Prop) :
  (forall block cl c, fst (_parse_concept_block block cl) = Some c -> P c) ->
  forall content cl, Forall P (fst (_extract_concepts content cl)).
Proof.
  intros HP content cl. unfold _extract_concepts. rewrite !bind_run.
  now apply parse_blocks_Forall.
Qed.

(** A property of the labels and of the URI that holds for every parsed
    concept holds for every concept of the graph that [clean_ttl_file]
    validates and writes. *)
Lemma cleaned_graph_Forall (P : Concept -> Prop) :
  (forall block cl c, fst (_parse_concept_block block cl) = Some c -> P c) ->
  (forall c c', prefLabels c' = prefLabels c -> altLabels c' = altLabels c ->
                uri c' = uri c -> P c -> P c') ->
  forall content cl g, fst (cleaned_graph content cl) = Some g -> Forall P g.
Proof.
  intros HP Hinv content cl g. unfold cleaned_graph.
  rewrite bind_run.
  pose proof (@extract_concepts_Forall P HP content cl) as Hc.
  destruct (_extract_concepts content cl) as [concepts cl1]. simpl in *.
  rewrite bind_run. simpl.
  rewrite bind_run.
  assert (Hclean : forall cs,
            fst ((if memory_efficient cl1
                     && (chunk_size cl1 <? Z.of_nat (length concepts))%Z
                  then _clean_concepts_chunked concepts
                  else r <- _clean_concepts concepts;; ret (Some r)) cl1) = Some cs ->
            Forall P cs).
  { intros cs. destruct (memory_efficient cl1 && _).
    - unfold _clean_concepts_chunked. rewrite bind_run. simpl.
      destruct (chunk_size cl1) as [|n|n]; [discriminate| |].
      + cbn [chunks_of]. rewrite bind_run. simpl. intros H. inversion H; subst.
        apply clean_chunks_Forall. now apply chunks_Forall.
      + simpl. intros H. inversion H; subst. constructor.
    - rewrite bind_run. simpl. intros H. inversion H; subst.
      now apply clean_concepts_Forall. }
  set (stage := (if memory_efficient cl1
                    && (chunk_size cl1 <? Z.of_nat (length concepts))%Z
                 then _clean_concepts_chunked concepts
                 else r <- _clean_concepts concepts;; ret (Some r)) cl1) in *.
  destruct stage as [[cs|] cl2]; simpl in *; [|discriminate].
  specialize (Hclean cs eq_refl).
  destruct (autofix_broader cl1).
  - rewrite bind_run. simpl. intros H. inversion H; subst. now apply autofix_Forall.
  - simpl. intros H. inversion H; subst. exact Hclean.
Qed.

(* ================================================================== *)
(** ** C2 and C5: the two rejections of the parser *)
(* ================================================================== *)

Lemma parse_concept_block_prefLabels (block : str) (cl : Cleaner) (c : Concept) :
  fst (_parse_concept_block block cl) = Some c -> prefLabels c <> [].
Proof.
  unfold _parse_concept_block. destruct (find_subject block) as [g1|]; [|discriminate].
  rewrite bind_run.
  destruct (prefLabels (fst (parse_fields block g1 cl))) eqn:E; [discriminate|].
  simpl. intros H. inversion H; subst. rewrite E. discriminate.
Qed.

(** C2.  [_parse_concept_block] returns a record only with a non-empty
    preferred-label sequence.  For a block with a subject declaration whose
    parsed preferred-label sequence is empty it returns nothing and
    [concepts_without_preflabel] is one more than before the call; when the
    sequence is not empty the parsed record is returned and the counter is
    as before.  Every block that the segmenter produces has a subject
    declaration.  Every concept of the graph that the run validates and
    writes has a preferred label. *)
Theorem parser_rejects_without_prefLabel (block : str) (cl : Cleaner) :
  let r := _parse_concept_block block cl in
  (forall c, fst r = Some c -> prefLabels c <> [])
  /\ (forall g1, find_subject block = Some g1 ->
        let parsed := fst (parse_fields block g1 cl) in
        (prefLabels parsed = [] ->
           fst r = None
           /\ concepts_without_preflabel (stats (snd r))
              = S (concepts_without_preflabel (stats cl)))
        /\ (prefLabels parsed <> [] ->
           fst r = Some parsed
           /\ concepts_without_preflabel (stats (snd r))
              = concepts_without_preflabel (stats cl)))
  /\ (forall content b, In b (_split_into_concept_blocks content) ->
        exists g1, find_subject b = Some g1)
  /\ (forall content cl0 g,
        fst (cleaned_graph content cl0) = Some g ->
        Forall (fun c => prefLabels c <> []) g).
Proof.
  cbv zeta. split; [|split; [|split]].
  - intros c. apply parse_concept_block_prefLabels.
  - intros g1 Hs. unfold _parse_concept_block. rewrite Hs, bind_run.
    pose proof (keeps_parse_fields block g1 cl) as Hk.
    destruct (parse_fields block g1 cl) as [parsed cl1]. simpl in *.
    split; intros Hp.
    + rewrite Hp. rewrite bind_run. simpl. split; [reflexivity | now rewrite Hk].
    + destruct (prefLabels parsed); [contradiction|]. simpl. split; [reflexivity | exact Hk].
  - intros content b Hb.
    pose proof (segmenter_blocks_have_subject content) as Hall.
    rewrite Forall_forall in Hall. specialize (Hall b Hb).
    destruct (find_subject b) as [g1|]; [eauto | contradiction].
  - apply cleaned_graph_Forall.
    + apply parse_concept_block_prefLabels.
    + intros c c' H1 _ _. now rewrite H1.
Qed.

(** A block with a subject and no preferred label, and one with a label. *)
Lemma parser_rejects_without_prefLabel_witness :
  let b0 := L "<c1> a skos:Concept ; skos:altLabel " ++ [c_dq] ++ L "A" ++ [c_dq] ++ L "@en ." in
  let b1 := L "<c1> a skos:Concept ; skos:prefLabel " ++ [c_dq] ++ L "A" ++ [c_dq] ++ L "@en ." in
  (fst (_parse_concept_block b0 default_cleaner) = None
   /\ concepts_without_preflabel (stats (snd (_parse_concept_block b0 default_cleaner))) = 1)
  /\ (exists c, fst (_parse_concept_block b1 default_cleaner) = Some c
                /\ prefLabels c = [mkLabel (L "A") (L "en")]
                /\ concepts_without_preflabel
                     (stats (snd (_parse_concept_block b1 default_cleaner))) = 0).
Proof.
  cbv zeta. split.
  - apply (proj1 (proj2 (@parser_rejects_without_prefLabel
                           (L "<c1> a skos:Concept ; skos:altLabel " ++ [c_dq] ++ L "A"
                              ++ [c_dq] ++ L "@en .") default_cleaner)) (L "<c1>")).
    + vm_compute. reflexivity.
    + vm_compute. reflexivity.
  - eexists. split; [vm_compute; reflexivity|]. split; vm_compute; reflexivity.
Defined.

(** C5, as stated, fails: for a block without a subject declaration the
    parser returns nothing and no statistic changes. *)
Lemma block_without_subject_changes_no_statistic :
  let block := L "skos:prefLabel " ++ [c_dq] ++ L "Foo" ++ [c_dq] ++ L "@en ." in
  find_subject block = None
  /\ fst (_parse_concept_block block default_cleaner) = None
  /\ stats (snd (_parse_concept_block block default_cleaner)) = stats default_cleaner.
Proof. vm_compute. repeat split. Qed.

(** C5, amended.  For a block in which no subject declaration is found
    the parser returns nothing and leaves the cleaner, its statistics
    included, as it was; the run goes on with the blocks that follow.  Such
    a block is never one of the blocks that the segmenter hands to the
    parser. *)
Theorem block_without_subject_is_dropped (block : str) (cl : Cleaner) :
  find_subject block = None ->
  _parse_concept_block block cl = (None, cl)
  /\ (forall rest, parse_blocks (block :: rest) cl = parse_blocks rest cl)
  /\ (forall content, ~ In block (_split_into_concept_blocks content)).
Proof.
  intros H.
  assert (E : _parse_concept_block block cl = (None, cl)).
  { unfold _parse_concept_block. now rewrite H. }
  split; [exact E|]. split.
  - intros rest. simpl. unfold bind at 1. rewrite E.
    unfold bind. destruct (parse_blocks rest cl). reflexivity.
  - intros content Hin.
    pose proof (segmenter_blocks_have_subject content) as Hall.
    rewrite Forall_forall in Hall. now apply (Hall block Hin).
Qed.

Lemma block_without_subject_is_dropped_witness :
  find_subject (L "skos:note x") = None
  /\ _parse_concept_block (L "skos:note x") default_cleaner = (None, default_cleaner).
Proof.
  split; [reflexivity|].
  exact (proj1 (@block_without_subject_is_dropped (L "skos:note x") default_cleaner eq_refl)).
Defined.

(* ================================================================== *)
(** ** C10: language tags of parsed concepts *)
(* ================================================================== *)

Lemma two_lowercase_valid (lng : str) :
  two_lowercase lng = true -> _is_valid_language_tag lng = true.
Proof.
  destruct lng as [|x [|y [|z t]]]; simpl; try discriminate.
  intros H. apply andb_true_iff in H as [Hx Hy].
  unfold _is_valid_language_tag. simpl. now rewrite Hx, Hy.
Qed.

Lemma no_language_warning (urlparse : str -> option (str * str)) (concepts : list Concept) :
  Forall (fun c => Forall label_ok (prefLabels c ++ altLabels c)) concepts ->
  snd (_validate_datatypes_and_uris urlparse concepts) = [].
Proof.
  unfold _validate_datatypes_and_uris. simpl.
  induction 1 as [|c rest Hc Hrest IH]; simpl; auto.
  rewrite IH, app_nil_r.
  induction Hc as [|l ls Hl Hls IHl]; simpl; auto.
  rewrite IHl. unfold label_ok in Hl. rewrite (two_lowercase_valid _ Hl).
  now rewrite andb_false_r.
Qed.

Lemma parsed_labels_ok (block : str) (cl : Cleaner) (c : Concept) :
  fst (_parse_concept_block block cl) = Some c ->
  Forall label_ok (prefLabels c ++ altLabels c).
Proof.
  intros H. apply parse_concept_block_ok in H. unfold all_values in H.
  rewrite app_assoc in H. now apply Forall_app in H.
Qed.

(** C10.  Every text value that the parser stores in a label or note
    sequence has a language tag of exactly two lower-case ASCII letters;
    a missing tag is stored as [en], and of a longer tag only the first two
    letters are stored.  Hence the datatype validator emits no warning, so
    no language-tag warning, for the concepts of any list of blocks and for
    the graph that the run validates. *)
Theorem parser_language_tags (urlparse : str -> option (str * str)) :
  (forall block cl c,
     fst (_parse_concept_block block cl) = Some c ->
     Forall (fun l => two_lowercase (lang l) = true) (all_values c))
  /\ (forall blocks cl,
        snd (_validate_datatypes_and_uris urlparse (fst (parse_blocks blocks cl))) = [])
  /\ (forall content cl,
        match fst (cleaned_graph content cl) with
        | Some g => snd (_validate_datatypes_and_uris urlparse g) = []
        | None => True
        end)
  /\ option_map (fun c => map lang (all_values c))
       (fst (_parse_concept_block
               (L "<c1> a skos:Concept ; skos:prefLabel " ++ [c_dq] ++ L "A" ++ [c_dq]
                  ++ L "@en-US ; skos:altLabel " ++ [c_dq] ++ L "B" ++ [c_dq]
                  ++ L "@deu ; skos:definition " ++ [c_dq] ++ L "C" ++ [c_dq] ++ L " .")
               default_cleaner))
     = Some [L "en"; L "de"; L "en"].
Proof.
  split; [|split; [|split]].
  - intros block cl c. apply parse_concept_block_ok.
  - intros blocks cl. apply no_language_warning.
    apply parse_blocks_Forall. intros block cl0 c. apply parsed_labels_ok.
  - intros content cl. destruct (fst (cleaned_graph content cl)) as [g|] eqn:E; [|exact I].
    apply no_language_warning.
    apply (@cleaned_graph_Forall
             (fun c => Forall label_ok (prefLabels c ++ altLabels c))) with (3 := E).
    + intros block cl0 c. apply parsed_labels_ok.
    + intros c c' H1 H2 _. now rewrite H1, H2.
  - vm_compute. reflexivity.
Qed.

(* ================================================================== *)
(** ** C6: the summary by category *)
(* ================================================================== *)

Lemma categorised_nth (k : nat) (msg : str) :
  k < length categories ->
  snd (nth k categories ([], fun _ => false)) msg = true ->
  categorised msg = true.
Proof.
  intros Hk H. unfold categorised. apply existsb_exists.
  exists (nth k categories ([], fun _ => false)). split; auto. now apply nth_In.
Qed.

Ltac by_category k :=
  apply (@categorised_nth k); [simpl; lia | unfold categories; cbn [nth snd]; reflexivity].

Lemma Forall_flat_map_intro (A B : Type) (P : B -> Prop) (f : A -> list B) (l : list A) :
  (forall x, In x l -> Forall P (f x)) -> Forall P (flat_map f l).
Proof.
  induction l as [|x l IH]; intros H; simpl; [constructor|].
  apply Forall_app. split; [apply H; now left | apply IH; intros y Hy; apply H; now right].
Qed.

Lemma Forall_if_one (A : Type) (P : A -> Prop) (b : bool) (x : A) :
  P x -> Forall P (if b then [x] else []).
Proof. destruct b; constructor; auto. Qed.

Section SummaryFacts.

Variable urlparse : str -> option (str * str).
Variable set_iter : forall A : Type, list A -> list A.
Variable repr : str -> str.

Lemma skos_integrity_categorised (concepts : list Concept) :
  Forall is_categorised (fst (_validate_skos_integrity set_iter concepts))
  /\ Forall is_categorised (snd (_validate_skos_integrity set_iter concepts)).
Proof.
  unfold _validate_skos_integrity. simpl. split.
  - apply Forall_flat_map_intro. intros c _. apply Forall_app. split.
    + unfold s14_violations. destruct (lang_tables (prefLabels c)) as [lc ll].
      apply Forall_flat_map_intro. intros [lng n] _. apply Forall_if_one.
      unfold is_categorised. by_category 0.
    + unfold s13_violations. destruct (filter _ _); constructor; [|constructor].
      unfold is_categorised. by_category 1.
  - apply Forall_flat_map_intro. intros c _.
    apply Forall_flat_map_intro. intros l _. unfold label_warnings.
    repeat (apply Forall_app; split); apply Forall_if_one; unfold is_categorised.
    + by_category 12.
    + by_category 13.
    + by_category 14.
    + by_category 15.
Qed.

Lemma semantic_relations_categorised (concepts : list Concept) :
  Forall is_categorised (fst (_validate_semantic_relations set_iter concepts))
  /\ Forall is_categorised (snd (_validate_semantic_relations set_iter concepts)).
Proof.
  unfold _validate_semantic_relations. simpl. split.
  - apply Forall_map. apply Forall_forall. intros x _. unfold is_categorised. by_category 4.
  - apply Forall_flat_map_intro. intros x _. apply Forall_if_one. unfold is_categorised. by_category 5.
Qed.

Lemma datatypes_categorised (concepts : list Concept) :
  Forall is_categorised (fst (_validate_datatypes_and_uris urlparse concepts))
  /\ Forall is_categorised (snd (_validate_datatypes_and_uris urlparse concepts)).
Proof.
  unfold _validate_datatypes_and_uris. simpl. split.
  - apply Forall_flat_map_intro. intros c _. apply Forall_if_one. unfold is_categorised. by_category 2.
  - apply Forall_flat_map_intro. intros c _.
    apply Forall_flat_map_intro. intros l _. apply Forall_if_one. unfold is_categorised. by_category 3.
Qed.

Lemma hierarchy_check_categorised (cl : Cleaner) (cu : Dict.t str)
    (bm nm : Dict.t (list str)) (code u : str) :
  let r := hierarchy_check set_iter repr cl cu bm nm code u in
  Forall is_categorised (fst (fst r)) /\ Forall is_categorised (snd (fst r)) /\ Forall is_categorised (snd r).
Proof.
  unfold hierarchy_check. destruct (_code_prefixes code) as [|p ps]; simpl.
  - repeat split; constructor.
  - repeat split.
    + apply Forall_if_one. unfold is_categorised. by_category 7.
    + apply Forall_app. split; [apply Forall_if_one; unfold is_categorised; by_category 6|].
      apply Forall_flat_map_intro. intros x _.
      apply Forall_if_one. unfold is_categorised. by_category 6.
    + apply Forall_flat_map_intro. intros x _. apply Forall_if_one. unfold is_categorised. by_category 8.
Qed.

Lemma hierarchy_gaps_unfold (concepts : list Concept) (cl : Cleaner) :
  _validate_hierarchy_gaps set_iter repr concepts cl
  = let cu := fst (code_maps concepts ([], [])) in
    let uc := snd (code_maps concepts ([], [])) in
    match cu with
    | [] => (([], []), cl)
    | _ =>
        let maps := hierarchy_maps uc concepts ([], []) in
        let found :=
          map (fun c => hierarchy_check set_iter repr cl cu (fst maps) (snd maps) (fst c) (snd c))
              cu in
        let infos := flat_map (fun r => snd r) found in
        ((flat_map (fun r => fst (fst r)) found, flat_map (fun r => snd (fst r)) found),
         match infos with
         | [] => cl
         | _ => set_infos (validation_infos cl ++ infos) cl
         end)
    end.
Proof.
  unfold _validate_hierarchy_gaps.
  destruct (code_maps concepts ([], [])) as [cu uc]. cbv zeta. simpl fst. simpl snd.
  destruct cu as [|x cu]; [reflexivity|].
  unfold bind, get, ret.
  destruct (hierarchy_maps uc concepts ([], [])) as [bm nm]. reflexivity.
Qed.

Lemma hierarchy_gaps_categorised (concepts : list Concept) (cl : Cleaner) :
  let r := _validate_hierarchy_gaps set_iter repr concepts cl in
  Forall is_categorised (fst (fst r)) /\ Forall is_categorised (snd (fst r))
  /\ (exists infos, validation_infos (snd r) = validation_infos cl ++ infos
                    /\ Forall is_categorised infos)
  /\ concept_scheme (snd r) = concept_scheme cl
  /\ base_uri (snd r) = base_uri cl.
Proof.
  cbv zeta. rewrite hierarchy_gaps_unfold. cbv zeta.
  destruct (fst (code_maps concepts ([], []))) as [|x cu] eqn:Ecu.
  - simpl. repeat split; try constructor. exists []. split; [now rewrite app_nil_r|constructor].
  - remember (map _ (x :: cu)) as found eqn:Efound.
    assert (Hf : Forall (fun r => Forall is_categorised (fst (fst r)) /\ Forall is_categorised (snd (fst r))
                                  /\ Forall is_categorised (snd r)) found).
    { subst found. apply Forall_map. apply Forall_forall. intros y _.
      apply hierarchy_check_categorised. }
    rewrite Forall_forall in Hf.
    assert (Hi : Forall is_categorised (flat_map (fun r => snd r) found)).
    { apply Forall_flat_map_intro. intros y Hy. apply (Hf y Hy). }
    cbn [fst snd]. repeat split.
    + apply Forall_flat_map_intro. intros y Hy. apply (Hf y Hy).
    + apply Forall_flat_map_intro. intros y Hy. apply (Hf y Hy).
    + exists (flat_map (fun r => snd r) found). split; auto.
      destruct (flat_map (fun r => snd r) found); [now rewrite app_nil_r | reflexivity].
    + destruct (flat_map (fun r => snd r) found); reflexivity.
    + destruct (flat_map (fun r => snd r) found); reflexivity.
Qed.

Lemma scheme_consistency_categorised (cl : Cleaner) (concepts : list Concept) :
  Forall is_categorised (fst (_validate_scheme_consistency set_iter cl concepts))
  /\ snd (_validate_scheme_consistency set_iter cl concepts) = [].
Proof.
  unfold _validate_scheme_consistency.
  destruct (scheme_tables concepts) as [in_scheme top_of]. simpl. split; auto.
  apply Forall_app. split.
  - apply Forall_flat_map_intro. intros cs _.
    apply Forall_flat_map_intro. intros tok _. apply Forall_if_one. unfold is_categorised.
    apply (@categorised_nth 9); [simpl; lia|]. unfold categories; cbn [nth snd].
    unfold msg_top_without_in. apply andb_true_iff. split.
    + do 2 apply contains_app_r. reflexivity.
    + do 4 apply contains_app_r. reflexivity.
  - destruct (concept_scheme cl) as [scheme|]; [|constructor].
    destruct (nonempty scheme); [|constructor].
    unfold top_concept_violations. apply Forall_flat_map_intro. intros target _.
    destruct (negb (mem_str _ _)).
    + constructor; [|constructor]. unfold is_categorised. by_category 10.
    + destruct (match Re.subject _ _ with Some _ => _ | None => _ end) as [[[bare raw] norm]|];
        [|constructor].
      apply Forall_if_one. unfold is_categorised.
      apply (@categorised_nth 11); [simpl; lia|]. unfold categories; cbn [nth snd].
      unfold msg_top_target. apply andb_true_iff. split.
      * do 2 apply contains_app_r. reflexivity.
      * do 4 apply contains_app_r. reflexivity.
Qed.

Lemma validate_standard_categorised (concepts : list Concept) (cl : Cleaner) :
  enable_skos_xl cl = false ->
  let r := validate_standard urlparse set_iter repr concepts cl in
  Forall is_categorised (fst (fst r)) /\ Forall is_categorised (snd (fst r))
  /\ exists infos, validation_infos (snd r) = validation_infos cl ++ infos
                   /\ Forall is_categorised infos.
Proof.
  intros Hxl. unfold validate_standard. rewrite bind_run. simpl fst. simpl snd.
  rewrite Hxl. rewrite bind_run.
  destruct (hierarchy_gaps_categorised concepts cl) as [H1 [H2 [H3 _]]].
  destruct (_validate_hierarchy_gaps set_iter repr concepts cl) as [h cl1].
  rewrite bind_run. simpl in *.
  destruct (skos_integrity_categorised concepts) as [A1 A2].
  destruct (semantic_relations_categorised concepts) as [B1 B2].
  destruct (datatypes_categorised concepts) as [C1 C2].
  destruct (scheme_consistency_categorised cl1 concepts) as [D1 D2].
  repeat split.
  - repeat (apply Forall_app; split); auto.
  - rewrite D2. repeat (apply Forall_app; split); auto.
  - exact H3.
Qed.

End SummaryFacts.

(** C6, as stated, fails: with the SKOS-XL checks enabled, the concept
    [http://x/1] with the property [skosxl:literalForm Q a Q] gets the
    warning [Orphaned SKOS-XL label ...]; none of the sixteen predicates
    matches it and every count of the summary is zero. *)
Lemma xl_finding_in_no_category :
  let c := mkConcept (L "http://x/1") [mkLabel (L "a") (L "en")] [] [] [] [] [] [] [] []
             [L "skosxl:literalForm " ++ [c_dq] ++ L "a" ++ [c_dq]] [] [] in
  let cl := new_cleaner 1000 true false true false false in
  let r := validate_standard (fun _ => Some (L "http", L "x")) (fun _ l => l) (fun s => s)
             [c] cl in
  fst (fst r) = []
  /\ snd (fst r) = [msg_xl_orphan (L "http://x/1")]
  /\ validation_infos (snd r) = []
  /\ categorised (msg_xl_orphan (L "http://x/1")) = false
  /\ map snd (_summarize_validation_counts (fst (fst r)) (snd (fst r))
                (validation_infos (snd r)))
     = repeat 0 16.
Proof. vm_compute. repeat split. Qed.

(** *** The findings of the SKOS-XL family *)

Lemma xl_props_msgs (cu : list str) (u : str) (props : list str) :
  forall seen msg,
    In msg (snd (xl_props cu u props seen)) ->
    (exists x, msg = msg_xl_conflict x u) \/ msg = msg_xl_orphan u.
Proof.
  induction props as [|prop rest IH]; intros seen msg; [simpl; intros []|].
  cbn [xl_props].
  destruct (existsb (fun x => contains x prop) xl_predicates).
  - destruct (_extract_uri_from_property prop) as [x|]; [|apply IH].
    specialize (IH (Dict.add_str x seen) msg).
    destruct (xl_props cu u rest (Dict.add_str x seen)) as [s w]. simpl in *.
    intros H. apply in_app_or in H as [H|H]; [|now apply IH].
    destruct (mem_str x cu); [|destruct H].
    destruct H as [<-|[]]. left. now exists x.
  - destruct (contains (L "skosxl:literalForm") prop); [|apply IH].
    specialize (IH seen msg).
    destruct (xl_props cu u rest seen) as [s w]. simpl in *.
    intros H. apply in_app_or in H as [H|H]; [|now apply IH].
    destruct (negb (mem_str u seen)); [|destruct H].
    destruct H as [<-|[]]. now right.
Qed.

Lemma xl_concepts_msgs (cu : list str) (concepts : list Concept) :
  forall seen msg,
    In msg (xl_concepts cu concepts seen) ->
    exists x u, msg = msg_xl_conflict x u \/ msg = msg_xl_orphan u.
Proof.
  induction concepts as [|c rest IH]; intros seen msg; simpl; [intros []|].
  pose proof (@xl_props_msgs cu (uri c) (other_properties c) seen msg) as Hp.
  destruct (xl_props cu (uri c) (other_properties c) seen) as [s w]. simpl in Hp.
  intros H. apply in_app_or in H as [H|H]; [|now apply (IH s)].
  destruct (Hp H) as [[x ->]| ->].
  - exists x, (uri c). now left.
  - exists [], (uri c). now right.
Qed.

(** The family returns no violation, and each of its warnings is one of
    its two messages. *)
Lemma xl_findings_forms (cl : Cleaner) (concepts : list Concept) :
  fst (_validate_skos_xl_labels cl concepts) = []
  /\ forall msg, In msg (snd (_validate_skos_xl_labels cl concepts)) ->
                 exists x u, msg = msg_xl_conflict x u \/ msg = msg_xl_orphan u.
Proof.
  unfold _validate_skos_xl_labels. destruct (negb (enable_skos_xl cl)); simpl.
  - split; [reflexivity | intros msg []].
  - split; [reflexivity|]. intros msg. apply xl_concepts_msgs.
Qed.

(** Neither message begins as one of the twelve prefix categories asks. *)
Lemma xl_no_prefix_category (x u : str) (k : nat) :
  In k prefix_categories ->
  snd (nth k categories ([], fun _ => false)) (msg_xl_conflict x u) = false
  /\ snd (nth k categories ([], fun _ => false)) (msg_xl_orphan u) = false.
Proof.
  unfold prefix_categories. intros H.
  repeat (destruct H as [H|H]; [subst k; split; reflexivity|]). destruct H.
Qed.

Lemma contains_app_l (sub a b : str) : contains sub a = true -> contains sub (a ++ b) = true.
Proof.
  induction a as [|x a IH]; simpl.
  - rewrite orb_false_r. destruct sub; [destruct b; reflexivity|discriminate].
  - intros H. apply orb_true_iff in H as [H|H].
    + change (x :: a ++ b) with ((x :: a) ++ b). now rewrite startswith_app_l.
    + rewrite IH by exact H. apply orb_true_r.
Qed.

Section SummaryOfAllFamilies.

Variable urlparse : str -> option (str * str).
Variable set_iter : forall A : Type, list A -> list A.
Variable repr : str -> str.

(** With or without the SKOS-XL checks: every finding of a validation is
    matched by a category or is a warning of the SKOS-XL family. *)
Lemma validate_standard_findings (concepts : list Concept) (cl : Cleaner) :
  let r := validate_standard urlparse set_iter repr concepts cl in
  Forall is_categorised (fst (fst r))
  /\ Forall (fun msg => categorised msg = true
                        \/ In msg (snd (_validate_skos_xl_labels cl concepts)))
            (snd (fst r))
  /\ exists infos, validation_infos (snd r) = validation_infos cl ++ infos
                   /\ Forall is_categorised infos.
Proof.
  unfold validate_standard. rewrite bind_run. simpl fst. simpl snd.
  rewrite bind_run.
  destruct (@hierarchy_gaps_categorised set_iter repr concepts cl) as [H1 [H2 [H3 _]]].
  destruct (_validate_hierarchy_gaps set_iter repr concepts cl) as [h cl1].
  rewrite bind_run. simpl in *.
  destruct (@skos_integrity_categorised set_iter concepts) as [A1 A2].
  destruct (@semantic_relations_categorised set_iter concepts) as [B1 B2].
  destruct (@datatypes_categorised urlparse concepts) as [C1 C2].
  destruct (@scheme_consistency_categorised set_iter cl1 concepts) as [D1 D2].
  destruct (xl_findings_forms cl concepts) as [X1 _].
  assert (Hor : forall l, Forall is_categorised l ->
                  Forall (fun msg => categorised msg = true
                                     \/ In msg (snd (_validate_skos_xl_labels cl concepts)))
                         l).
  { intros l Hl. eapply Forall_impl; [|exact Hl]. intros m Hm. now left. }
  repeat split.
  - repeat (apply Forall_app; split); auto.
    destruct (enable_skos_xl cl); [rewrite X1|]; constructor.
  - rewrite D2. repeat (apply Forall_app; split); auto.
    destruct (enable_skos_xl cl); [|constructor].
    apply Forall_forall. intros m Hm. now right.
  - exact H3.
Qed.

End SummaryOfAllFamilies.

(** C6, amended.  The summary has the sixteen fixed categories, in their
    order, each with the number of findings that its predicate matches
    (zero included).  With the SKOS-XL checks disabled every violation,
    warning and info of a validation is matched by at least one of the
    sixteen predicates; with them enabled this holds of every finding but
    the warnings of the SKOS-XL family.  That family has no category: its
    findings are warnings of two forms, none of the twelve prefix
    categories matches them, and one of them is counted only when its text
    contains the phrase of one of the four substring categories, as it
    does when the URI it quotes contains [Potentially invalid language
    tag]. *)
Theorem summary_counts_by_category
    (urlparse : str -> option (str * str)) (set_iter : forall A : Type, list A -> list A)
    (repr : str -> str) :
  (forall v w i : list str,
     length (_summarize_validation_counts v w i) = 16
     /\ map fst (_summarize_validation_counts v w i) = map fst categories
     /\ NoDup (map fst categories)
     /\ forall k, k < 16 ->
          snd (nth k (_summarize_validation_counts v w i) ([], 0))
          = length (filter (snd (nth k categories ([], fun _ => false))) (v ++ w ++ i)))
  /\ (forall concepts cl,
        enable_skos_xl cl = false ->
        let r := validate_standard urlparse set_iter repr concepts cl in
        Forall (fun msg => categorised msg = true) (fst (fst r))
        /\ Forall (fun msg => categorised msg = true) (snd (fst r))
        /\ exists infos, validation_infos (snd r) = validation_infos cl ++ infos
                         /\ Forall (fun msg => categorised msg = true) infos)
  /\ (forall concepts cl,
        let r := validate_standard urlparse set_iter repr concepts cl in
        Forall (fun msg => categorised msg = true) (fst (fst r))
        /\ Forall (fun msg => categorised msg = true
                              \/ In msg (snd (_validate_skos_xl_labels cl concepts)))
                  (snd (fst r))
        /\ exists infos, validation_infos (snd r) = validation_infos cl ++ infos
                         /\ Forall (fun msg => categorised msg = true) infos)
  /\ (forall concepts cl,
        fst (_validate_skos_xl_labels cl concepts) = []
        /\ forall msg,
             In msg (snd (_validate_skos_xl_labels cl concepts)) ->
             (exists x u, msg = msg_xl_conflict x u \/ msg = msg_xl_orphan u)
             /\ (forall k, In k prefix_categories ->
                           snd (nth k categories ([], fun _ => false)) msg = false)
             /\ (categorised msg = true ->
                 exists k, In k substring_categories
                           /\ snd (nth k categories ([], fun _ => false)) msg = true))
  /\ (forall u,
        contains (L "Potentially invalid language tag") u = true ->
        snd (nth 3 categories ([], fun _ => false)) (msg_xl_orphan u) = true
        /\ categorised (msg_xl_orphan u) = true).
Proof.
  split; [|split; [|split; [|split]]].
  - intros v w i. unfold _summarize_validation_counts. cbv zeta.
    split; [now rewrite length_map|]. split; [now rewrite map_map|]. split.
    + apply (NoDup_count_occ' str_eq_dec). intros x Hx.
      repeat (destruct Hx as [Hx|Hx]; [subst x; vm_compute; reflexivity|]). destruct Hx.
    + intros k Hk.
      set (F := fun np : str * (str -> bool) =>
                  (fst np, length (filter (snd np) (v ++ w ++ i)))).
      rewrite (nth_indep (map F categories) ([], 0) (F ([], fun _ => false)))
        by (rewrite length_map; exact Hk).
      rewrite (map_nth F). reflexivity.
  - intros concepts cl Hxl. now apply validate_standard_categorised.
  - intros concepts cl. apply validate_standard_findings.
  - intros concepts cl. destruct (xl_findings_forms cl concepts) as [H1 H2].
    split; [exact H1|]. intros msg Hm. split; [now apply H2|].
    assert (Hno : forall k, In k prefix_categories ->
                    snd (nth k categories ([], fun _ => false)) msg = false).
    { intros k Hk. destruct (H2 msg Hm) as (x & u & [-> | ->]);
        now apply xl_no_prefix_category. }
    split; [exact Hno|]. intros Hc. unfold categorised in Hc.
    apply existsb_exists in Hc as [np [Hin Hp]].
    apply (In_nth _ _ ([], fun _ => false)) in Hin as [k [Hk Hnth]].
    assert (Hcase : In k prefix_categories \/ In k substring_categories).
    { unfold prefix_categories, substring_categories.
      do 16 (destruct k as [|k]; [simpl; tauto|]). simpl in Hk. lia. }
    destruct Hcase as [Hpre|Hsub].
    + subst np. exfalso. exact (eq_true_false_abs _ Hp (Hno k Hpre)).
    + subst np. exists k. split; [exact Hsub | exact Hp].
  - intros u Hu.
    assert (H3 : snd (nth 3 categories ([], fun _ => false)) (msg_xl_orphan u) = true).
    { unfold categories. cbn [nth snd]. unfold msg_xl_orphan.
      apply contains_app_r. now apply contains_app_l. }
    split; [exact H3|]. apply (@categorised_nth 3); [simpl; lia | exact H3].
Qed.

Lemma summary_counts_by_category_witness :
  let cl := new_cleaner 1000 true false false false false in
  let cs := [ mkConcept (L "http://x/311") [mkLabel (L "a") (L "en"); mkLabel (L "b") (L "en")]
                [] [] [] [] [] [] [] [] [] [] [];
              mkConcept (L "http://x/31") [mkLabel (L "c") (L "en")]
                [] [] [] [] [] [] [] [] [] [] [] ] in
  let r := validate_standard (fun _ => Some (L "http", L "x")) (fun _ l => l) (fun s => s)
             cs cl in
  enable_skos_xl cl = false
  /\ length (fst (fst r)) = 2
  /\ Forall (fun msg => categorised msg = true) (fst (fst r)).
Proof.
  cbv zeta. split; [reflexivity|]. split; [vm_compute; reflexivity|].
  apply (proj1 (proj2 (@summary_counts_by_category
                         (fun _ => Some (L "http", L "x")) (fun _ l => l) (fun s => s)))
               _ (new_cleaner 1000 true false false false false) eq_refl).
Defined.

(* ================================================================== *)
(** ** C8: chunked validation *)
(* ================================================================== *)

(** The chunks are contiguous, in order, and cover the list. *)
Lemma chunks_concat (A : Type) (n : nat) :
  forall fuel (l : list A), length l <= fuel -> concat (chunks fuel (S n) l) = l.
Proof.
  induction fuel as [|f IH]; intros l Hl; simpl.
  - destruct l; [reflexivity | simpl in Hl; lia].
  - destruct l as [|x l]; [reflexivity|].
    cbn [concat]. rewrite IH.
    + apply (firstn_skipn (S n) (x :: l)).
    + rewrite length_skipn. simpl in *. lia.
Qed.

(** Every chunk has at most the chunk size and is not empty. *)
Lemma chunks_size (A : Type) (n : nat) :
  forall fuel (l : list A),
    Forall (fun ch => ch <> [] /\ length ch <= S n) (chunks fuel (S n) l).
Proof.
  induction fuel as [|f IH]; intros l; simpl; [constructor|].
  destruct l as [|x l]; [constructor|]. constructor; [|apply IH].
  split; [simpl; discriminate|].
  simpl. pose proof (length_firstn n l) as E. lia.
Qed.

Section ChunkedFacts.

Variable urlparse : str -> option (str * str).
Variable set_iter : forall A : Type, list A -> list A.
Variable repr : str -> str.

Lemma chunks_of_succ (A : Type) (n : nat) (l : list A) :
  chunks_of (Z.of_nat (S n)) l = Some (chunks (length l) (S n) l).
Proof. unfold chunks_of. cbn [Z.of_nat]. now rewrite SuccNat2Pos.id_succ. Qed.

(** What [_validate_concepts_chunked] returns: the findings of the three
    per-chunk families chunk after chunk, then those of one call of the
    hierarchy family and one call of the scheme family on the whole list. *)
Lemma validate_concepts_chunked_unfold (concepts : list Concept) (cl : Cleaner) (n : nat) :
  chunk_size cl = Z.of_nat (S n) ->
  let per_chunk := map (validate_chunk urlparse set_iter)
                       (chunks (length concepts) (S n) concepts) in
  let h := _validate_hierarchy_gaps set_iter repr concepts cl in
  let s := _validate_scheme_consistency set_iter (snd h) concepts in
  _validate_concepts_chunked urlparse set_iter repr concepts cl
  = (Some (flat_map fst per_chunk ++ fst (fst h) ++ fst s,
           flat_map snd per_chunk ++ snd (fst h) ++ snd s),
     snd h).
Proof.
  intros Hn. unfold _validate_concepts_chunked, bind, get, ret.
  rewrite Hn, chunks_of_succ. cbv zeta.
  destruct (_validate_hierarchy_gaps set_iter repr concepts cl) as [h cl1]. reflexivity.
Qed.

(** What the standard path returns: the same two calls on the whole list
    close it. *)
Lemma validate_standard_unfold (concepts : list Concept) (cl : Cleaner) :
  let r1 := _validate_skos_integrity set_iter concepts in
  let r2 := _validate_semantic_relations set_iter concepts in
  let r3 := _validate_datatypes_and_uris urlparse concepts in
  let r4 := if enable_skos_xl cl then _validate_skos_xl_labels cl concepts else ([], []) in
  let h := _validate_hierarchy_gaps set_iter repr concepts cl in
  let s := _validate_scheme_consistency set_iter (snd h) concepts in
  validate_standard urlparse set_iter repr concepts cl
  = ((fst r1 ++ fst r2 ++ fst r3 ++ fst r4 ++ fst (fst h) ++ fst s,
      snd r1 ++ snd r2 ++ snd r3 ++ snd r4 ++ snd (fst h) ++ snd s),
     snd h).
Proof.
  unfold validate_standard. unfold bind, get, ret. cbv zeta.
  destruct (_validate_hierarchy_gaps set_iter repr concepts cl) as [h cl1]. reflexivity.
Qed.

(** The validator level of C8: both paths end with the findings of the
    same call of the hierarchy family and of the same call of the scheme
    family on the whole list, and leave the same infos. *)
Lemma chunked_and_standard_share_global_findings
    (concepts : list Concept) (cl : Cleaner) (n : nat) :
  chunk_size cl = Z.of_nat (S n) ->
  let h := _validate_hierarchy_gaps set_iter repr concepts cl in
  let s := _validate_scheme_consistency set_iter (snd h) concepts in
  let chunked := _validate_concepts_chunked urlparse set_iter repr concepts cl in
  let standard := validate_standard urlparse set_iter repr concepts cl in
  (exists pv pw, fst chunked = Some (pv ++ fst (fst h) ++ fst s, pw ++ snd (fst h) ++ snd s))
  /\ (exists pv pw, fst standard = (pv ++ fst (fst h) ++ fst s, pw ++ snd (fst h) ++ snd s))
  /\ snd chunked = snd standard.
Proof.
  intros Hn. cbv zeta.
  rewrite (@validate_concepts_chunked_unfold concepts cl n Hn), validate_standard_unfold.
  cbv zeta. cbn [fst snd]. split; [|split].
  - eauto.
  - exists (fst (_validate_skos_integrity set_iter concepts)
            ++ fst (_validate_semantic_relations set_iter concepts)
            ++ fst (_validate_datatypes_and_uris urlparse concepts)
            ++ fst (if enable_skos_xl cl then _validate_skos_xl_labels cl concepts
                    else ([], []))).
    exists (snd (_validate_skos_integrity set_iter concepts)
            ++ snd (_validate_semantic_relations set_iter concepts)
            ++ snd (_validate_datatypes_and_uris urlparse concepts)
            ++ snd (if enable_skos_xl cl then _validate_skos_xl_labels cl concepts
                    else ([], []))).
    now rewrite <- !app_assoc.
  - reflexivity.
Qed.

(** In the chunked branch of [clean_ttl_file] nothing of what
    [_validate_concepts_chunked] returns reaches the accumulators: the run
    reports and stores no violation and no warning. *)
Lemma run_validation_chunked_is_empty (concepts : list Concept) (cl : Cleaner) (n : nat) :
  enable_validation cl = true -> memory_efficient cl = true ->
  chunk_size cl = Z.of_nat (S n) -> S n < length concepts ->
  let r := run_validation urlparse set_iter repr concepts cl in
  fst r = Some ([], [])
  /\ validation_violations (snd r) = []
  /\ validation_warnings (snd r) = [].
Proof.
  intros Hv Hm Hn Hlen.
  assert (E : (Z.of_nat (S n) <? Z.of_nat (length concepts))%Z = true)
    by (apply Z.ltb_lt; lia).
  unfold run_validation, bind, get, ret.
  change (enable_validation (set_infos [] cl)) with (enable_validation cl).
  change (memory_efficient (set_infos [] cl)) with (memory_efficient cl).
  change (chunk_size (set_infos [] cl)) with (chunk_size cl).
  rewrite Hv, Hm, Hn, E. cbn [andb].
  rewrite (@validate_concepts_chunked_unfold concepts (set_infos [] cl) n Hn).
  cbv zeta. repeat split.
Qed.

Lemma run_validation_standard (concepts : list Concept) (cl : Cleaner) :
  enable_validation cl = true -> memory_efficient cl = false ->
  let r := run_validation urlparse set_iter repr concepts cl in
  let s := validate_standard urlparse set_iter repr concepts (set_infos [] cl) in
  fst r = Some (fst s)
  /\ validation_violations (snd r) = fst (fst s)
  /\ validation_warnings (snd r) = snd (fst s).
Proof.
  intros Hv Hm. unfold run_validation, bind, get, ret.
  change (enable_validation (set_infos [] cl)) with (enable_validation cl).
  change (memory_efficient (set_infos [] cl)) with (memory_efficient cl).
  rewrite Hv, Hm. cbn [andb].
  destruct (validate_standard urlparse set_iter repr concepts (set_infos [] cl)) as [s cl1].
  repeat split.
Qed.

End ChunkedFacts.

(** C8 at a failing input.  The list has the concepts [http://x/31] and
    [http://x/311], neither with a parent relation; the chunk size is 1.
    The standard run reports the violation [Inconsistent hierarchy] for
    [311], and in the chunked run [_validate_concepts_chunked] returns the
    same violation; but the chunked run of [clean_ttl_file] reports and
    stores no violation at all. *)
Theorem chunked_run_reports_no_finding
    (urlparse : str -> option (str * str)) (set_iter : forall A : Type, list A -> list A)
    (repr : str -> str) :
  let cs := [ mkConcept (L "http://x/31") [mkLabel (L "a") (L "en")]
                [] [] [] [] [] [] [] [] [] [] [];
              mkConcept (L "http://x/311") [mkLabel (L "b") (L "en")]
                [] [] [] [] [] [] [] [] [] [] [] ] in
  let chunked := new_cleaner 1 true true false false false in
  let standard := new_cleaner 1 true false false false false in
  let finding := msg_inconsistent repr (L "http://x/311") (L "311")
                   [L "http://x/31"] [[8212%N]] in
  (exists r, fst (run_validation urlparse set_iter repr cs standard) = Some r
             /\ In finding (fst r))
  /\ (exists r, fst (_validate_concepts_chunked urlparse set_iter repr cs chunked) = Some r
                /\ In finding (fst r))
  /\ fst (run_validation urlparse set_iter repr cs chunked) = Some ([], [])
  /\ validation_violations (snd (run_validation urlparse set_iter repr cs chunked)) = [].
Proof.
  cbv zeta. split; [|split; [|split]].
  - eexists. split.
    + apply run_validation_standard; reflexivity.
    + rewrite validate_standard_unfold. cbv zeta. cbn [fst].
      do 4 (apply in_or_app; right). apply in_or_app. left.
      vm_compute. left. reflexivity.
  - eexists. split.
    + rewrite (@validate_concepts_chunked_unfold urlparse set_iter repr _
                 (new_cleaner 1 true true false false false) 0 eq_refl).
      reflexivity.
    + cbn [fst]. apply in_or_app. right. apply in_or_app. left.
      vm_compute. left. reflexivity.
  - apply (@run_validation_chunked_is_empty urlparse set_iter repr _ _ 0);
      try reflexivity. simpl. lia.
  - apply (@run_validation_chunked_is_empty urlparse set_iter repr _ _ 0);
      try reflexivity. simpl. lia.
Qed.

(* ================================================================== *)
(** ** C7: the hierarchy autofixer *)
(* ================================================================== *)

(** *** Dictionaries *)

Lemma dict_get_set (V : Type) (k k' : str) (v : V) (d : Dict.t V) :
  Dict.get k' (Dict.set k v d) = if str_eqb k' k then Some v else Dict.get k' d.
Proof.
  induction d as [|[k0 v0] d IH]; simpl.
  - reflexivity.
  - destruct (str_eqb k k0) eqn:E; simpl.
    + apply str_eqb_eq in E. subst k0. destruct (str_eqb k' k); reflexivity.
    + destruct (str_eqb k' k0) eqn:E0.
      * apply str_eqb_eq in E0. subst k0.
        destruct (str_eqb k' k) eqn:E1; [|reflexivity].
        apply str_eqb_eq in E1. subst k'. rewrite str_eqb_refl in E. discriminate.
      * exact IH.
Qed.

Lemma dict_keys_set (V : Type) (k k' : str) (v : V) (d : Dict.t V) :
  mem_str k' (Dict.keys (Dict.set k v d)) = str_eqb k' k || mem_str k' (Dict.keys d).
Proof.
  induction d as [|[k0 v0] d IH]; simpl.
  - now rewrite orb_false_r.
  - destruct (str_eqb k k0) eqn:E; simpl.
    + apply str_eqb_eq in E. subst k0. now destruct (str_eqb k' k).
    + rewrite IH. destruct (str_eqb k' k), (str_eqb k' k0); reflexivity.
Qed.

Lemma get_set_add_to (k k' x t : str) (d : Dict.t (list str)) :
  mem_str t (Dict.get_set k' (Dict.add_to k x d))
  = (str_eqb k' k && str_eqb t x) || mem_str t (Dict.get_set k' d).
Proof.
  unfold Dict.add_to, Dict.get_set. rewrite dict_get_set.
  destruct (str_eqb k' k) eqn:E; simpl; [|reflexivity].
  apply str_eqb_eq in E. subst k'.
  unfold Dict.add_str. destruct (Dict.get k d) as [s|]; simpl.
  - destruct (mem_str x s) eqn:Ex.
    + destruct (str_eqb t x) eqn:Et; [|reflexivity].
      apply str_eqb_eq in Et. subst t. now rewrite Ex.
    + unfold mem_str. rewrite existsb_app. simpl. rewrite orb_false_r. apply orb_comm.
  - now rewrite orb_false_r.
Qed.

Lemma get_set_add_targets (k k' t : str) (codes : list str) :
  forall d, mem_str t (Dict.get_set k' (add_targets k codes d))
            = (str_eqb k' k && mem_str t codes) || mem_str t (Dict.get_set k' d).
Proof.
  unfold add_targets. induction codes as [|x codes IH]; intros d; simpl.
  - now rewrite andb_false_r.
  - rewrite IH, get_set_add_to.
    destruct (str_eqb k' k), (str_eqb t x), (mem_str t codes); reflexivity.
Qed.

(** *** The maps of the autofixer, in terms of the graph *)

Lemma code_maps_keys (concepts : list Concept) :
  forall m p,
    mem_str p (Dict.keys (fst (code_maps concepts m)))
    = mem_str p (Dict.keys (fst m)) || mem_str p (graph_codes concepts).
Proof.
  induction concepts as [|c rest IH]; intros m p; simpl.
  - now rewrite orb_false_r.
  - unfold code_of. destruct (_extract_numeric_code (uri c)) as [k|]; simpl.
    + rewrite IH. simpl. rewrite dict_keys_set.
      destruct (str_eqb p k), (mem_str p (Dict.keys (fst m))); reflexivity.
    + apply IH.
Qed.

Lemma find_app_or (A : Type) (f : A -> bool) (a b : list A) :
  find f (a ++ b) = match find f a with Some x => Some x | None => find f b end.
Proof.
  induction a as [|x a IH]; simpl; auto. destruct (f x); auto.
Qed.

Lemma code_maps_get (concepts : list Concept) :
  forall m p,
    Dict.get p (fst (code_maps concepts m))
    = match find (has_code p) (rev concepts) with
      | Some c => Some (uri c)
      | None => Dict.get p (fst m)
      end.
Proof.
  induction concepts as [|c rest IH]; intros m p; simpl; auto.
  rewrite find_app_or. simpl. unfold has_code at 2, code_of.
  destruct (_extract_numeric_code (uri c)) as [k|]; rewrite IH;
    destruct (find (has_code p) (rev rest)); auto.
  simpl. rewrite dict_get_set. now destruct (str_eqb p k).
Qed.

Lemma code_maps_uri (concepts : list Concept) :
  forall m u,
    Dict.get u (snd (code_maps concepts m))
    = if existsb (fun c => str_eqb u (uri c) && match code_of c with
                                                | Some _ => true
                                                | None => false
                                                end) concepts
      then _extract_numeric_code u
      else Dict.get u (snd m).
Proof.
  induction concepts as [|c rest IH]; intros m u; simpl; auto.
  unfold code_of at 1. destruct (_extract_numeric_code (uri c)) as [k|] eqn:Ek.
  - rewrite IH. simpl. rewrite dict_get_set, andb_true_r.
    destruct (existsb _ rest); [now rewrite orb_true_r|]. rewrite orb_false_r.
    destruct (str_eqb u (uri c)) eqn:E; auto.
    apply str_eqb_eq in E. subst u. now rewrite Ek.
  - rewrite IH. now rewrite andb_false_r.
Qed.

Lemma code_maps_uri_of_member (concepts : list Concept) (c : Concept) :
  In c concepts -> Dict.get (uri c) (snd (code_maps concepts ([], []))) = code_of c.
Proof.
  intros Hin. rewrite code_maps_uri. simpl.
  destruct (existsb _ concepts) eqn:E; [reflexivity|].
  unfold code_of. destruct (_extract_numeric_code (uri c)) as [k|] eqn:Ek; [|reflexivity].
  exfalso. assert (Ht : existsb (fun c0 => str_eqb (uri c) (uri c0)
                                   && match code_of c0 with Some _ => true | None => false end)
                          concepts = true).
  { apply existsb_exists. exists c. split; auto.
    rewrite str_eqb_refl. unfold code_of. now rewrite Ek. }
  congruence.
Qed.

Lemma mem_str_app (t : str) (a b : list str) :
  mem_str t (a ++ b) = mem_str t a || mem_str t b.
Proof. unfold mem_str. apply existsb_app. Qed.

Lemma broader_fold_members (src k t : str) (props : list str) :
  forall m,
    mem_str t (Dict.get_set k
                 (fold_left (fun acc prop =>
                               if contains (L "skos:broader ") prop
                               then add_targets src (target_codes prop) acc
                               else acc) props m))
    = mem_str t (Dict.get_set k m)
      || (str_eqb k src
          && mem_str t (flat_map target_codes
                          (filter (contains (L "skos:broader ")) props))).
Proof.
  induction props as [|prop props IH]; intros m; simpl.
  - now rewrite andb_false_r, orb_false_r.
  - rewrite IH. destruct (contains (L "skos:broader ") prop); [|reflexivity].
    rewrite get_set_add_targets. cbn [flat_map]. rewrite mem_str_app.
    destruct (str_eqb k src), (mem_str t (target_codes prop)),
      (mem_str t (Dict.get_set k m)); reflexivity.
Qed.

Lemma broader_map_members (uc : Dict.t str) (concepts : list Concept) (k t : str) :
  (forall c, In c concepts -> Dict.get (uri c) uc = code_of c) ->
  forall m,
    mem_str t (Dict.get_set k (autofix_broader_map uc concepts m))
    = mem_str t (Dict.get_set k m) || mem_str t (declared_broader concepts k).
Proof.
  induction concepts as [|c rest IH]; intros Huc m; simpl.
  - now rewrite orb_false_r.
  - rewrite (Huc c (or_introl eq_refl)).
    assert (Hrest : forall c0, In c0 rest -> Dict.get (uri c0) uc = code_of c0)
      by (intros c0 H0; apply Huc; now right).
    unfold declared_broader. cbn [flat_map]. rewrite mem_str_app.
    fold (declared_broader rest k).
    unfold has_code. destruct (code_of c) as [src|].
    + rewrite (IH Hrest). rewrite broader_fold_members.
      destruct (str_eqb k src); simpl.
      * now rewrite orb_assoc.
      * now rewrite orb_false_r.
    + rewrite (IH Hrest). reflexivity.
Qed.

Lemma inter_nonempty (a b : list str) :
  nonempty_list (inter a b) = existsb (fun t => mem_str t b) a.
Proof.
  unfold inter. induction a as [|x a IH]; simpl; auto.
  destruct (mem_str x b); simpl; auto.
Qed.

Lemma existsb_same_members (f : str -> bool) (a b : list str) :
  (forall t, mem_str t a = mem_str t b) -> existsb f a = existsb f b.
Proof.
  intros H.
  assert (Hin : forall t, In t a <-> In t b).
  { intros t. rewrite <- !mem_str_In. now rewrite H. }
  destruct (existsb f a) eqn:Ea, (existsb f b) eqn:Eb; auto.
  - apply existsb_exists in Ea as [t [Ht Hf]]. apply Hin in Ht.
    assert (existsb f b = true) by (apply existsb_exists; eauto). congruence.
  - apply existsb_exists in Eb as [t [Ht Hf]]. apply Hin in Ht.
    assert (existsb f a = true) by (apply existsb_exists; eauto). congruence.
Qed.

Lemma max_by_len_longest (l : list str) :
  forall best,
    In (max_by_len best l) (best :: l)
    /\ forall q, In q (best :: l) -> length q <= length (max_by_len best l).
Proof.
  induction l as [|x l IH]; intros best; simpl.
  - split; [now left|]. intros q [H|[]]. subst. lia.
  - destruct (length best <? length x) eqn:E.
    + destruct (IH x) as [H1 H2]. split.
      * destruct H1 as [H1|H1]; auto.
      * intros q [Hq|[Hq|Hq]].
        -- subst. apply Nat.ltb_lt in E. specialize (H2 x (or_introl eq_refl)). lia.
        -- subst. apply H2. now left.
        -- apply H2. now right.
    + destruct (IH best) as [H1 H2]. split.
      * destruct H1 as [H1|H1]; auto.
      * intros q [Hq|[Hq|Hq]].
        -- subst. apply H2. now left.
        -- subst. apply Nat.ltb_ge in E. specialize (H2 best (or_introl eq_refl)). lia.
        -- apply H2. now right.
Qed.

(** *** The loop of the autofixer *)

Lemma autofix_concept_eq (cu uc : Dict.t str) (bm : Dict.t (list str))
    (c : Concept) (cl : Cleaner) :
  let d := autofix_decision cu uc bm c in
  autofix_concept cu uc bm c cl
  = ((apply_decision d c, is_some d),
     match d with
     | Some _ => set_change_log (change_log cl ++ decision_log d c) cl
     | None => cl
     end).
Proof.
  unfold autofix_concept, autofix_decision. cbv zeta.
  destruct (Dict.get (uri c) uc) as [code|]; [|reflexivity].
  destruct (autofix_parent cu bm code) as [parent|]; [|reflexivity].
  destruct (mem_str _ _); reflexivity.
Qed.

Lemma autofix_loop_eq (cu uc : Dict.t str) (bm : Dict.t (list str)) (concepts : list Concept) :
  forall cl,
    let d := autofix_decision cu uc bm in
    let r := autofix_loop cu uc bm concepts cl in
    fst (fst r) = map (fun c => apply_decision (d c) c) concepts
    /\ snd (fst r) = length (filter (fun c => is_some (d c)) concepts)
    /\ change_log (snd r) = change_log cl ++ flat_map (fun c => decision_log (d c) c) concepts
    /\ stats (snd r) = stats cl.
Proof.
  induction concepts as [|c rest IH]; intros cl; cbv zeta; simpl.
  - repeat split. now rewrite app_nil_r.
  - rewrite !bind_run. rewrite autofix_concept_eq. cbv zeta. cbn [fst snd].
    set (cl1 := match autofix_decision cu uc bm c with
                | Some _ => set_change_log
                              (change_log cl ++ decision_log (autofix_decision cu uc bm c) c) cl
                | None => cl
                end).
    destruct (IH cl1) as [H1 [H2 [H3 H4]]]. cbv zeta in *.
    unfold ret. cbn [fst snd]. rewrite H1, H2, H3, H4. unfold cl1.
    destruct (autofix_decision cu uc bm c) as [[parent k]|]; simpl; repeat split.
    now rewrite <- app_assoc.
Qed.

Lemma filter_none (A : Type) (f : A -> bool) (l : list A) :
  (forall x, In x l -> f x = false) -> filter f l = [].
Proof.
  induction l as [|x l IH]; intros H; simpl; auto.
  rewrite (H x (or_introl eq_refl)). apply IH. intros y Hy. apply H. now right.
Qed.

Lemma flat_map_none (A B : Type) (f : A -> list B) (l : list A) :
  (forall x, In x l -> f x = []) -> flat_map f l = [].
Proof.
  induction l as [|x l IH]; intros H; simpl; auto.
  rewrite (H x (or_introl eq_refl)). apply IH. intros y Hy. apply H. now right.
Qed.

Lemma flat_map_ext_members (A B : Type) (f g : A -> list B) (l : list A) :
  (forall x, In x l -> f x = g x) -> flat_map f l = flat_map g l.
Proof.
  induction l as [|x l IH]; intros H; simpl; auto.
  rewrite (H x (or_introl eq_refl)). f_equal. apply IH. intros y Hy. apply H. now right.
Qed.

Lemma candidates_of_maps (concepts : list Concept) (k : str) :
  filter (fun p => mem_str p (Dict.keys (fst (code_maps concepts ([], [])))))
         (_code_prefixes k)
  = existing_candidates concepts k.
Proof.
  unfold existing_candidates. apply filter_ext. intros p. now rewrite code_maps_keys.
Qed.

Lemma autofix_decision_spec (concepts : list Concept) (c : Concept) :
  In c concepts ->
  autofix_decision (fst (code_maps concepts ([], []))) (snd (code_maps concepts ([], [])))
    (autofix_broader_map (snd (code_maps concepts ([], []))) concepts []) c
  = autofix_target concepts c.
Proof.
  intros Hin. unfold autofix_decision, autofix_target.
  rewrite (code_maps_uri_of_member _ _ Hin).
  destruct (code_of c) as [k|]; [|reflexivity].
  unfold autofix_parent. rewrite candidates_of_maps.
  destruct (existing_candidates concepts k) as [|c0 cr]; [reflexivity|].
  rewrite inter_nonempty.
  rewrite (@existsb_same_members (fun t => mem_str t (c0 :: cr))
             (Dict.get_set k (autofix_broader_map (snd (code_maps concepts ([], [])))
                                concepts []))
             (declared_broader concepts k)).
  - destruct (existsb _ (declared_broader concepts k)); [reflexivity|].
    rewrite code_maps_get. unfold concept_of_code. cbv zeta.
    destruct (find (has_code (max_by_len c0 cr)) (rev concepts)); reflexivity.
  - intros t. rewrite broader_map_members; [reflexivity|].
    intros c1 H1. now apply code_maps_uri_of_member.
Qed.

(** What [_apply_hierarchy_autofix] does, concept by concept *)
Lemma autofix_by_concept (concepts : list Concept) (cl : Cleaner) :
  let r := _apply_hierarchy_autofix concepts cl in
  fst (fst r) = map (autofix_spec concepts) concepts
  /\ snd (fst r) = length (filter (fun c => is_some (autofix_target concepts c)) concepts)
  /\ change_log (snd r) = change_log cl ++ flat_map (autofix_log concepts) concepts
  /\ stats (snd r) = stats cl.
Proof.
  cbv zeta. unfold _apply_hierarchy_autofix.
  destruct (code_maps concepts ([], [])) as [cu uc] eqn:Em.
  assert (Hd : forall c, In c concepts ->
                 autofix_decision cu uc (autofix_broader_map uc concepts []) c
                 = autofix_target concepts c).
  { intros c Hc. pose proof (autofix_decision_spec concepts c Hc) as H.
    now rewrite Em in H. }
  destruct cu as [|x cu].
  - assert (Hnone : forall c, In c concepts -> autofix_target concepts c = None).
    { intros c Hc. unfold autofix_target. destruct (code_of c) as [k|]; [|reflexivity].
      rewrite <- candidates_of_maps, Em. simpl. rewrite filter_none; auto. }
    simpl. repeat split.
    + rewrite <- (map_id concepts) at 1. apply map_ext_in. intros c Hc.
      unfold autofix_spec. now rewrite (Hnone c Hc).
    + symmetry. rewrite filter_none; auto. intros c Hc. now rewrite (Hnone c Hc).
    + replace (flat_map (autofix_log concepts) concepts) with (@nil str);
        [now rewrite app_nil_r|].
      symmetry. apply flat_map_none.
      intros c Hc. unfold autofix_log. now rewrite (Hnone c Hc).
  - destruct (autofix_loop_eq (x :: cu) uc (autofix_broader_map uc concepts []) concepts cl)
      as [H1 [H2 [H3 H4]]]. cbv zeta in *.
    rewrite H1, H2, H3, H4. repeat split.
    + apply map_ext_in. intros c Hc. unfold autofix_spec, apply_decision.
      now rewrite (Hd c Hc).
    + f_equal. apply filter_ext_in. intros c Hc. now rewrite (Hd c Hc).
    + f_equal. apply flat_map_ext_members. intros c Hc. unfold autofix_log, decision_log.
      now rewrite (Hd c Hc).
Qed.

Lemma concept_of_existing_code (concepts : list Concept) (p : str) :
  mem_str p (graph_codes concepts) = true ->
  exists parent, concept_of_code concepts p = Some parent.
Proof.
  intros H. apply mem_str_In in H. unfold graph_codes in H.
  apply in_flat_map in H as [c [Hc Hp]].
  unfold concept_of_code.
  destruct (find (has_code p) (rev concepts)) as [c'|] eqn:E; [simpl; eauto|].
  exfalso. assert (Hf : has_code p c = false).
  { apply (find_none _ _ E c). now apply in_rev in Hc. }
  unfold has_code in Hf. destruct (code_of c) as [k|]; [|destruct Hp].
  destruct Hp as [Hp|[]]. subst. rewrite str_eqb_refl in Hf. discriminate.
Qed.

(** C7, as stated, fails when two concepts have the same code.  The
    concept [http://x/a/311] declares no parent and the candidate [31]
    exists, but [http://x/b/311], which has the same code, declares
    [http://x/31] as its parent: the autofixer leaves both as they are and
    adds nothing. *)
Lemma autofix_skips_concept_sharing_a_code :
  let c31 := mkConcept (L "http://x/31") [mkLabel (L "p") (L "en")]
               [] [] [] [] [] [] [] [] [] [] [] in
  let a := mkConcept (L "http://x/a/311") [mkLabel (L "a") (L "en")]
             [] [] [] [] [] [] [] [] [] [] [] in
  let b := mkConcept (L "http://x/b/311") [mkLabel (L "b") (L "en")]
             [] [] [] [] [] [] [] [] [L "skos:broader <http://x/31>"] [] [] in
  let r := _apply_hierarchy_autofix [c31; a; b] default_cleaner in
  code_of a = Some (L "311")
  /\ other_properties a = []
  /\ existing_candidates [c31; a; b] (L "311") = [L "31"]
  /\ nth_error (fst (fst r)) 1 = Some a
  /\ snd (fst r) = 0
  /\ change_log (snd r) = [].
Proof. vm_compute. repeat split. Qed.

(** C7, amended.  Take a concept of the list whose URI yields the code
    [k].  If at least one candidate prefix of [k] is the code of a concept
    of the list, and no [skos:broader] target declared by a concept with the
    code [k] has one of these existing candidates as its code, then the
    autofixer appends to the concept's other properties exactly one entry
    [skos:broader <parent>], unless that entry is already there; [parent]
    is the last concept of the list whose code is the longest existing
    candidate.  The function returns the number of concepts that got an
    entry, and the change log gets one line for each of them, in order. *)
Theorem autofix_links_longest_existing_prefix
    (concepts : list Concept) (cl : Cleaner) (i : nat) (c : Concept) (k : str) :
  nth_error concepts i = Some c ->
  code_of c = Some k ->
  existing_candidates concepts k <> [] ->
  (forall t, In t (declared_broader concepts k) -> ~ In t (existing_candidates concepts k)) ->
  let r := _apply_hierarchy_autofix concepts cl in
  exists p parent,
    In p (existing_candidates concepts k)
    /\ (forall q, In q (existing_candidates concepts k) -> length q <= length p)
    /\ concept_of_code concepts p = Some parent
    /\ nth_error (fst (fst r)) i
       = Some (if mem_str (broader_triple parent) (other_properties c) then c
               else set_other_properties (other_properties c ++ [broader_triple parent]) c)
    /\ snd (fst r)
       = length (filter (fun c0 => is_some (autofix_target concepts c0)) concepts)
    /\ change_log (snd r) = change_log cl ++ flat_map (autofix_log concepts) concepts.
Proof.
  intros Hi Hk Hcand Hnone. cbv zeta.
  destruct (autofix_by_concept concepts cl) as [H1 [H2 [H3 _]]]. cbv zeta in *.
  destruct (existing_candidates concepts k) as [|c0 cr] eqn:Ec; [contradiction|].
  destruct (max_by_len_longest cr c0) as [Hin Hmax].
  assert (Hmem : mem_str (max_by_len c0 cr) (graph_codes concepts) = true).
  { assert (Hf : In (max_by_len c0 cr) (existing_candidates concepts k))
      by (rewrite Ec; exact Hin).
    unfold existing_candidates in Hf. apply filter_In in Hf. tauto. }
  destruct (concept_of_existing_code concepts _ Hmem) as [parent Hparent].
  exists (max_by_len c0 cr), parent.
  repeat split; auto.
  rewrite H1. rewrite nth_error_map, Hi. simpl. f_equal.
  unfold autofix_spec, autofix_target. rewrite Hk, Ec.
  assert (Ex : existsb (fun t => mem_str t (c0 :: cr)) (declared_broader concepts k) = false).
  { destruct (existsb _ (declared_broader concepts k)) eqn:E; [|reflexivity].
    apply existsb_exists in E as [t [Ht Hm]]. apply mem_str_In in Hm.
    exfalso. exact (Hnone t Ht Hm). }
  rewrite Ex. cbv zeta. rewrite Hparent.
  destruct (mem_str (broader_triple parent) (other_properties c)); reflexivity.
Qed.

(** The scenario of the claim: [311] has no parent relation and [31]
    exists; the link to [http://x/31] is added, one addition is returned and
    one line is logged. *)
Lemma autofix_links_longest_existing_prefix_witness :
  let c31 := mkConcept (L "http://x/31") [mkLabel (L "p") (L "en")]
               [] [] [] [] [] [] [] [] [] [] [] in
  let c311 := mkConcept (L "http://x/311") [mkLabel (L "a") (L "en")]
                [] [] [] [] [] [] [] [] [] [] [] in
  let r := _apply_hierarchy_autofix [c31; c311] default_cleaner in
  (exists p parent,
     In p (existing_candidates [c31; c311] (L "311"))
     /\ (forall q, In q (existing_candidates [c31; c311] (L "311")) -> length q <= length p)
     /\ concept_of_code [c31; c311] p = Some parent
     /\ nth_error (fst (fst r)) 1
        = Some (if mem_str (broader_triple parent) (other_properties c311) then c311
                else set_other_properties (other_properties c311 ++ [broader_triple parent])
                       c311)
     /\ snd (fst r)
        = length (filter (fun c0 => is_some (autofix_target [c31; c311] c0)) [c31; c311])
     /\ change_log (snd r)
        = change_log default_cleaner ++ flat_map (autofix_log [c31; c311]) [c31; c311])
  /\ nth_error (fst (fst r)) 1
     = Some (set_other_properties [L "skos:broader <http://x/31>"] c311)
  /\ snd (fst r) = 1
  /\ change_log (snd r)
     = [L "Autofix: added skos:broader <http://x/31> to <http://x/311> based on code 311"].
Proof.
  cbv zeta. split.
  - apply (@autofix_links_longest_existing_prefix _ default_cleaner 1 _ (L "311")).
    + reflexivity.
    + reflexivity.
    + vm_compute. discriminate.
    + intros t Ht. vm_compute in Ht. destruct Ht.
  - vm_compute. repeat split.
Defined.

(* ================================================================== *)
(** ** Segmenter and statistics: what the report's final count is *)
(* ================================================================== *)

Lemma blocks_loop_length (lines : list str) :
  forall cur,
    length (blocks_loop cur lines)
    = length (filter starts_concept lines) + (if nonempty_list cur then 1 else 0).
Proof.
  induction lines as [|line rest IH]; intros cur; simpl.
  - destruct cur; reflexivity.
  - destruct (starts_concept line) eqn:Es.
    + destruct cur as [|l0 more]; simpl; rewrite IH; simpl; lia.
    + destruct cur as [|l0 more]; simpl.
      * rewrite andb_false_r. rewrite IH. reflexivity.
      * rewrite andb_true_r. destruct (str_eqb (strip line) (L ".")); simpl; rewrite IH.
        -- simpl. lia.
        -- destruct more; reflexivity.
Qed.

(** X1.  The segmenter returns exactly one block for every line that
    starts a concept (a subject token, [a], [skos:Concept]): whatever
    else the document holds, and whether or not a block is closed by a
    lone full stop, the number of blocks is the number of such lines. *)
Theorem blocks_one_per_subject_line (content : str) :
  length (_split_into_concept_blocks content)
  = length (filter starts_concept (content_lines content)).
Proof.
  unfold _split_into_concept_blocks. rewrite blocks_loop_length. simpl. lia.
Qed.

Section Preserves.

Variable T : Type.
Variable g : Cleaner -> T.
Hypothesis g_log : forall l c, g (set_change_log l c) = g c.
Hypothesis g_encoding : forall c, g (set_stats inc_encoding_issues_fixed c) = g c.
Hypothesis g_empty : forall c, g (set_stats inc_empty_labels_removed c) = g c.
Hypothesis g_text : forall c, g (set_stats inc_text_fields_cleaned c) = g c.
Hypothesis g_malformed : forall c, g (set_stats inc_malformed_uris_fixed c) = g c.
Hypothesis g_normal : forall c, g (set_stats inc_uri_normalizations c) = g c.

Lemma preserves_ret (A : Type) (a : A) : preserves g (ret a).
Proof. now intros cl. Qed.

Lemma preserves_bind (A B : Type) (m : M A) (k : A -> M B) :
  preserves g m -> (forall a, preserves g (k a)) -> preserves g (bind m k).
Proof. intros Hm Hk cl. rewrite bind_run. now rewrite Hk, Hm. Qed.

Lemma preserves_log (msg : str) : preserves g (log msg).
Proof. intros cl. apply g_log. Qed.

Lemma preserves_bump (h : Stats -> Stats) :
  (forall c, g (set_stats h c) = g c) -> preserves g (bump h).
Proof. intros H cl. apply H. Qed.

Lemma preserves_clean_label (label : str) : preserves g (_clean_label label).
Proof.
  unfold _clean_label.
  repeat first [ apply preserves_ret | apply preserves_log; assumption
               | apply preserves_bump; assumption
               | apply preserves_bind; [|intros ?]
               | match goal with |- preserves _ (if ?b then _ else _) => destruct b end ].
Qed.

Lemma preserves_clean_text_field (txt : str) : preserves g (_clean_text_field txt).
Proof.
  unfold _clean_text_field.
  repeat first [ apply preserves_ret | apply preserves_log; assumption
               | apply preserves_bump; assumption
               | apply preserves_bind; [|intros ?]
               | match goal with |- preserves _ (if ?b then _ else _) => destruct b end ].
Qed.

Lemma preserves_add_values (clean : str -> M (option str)) (dd : bool) :
  (forall s, preserves g (clean s)) ->
  forall found acc, preserves g (add_values clean dd found acc).
Proof.
  intros Hc found. induction found as [|[lbl lng] rest IH]; intros acc; simpl.
  - apply preserves_ret.
  - apply preserves_bind; [apply Hc|]. intros [t|]; [|apply IH].
    destruct (dd && existsb _ acc); apply IH.
Qed.

Lemma preserves_add_multi (tails : list str) :
  forall acc, preserves g (add_multi tails acc).
Proof.
  induction tails as [|tail rest IH]; intros acc; simpl.
  - apply preserves_ret.
  - apply preserves_bind; [|intros; apply IH].
    apply preserves_add_values, preserves_clean_label.
Qed.

Lemma preserves_parse_fields (block g1 : str) : preserves g (parse_fields block g1).
Proof.
  unfold parse_fields.
  apply preserves_bind.
  { unfold parse_uri. apply preserves_bind; [now intros cl|]. intros cl.
    destruct (negb _); [|apply preserves_ret].
    destruct (_classify_uri_change _ _ _) as [is_fix msg].
    destruct (nonempty msg); [|apply preserves_ret].
    apply preserves_bind; [apply preserves_log; assumption|]. intros _.
    apply preserves_bind; [|intros; apply preserves_ret].
    destruct is_fix; apply preserves_bump; assumption. }
  intros ui.
  repeat first
    [ apply preserves_ret
    | apply preserves_bind;
      [ first [ unfold parse_labels; apply preserves_bind;
                [ apply preserves_add_values, preserves_clean_label
                | intros; apply preserves_add_multi ]
              | unfold parse_texts; apply preserves_add_values,
                  preserves_clean_text_field ]
      | intros ? ] ].
Qed.

End Preserves.

Section PreservesSerializer.

Variable T : Type.
Variable g : Cleaner -> T.
Hypothesis g_log : forall l c, g (set_change_log l c) = g c.
Hypothesis g_comma : forall c, g (set_stats inc_comma_fixes c) = g c.
Hypothesis g_text : forall c, g (set_stats inc_text_fields_cleaned c) = g c.
Hypothesis g_labels : forall c, g (set_stats inc_labels_processed c) = g c.
Hypothesis g_definitions : forall c, g (set_stats inc_definitions_processed c) = g c.
Hypothesis g_notes : forall c, g (set_stats inc_notes_processed c) = g c.

Lemma preserves_fix_comma_spacing (txt : str) : preserves g (_fix_comma_spacing txt).
Proof.
  unfold _fix_comma_spacing.
  repeat first [ apply preserves_ret | apply preserves_log; assumption
               | apply preserves_bump; assumption
               | apply preserves_bind; [|intros ?]
               | match goal with |- preserves _ (if ?b then _ else _) => destruct b end ].
Qed.

Lemma preserves_format_values (kw : str) (counter : option (Stats -> Stats)) :
  match counter with Some h => forall c, g (set_stats h c) = g c | None => True end ->
  forall ls, preserves g (format_values kw counter ls).
Proof.
  intros Hc ls. induction ls as [|l rest IH]; simpl.
  - apply preserves_ret.
  - apply preserves_bind; [apply preserves_fix_comma_spacing|]. intros fixed.
    apply preserves_bind.
    { destruct counter; [now apply preserves_bump | apply preserves_ret]. }
    intros _. apply preserves_bind; [exact IH|]. intros r. apply preserves_ret.
Qed.

Lemma preserves_format_concept (c : Concept) : preserves g (_format_concept c).
Proof.
  unfold _format_concept.
  apply preserves_bind; [now intros cl|]. intros cl.
  repeat first
    [ apply preserves_ret
    | apply preserves_bind;
      [ apply preserves_format_values; first [assumption | exact I] | intros ? ] ].
Qed.

Lemma preserves_format_concepts (cs : list Concept) : preserves g (format_concepts cs).
Proof.
  induction cs as [|c rest IH]; simpl.
  - apply preserves_ret.
  - apply preserves_bind; [apply preserves_format_concept|]. intros s.
    apply preserves_bind; [exact IH|]. intros r. apply preserves_ret.
Qed.

Lemma preserves_generate (cs : list Concept) (original : str) :
  preserves g (_generate_cleaned_content cs original).
Proof.
  unfold _generate_cleaned_content.
  apply preserves_bind; [now intros cl|]. intros cl.
  apply preserves_bind; [apply preserves_format_concepts|]. intros r.
  apply preserves_ret.
Qed.

End PreservesSerializer.

Lemma preserves_parse_concept_block (T : Type) (g : Cleaner -> T) (block : str) :
  (forall l c, g (set_change_log l c) = g c) ->
  (forall c, g (set_stats inc_encoding_issues_fixed c) = g c) ->
  (forall c, g (set_stats inc_empty_labels_removed c) = g c) ->
  (forall c, g (set_stats inc_text_fields_cleaned c) = g c) ->
  (forall c, g (set_stats inc_malformed_uris_fixed c) = g c) ->
  (forall c, g (set_stats inc_uri_normalizations c) = g c) ->
  (forall c, g (set_stats inc_concepts_without_preflabel c) = g c) ->
  preserves g (_parse_concept_block block).
Proof.
  intros H0 H1 H2 H3 H4 H5 H6. unfold _parse_concept_block.
  destruct (find_subject block) as [g1|]; [|apply preserves_ret].
  apply preserves_bind; [now apply preserves_parse_fields|]. intros c.
  destruct (prefLabels c); [|apply preserves_ret].
  apply preserves_bind; [now apply preserves_bump|]. intros _. apply preserves_ret.
Qed.

Lemma preserves_dedup_loop (T : Type) (g : Cleaner -> T) (concepts : list Concept) :
  (forall l c, g (set_change_log l c) = g c) ->
  (forall c, g (set_stats inc_duplicates_removed c) = g c) ->
  forall seen, preserves g (dedup_loop seen concepts).
Proof.
  intros H0 H1. induction concepts as [|c rest IH]; intros seen; simpl.
  - apply preserves_ret.
  - destruct (mem_str (uri c) seen).
    + apply preserves_bind; [now apply preserves_bump|]. intros _.
      apply preserves_bind; [now apply preserves_log|]. intros _. apply IH.
    + apply preserves_bind; [apply IH|]. intros r. apply preserves_ret.
Qed.

(** A statistic seen as a part of the state *)
Ltac as_preserves :=
  match goal with
  | |- keeps_stat ?f ?m => change (preserves (fun c => f (stats c)) m)
  end.

(** A block with a subject gives a concept or one more
    [concepts_without_preflabel], never both and never neither. *)
Lemma parse_concept_block_accounted (block : str) (cl : Cleaner) :
  find_subject block <> None ->
  let r := _parse_concept_block block cl in
  (match fst r with Some _ => 1 | None => 0 end)
  + concepts_without_preflabel (stats (snd r))
  = 1 + concepts_without_preflabel (stats cl).
Proof.
  intros Hs. cbv zeta. unfold _parse_concept_block.
  destruct (find_subject block) as [g1|]; [|congruence].
  rewrite bind_run.
  assert (K : keeps_stat concepts_without_preflabel (parse_fields block g1))
    by (as_preserves; apply preserves_parse_fields; reflexivity).
  specialize (K cl).
  destruct (prefLabels (fst (parse_fields block g1 cl))).
  - rewrite bind_run. simpl. rewrite K. lia.
  - simpl. rewrite K. lia.
Qed.

Lemma parse_blocks_accounted (blocks : list str) :
  Forall (fun b => find_subject b <> None) blocks ->
  forall cl,
    let r := parse_blocks blocks cl in
    length (fst r) + concepts_without_preflabel (stats (snd r))
    = length blocks + concepts_without_preflabel (stats cl).
Proof.
  induction 1 as [|b rest Hb Hrest IH]; intros cl; cbv zeta; simpl.
  - reflexivity.
  - rewrite !bind_run. simpl.
    pose proof (@parse_concept_block_accounted b cl Hb) as H1. cbv zeta in H1.
    pose proof (IH (snd (_parse_concept_block b cl))) as H2. cbv zeta in H2.
    destruct (fst (_parse_concept_block b cl)); simpl; lia.
Qed.

Lemma preserves_parse_blocks (T : Type) (g : Cleaner -> T) (blocks : list str) :
  (forall b, preserves g (_parse_concept_block b)) ->
  preserves g (parse_blocks blocks).
Proof.
  intros H. induction blocks as [|b rest IH]; simpl.
  - apply preserves_ret.
  - apply preserves_bind; [apply H|]. intros c.
    apply preserves_bind; [exact IH|]. intros r. apply preserves_ret.
Qed.

(** What the parser leaves in the statistics: the number of blocks in
    [total_concepts], no duplicate counted, and one
    [concepts_without_preflabel] for every block that gave no concept. *)
Lemma extract_concepts_accounting (content : str) (cl : Cleaner) :
  let e := _extract_concepts content cl in
  total_concepts (stats (snd e)) = length (_split_into_concept_blocks content)
  /\ duplicates_removed (stats (snd e)) = duplicates_removed (stats cl)
  /\ length (fst e) + concepts_without_preflabel (stats (snd e))
     = length (_split_into_concept_blocks content)
       + concepts_without_preflabel (stats cl).
Proof.
  cbv zeta. unfold _extract_concepts. rewrite !bind_run.
  set (c0 := snd (bump _ _)).
  assert (Hc0 : stats c0 = set_total_concepts
                  (length (_split_into_concept_blocks content)) (stats cl)).
  { unfold c0, _extract_base_uri, _extract_metadata.
    destruct (Re.search base_decl content) as [[decl inner]|]; reflexivity. }
  pose proof (@parse_blocks_accounted _ (segmenter_blocks_have_subject content) c0) as Hp.
  cbv zeta in Hp.
  assert (Kt : keeps_stat total_concepts
                 (parse_blocks (_split_into_concept_blocks content))).
  { as_preserves. apply preserves_parse_blocks. intros b.
    apply preserves_parse_concept_block; reflexivity. }
  assert (Kd : keeps_stat duplicates_removed
                 (parse_blocks (_split_into_concept_blocks content))).
  { as_preserves. apply preserves_parse_blocks. intros b.
    apply preserves_parse_concept_block; reflexivity. }
  rewrite (Kt c0), (Kd c0), Hp, Hc0. simpl. auto.
Qed.

(** After the parser and the deduplicator, every block of the document is
    accounted for exactly once: the blocks counted in [total_concepts] are
    the concepts kept, the duplicates removed in this run and the blocks
    rejected in this run for want of a prefLabel. *)
Lemma parse_dedup_accounting (content : str) (cl : Cleaner) :
  let r := bind (_extract_concepts content) _clean_concepts cl in
  let s := stats (snd r) in
  total_concepts s + duplicates_removed (stats cl) + concepts_without_preflabel (stats cl)
  = length (fst r) + duplicates_removed s + concepts_without_preflabel s.
Proof.
  cbv zeta. rewrite bind_run.
  pose proof (extract_concepts_accounting content cl) as He. cbv zeta in He.
  set (e := _extract_concepts content cl) in *.
  destruct He as (Ht & Hd & Hn).
  unfold _clean_concepts.
  pose proof (dedup_loop_state (fst e) [] (snd e)) as Hs. cbv zeta in Hs.
  destruct Hs as (Hs1 & _ & Hs3).
  assert (K1 : keeps_stat total_concepts (dedup_loop [] (fst e)))
    by (as_preserves; apply preserves_dedup_loop; reflexivity).
  assert (K2 : keeps_stat concepts_without_preflabel (dedup_loop [] (fst e)))
    by (as_preserves; apply preserves_dedup_loop; reflexivity).
  rewrite (K1 (snd e)), (K2 (snd e)), Hs1. lia.
Qed.

(** X2.  Every block of the document is accounted for exactly once by the
    parser and the deduplicator: started from a fresh cleaner, the number
    of blocks found ([total_concepts]) is the number of concepts kept plus
    the duplicates removed plus the blocks rejected for want of a
    prefLabel. *)
Theorem every_block_is_accounted_for
    (cs : Z) (ev me xl af wn : bool) (content : str) :
  let r := bind (_extract_concepts content) _clean_concepts
             (new_cleaner cs ev me xl af wn) in
  let s := stats (snd r) in
  total_concepts s = length (_split_into_concept_blocks content)
  /\ total_concepts s
     = length (fst r) + duplicates_removed s + concepts_without_preflabel s.
Proof.
  cbv zeta. set (cl := new_cleaner cs ev me xl af wn).
  pose proof (parse_dedup_accounting content cl) as H. cbv zeta in H.
  change (duplicates_removed (stats cl)) with 0 in H.
  change (concepts_without_preflabel (stats cl)) with 0 in H.
  split; [|lia].
  rewrite bind_run. unfold _clean_concepts.
  assert (Kt : forall l, keeps_stat total_concepts (dedup_loop [] l))
    by (intros l; as_preserves; apply preserves_dedup_loop; reflexivity).
  rewrite (Kt _ _).
  unfold _extract_concepts. rewrite !bind_run.
  set (c0 := snd (bump _ _)).
  assert (K : keeps_stat total_concepts
                (parse_blocks (_split_into_concept_blocks content))).
  { as_preserves. apply preserves_parse_blocks. intros b.
    apply preserves_parse_concept_block; reflexivity. }
  rewrite (K c0). unfold c0, _extract_base_uri, _extract_metadata.
  destruct (Re.search base_decl content) as [[decl inner]|]; reflexivity.
Qed.

(** The statistics that [clean_file] returns with the text: total, less
    duplicates, less concepts without prefLabel is the number of concepts
    kept and written. *)
Lemma clean_file_statistics_count_the_output
    (cs : Z) (ev me xl af wn : bool) (content : str) :
  let cl := new_cleaner cs ev me xl af wn in
  let kept := fst (bind (_extract_concepts content) _clean_concepts cl) in
  reported_final_concepts (stats (snd (clean_file content cl)))
  = Z.of_nat (length kept).
Proof.
  cbv zeta. set (cl := new_cleaner cs ev me xl af wn).
  pose proof (parse_dedup_accounting content cl) as H. cbv zeta in H.
  unfold clean_file. destruct content as [|ch rest].
  - reflexivity.
  - cbn [nonempty negb]. set (content := ch :: rest) in *.
    rewrite (bind_run (_extract_concepts content) _ cl).
    rewrite (bind_run (_clean_concepts _) _ _).
    rewrite (bind_run (_extract_concepts content) _ cl) in H.
    set (r := _clean_concepts _ _) in *.
    unfold reported_final_concepts.
    assert (K : forall f : Stats -> nat,
               (forall s, f (inc_comma_fixes s) = f s) ->
               (forall s, f (inc_text_fields_cleaned s) = f s) ->
               (forall s, f (inc_labels_processed s) = f s) ->
               (forall s, f (inc_definitions_processed s) = f s) ->
               (forall s, f (inc_notes_processed s) = f s) ->
               f (stats (snd (_generate_cleaned_content (fst r) content (snd r))))
               = f (stats (snd r))).
    { intros f H1 H2 H3 H4 H5.
      apply (@preserves_generate _ (fun c => f (stats c))); intros; simpl; auto. }
    rewrite !K by reflexivity.
    change (duplicates_removed (stats cl)) with 0 in H.
    change (concepts_without_preflabel (stats cl)) with 0 in H.
    change (fst ((x <- _extract_concepts content ;; _clean_concepts x) cl))
      with (fst (bind (_extract_concepts content) _clean_concepts cl)).
    rewrite (bind_run (_extract_concepts content) _ cl). fold r.
    lia.
Qed.

(* ================================================================== *)
(** ** The candidate parent codes of a code *)
(* ================================================================== *)

Lemma split_on_nonempty (sep : char) (s : str) : split_on sep s <> [].
Proof.
  induction s as [|c t IH]; simpl; [discriminate|].
  destruct (N.eqb c sep); [discriminate|].
  destruct (split_on sep t); discriminate.
Qed.

(** [sep.join(s.split(sep)) == s] *)
Lemma join_split_on (sep : char) (s : str) : join [sep] (split_on sep s) = s.
Proof.
  induction s as [|c t IH]; simpl; auto.
  pose proof (split_on_nonempty sep t) as Hn.
  destruct (split_on sep t) as [|h r]; [contradiction|].
  destruct (N.eqb c sep) eqn:E.
  - apply N.eqb_eq in E. subst c.
    change (join [sep] ([] :: h :: r)) with ([] ++ [sep] ++ join [sep] (h :: r)).
    now rewrite IH.
  - destruct r as [|h2 r]; simpl in *; now rewrite IH.
Qed.

Lemma join_app (sep : str) (l1 l2 : list str) :
  l1 <> [] -> l2 <> [] -> join sep (l1 ++ l2) = join sep l1 ++ sep ++ join sep l2.
Proof.
  intros H1 H2. induction l1 as [|x l1 IH]; [contradiction|].
  destruct l1 as [|y l1].
  - simpl. destruct l2; [contradiction|reflexivity].
  - change (join sep ((x :: y :: l1) ++ l2)) with (x ++ sep ++ join sep ((y :: l1) ++ l2)).
    rewrite IH by discriminate.
    change (join sep (x :: y :: l1)) with (x ++ sep ++ join sep (y :: l1)).
    now rewrite <- !app_assoc.
Qed.

Lemma startswith_app_self (p r : str) : startswith p (p ++ r) = true.
Proof. induction p as [|x p IH]; simpl; auto. now rewrite N.eqb_refl. Qed.

(** The first [i] parts joined again, and the first [j]: the former is a
    shorter prefix of the latter. *)
Lemma join_firstn_prefix (sep : str) (parts : list str) (i j : nat) :
  1 <= i -> i < j -> j <= length parts -> sep <> [] ->
  exists r, join sep (firstn j parts) = join sep (firstn i parts) ++ r /\ r <> [].
Proof.
  intros Hi Hij Hj Hsep.
  assert (E : firstn j parts = firstn i parts ++ firstn (j - i) (skipn i parts)).
  { rewrite <- (firstn_skipn i parts) at 1.
    rewrite firstn_app, firstn_firstn, length_firstn.
    replace (Nat.min j i) with i by lia.
    now replace (j - Nat.min i (length parts)) with (j - i) by lia. }
  rewrite E. rewrite join_app.
  - exists (sep ++ join sep (firstn (j - i) (skipn i parts))). split; auto.
    destruct sep; [contradiction|discriminate].
  - intros H. apply (f_equal (@length str)) in H. rewrite length_firstn in H.
    simpl in H. lia.
  - intros H. apply (f_equal (@length str)) in H.
    rewrite length_firstn, length_skipn in H. simpl in H. lia.
Qed.

Lemma longest_first_app (l1 l2 : list str) :
  longest_first l1 -> longest_first l2 ->
  (forall a b, In a l1 -> In b l2 -> length b < length a) ->
  longest_first (l1 ++ l2).
Proof.
  induction l1 as [|x l1 IH]; simpl; auto.
  intros [H1 H2] H3 H4. split.
  - apply Forall_app. split; auto. apply Forall_forall. intros b Hb. apply H4; auto.
  - apply IH; auto.
Qed.

Lemma longest_first_down (g : nat -> str) (a m : nat) :
  (forall i j, a <= i -> i < j -> j < a + m -> length (g i) < length (g j)) ->
  longest_first (map g (rev (seq a m))).
Proof.
  induction m as [|m IH]; intros H; [exact I|].
  rewrite seq_S, rev_app_distr. simpl. split.
  - apply Forall_forall. intros b Hb. apply in_map_iff in Hb as [i [<- Hi]].
    apply in_rev, in_seq in Hi. apply H; lia.
  - apply IH. intros i j H1 H2 H3. apply H; lia.
Qed.

Lemma dedupe_longest_first (l : list str) :
  forall seen,
    longest_first l ->
    (forall x y, In x seen -> In y l -> length y < length x) ->
    dedupe seen l = l.
Proof.
  induction l as [|p r IH]; intros seen Hl Hs; simpl; auto.
  destruct Hl as [H1 H2].
  assert (E : mem_str p seen = false).
  { apply mem_str_not_In. intros Hin. specialize (Hs p p Hin (or_introl eq_refl)). lia. }
  rewrite E. f_equal. apply IH; auto.
  intros x y [<-|Hx] Hy.
  - rewrite Forall_forall in H1. now apply H1.
  - apply Hs; simpl; auto.
Qed.

Lemma take_down_range (s : str) :
  longest_first (map (fun k => take k s) (down_range (length s)))
  /\ Forall (proper_prefix s) (map (fun k => take k s) (down_range (length s))).
Proof.
  unfold down_range, take. split.
  - apply longest_first_down. intros i j H1 H2 H3. rewrite !length_firstn. lia.
  - apply Forall_forall. intros p Hp. apply in_map_iff in Hp as [k [<- Hk]].
    apply in_rev, in_seq in Hk. split.
    + rewrite <- (firstn_skipn k s) at 2. apply startswith_app_self.
    + rewrite length_firstn. lia.
Qed.

Lemma startswith_trans (q p s : str) :
  startswith q p = true -> startswith p s = true -> startswith q s = true.
Proof.
  revert p s. induction q as [|c q IH]; intros [|a p] [|b s]; simpl; auto; try discriminate.
  intros H1 H2. apply andb_true_iff in H1 as [E1 H1]. apply andb_true_iff in H2 as [E2 H2].
  apply N.eqb_eq in E1, E2. subst. rewrite N.eqb_refl. simpl. now apply IH with p.
Qed.

Lemma join_firstn_one (sep : str) (parts : list str) :
  join sep (firstn 1 parts) = hd [] parts.
Proof. destruct parts as [|x r]; reflexivity. Qed.

Lemma segment_prefixes (sep : str) (parts : list str) :
  sep <> [] -> parts <> [] ->
  let code := join sep parts in
  let segs := map (fun i => join sep (firstn i parts)) (down_range (length parts)) in
  longest_first segs
  /\ Forall (proper_prefix code) segs
  /\ Forall (fun p => length (hd [] parts) <= length p) segs
  /\ startswith (hd [] parts) code = true.
Proof.
  intros Hsep Hparts code segs. unfold segs, down_range.
  assert (Hn : 1 <= length parts) by (destruct parts; [contradiction|simpl; lia]).
  repeat split.
  - apply longest_first_down. intros i j H1 H2 H3.
    destruct (@join_firstn_prefix sep parts i j) as [r [E Hr]]; auto; try lia.
    rewrite E, length_app. destruct r; [contradiction|simpl; lia].
  - apply Forall_forall. intros p Hp. apply in_map_iff in Hp as [i [<- Hi]].
    apply in_rev, in_seq in Hi.
    destruct (@join_firstn_prefix sep parts i (length parts)) as [r [E Hr]]; auto; try lia.
    rewrite firstn_all in E. unfold code. rewrite E. split.
    + apply startswith_app_self.
    + rewrite length_app. destruct r; [contradiction|simpl; lia].
  - apply Forall_forall. intros p Hp. apply in_map_iff in Hp as [i [<- Hi]].
    apply in_rev, in_seq in Hi. rewrite <- (join_firstn_one sep parts).
    destruct (Nat.eq_dec i 1) as [->|Hne]; [lia|].
    destruct (@join_firstn_prefix sep parts 1 i) as [r [E Hr]]; auto; try lia.
    rewrite E, length_app. lia.
  - unfold code. destruct parts as [|x [|y r]]; [contradiction| |]; simpl.
    + rewrite <- (app_nil_r x) at 2. apply startswith_app_self.
    + apply startswith_app_self.
Qed.

(** X4.  The candidate parent codes of a code are listed longest first,
    each strictly longer than the next, and every one of them is a prefix
    of the code and shorter than it: the code itself is never its own
    candidate, and no candidate is listed twice. *)
Theorem code_prefixes_longest_first (code : str) :
  longest_first (_code_prefixes code)
  /\ Forall (proper_prefix code) (_code_prefixes code).
Proof.
  unfold _code_prefixes. destruct (negb (nonempty code)); [split; [exact I|constructor]|].
  match goal with |- longest_first (dedupe [] ?l) /\ _ => set (prefixes := l) end.
  assert (H : longest_first prefixes /\ Forall (proper_prefix code) prefixes).
  { unfold prefixes. destruct (contains (L "-") code).
    - change (L "-") with [45%N].
      pose proof (@segment_prefixes [45%N] (split_on 45%N code)) as S.
      rewrite join_split_on in S. cbv zeta in S.
      destruct S as (S1 & S2 & S3 & S4); [discriminate | apply split_on_nonempty |].
      set (first := hd [] (split_on 45%N code)) in *.
      destruct (isdigit first && (1 <? length first)).
      + destruct (take_down_range first) as [T1 T2]. split.
        * apply longest_first_app; auto. intros a b Ha Hb.
          rewrite Forall_forall in S3, T2. specialize (S3 a Ha).
          destruct (T2 b Hb) as [_ Hlt]. lia.
        * apply Forall_app. split; auto.
          rewrite Forall_forall in T2 |- *. intros p Hp. destruct (T2 p Hp) as [P1 P2].
          split; [now apply startswith_trans with first|].
          apply startswith_length in S4. lia.
      + rewrite app_nil_r. auto.
    - destruct (isdigit code && (1 <? length code)).
      + apply take_down_range.
      + split; [exact I|constructor]. }
  destruct H as [H1 H2].
  assert (E : dedupe [] prefixes = prefixes).
  { apply dedupe_longest_first; auto. intros x y []. }
  rewrite E. auto.
Qed.

(* ================================================================== *)
(** ** The code token of a URI *)
(* ================================================================== *)

Lemma in_ranges_In (rs : list (N * N)) (c : char) :
  in_ranges rs c = true -> exists lo hi, In (lo, hi) rs /\ (lo <= c <= hi)%N.
Proof.
  unfold in_ranges. intros H. apply existsb_exists in H as [[lo hi] [Hin Hr]].
  apply andb_true_iff in Hr as [H1 H2]. apply N.leb_le in H1, H2.
  exists lo, hi. simpl in *. split; [exact Hin | lia].
Qed.

Lemma is_space_cases (c : char) :
  is_space c = true ->
  (9 <= c <= 13 \/ 28 <= c <= 32 \/ c = 133 \/ c = 160 \/ c = 5760
   \/ 8192 <= c <= 8202 \/ c = 8232 \/ c = 8233 \/ c = 8239 \/ c = 8287
   \/ c = 12288)%N.
Proof.
  unfold is_space. intros H.
  repeat match type of H with
         | (_ || _ = true) => apply orb_true_iff in H; destruct H as [H|H]
         end;
    repeat match goal with
           | H : (_ && _ = true) |- _ => apply andb_true_iff in H; destruct H
           | H : ((_ <=? _)%N = true) |- _ => apply N.leb_le in H
           | H : ((_ =? _)%N = true) |- _ => apply N.eqb_eq in H
           end; lia.
Qed.

(** The decimal digits: the ASCII digits and code points from U+0660 on *)
Lemma digit_range (c : char) : is_digit c = true -> (48 <= c <= 57 \/ 1632 <= c)%N.
Proof.
  intros H. apply in_ranges_In in H as (lo & hi & Hin & Hr).
  unfold decimal_digit_ranges in Hin. simpl in Hin.
  repeat (destruct Hin as [Hin|Hin]; [inversion Hin; subst lo hi; lia|]).
  destruct Hin.
Qed.

Lemma digit_not_space (c : char) : is_digit c = true -> is_space c = false.
Proof.
  intros H. destruct (is_space c) eqn:E; [exfalso|reflexivity].
  apply is_space_cases in E.
  apply in_ranges_In in H as (lo & hi & Hin & Hr).
  unfold decimal_digit_ranges in Hin. simpl in Hin.
  repeat (destruct Hin as [Hin|Hin]; [inversion Hin; subst lo hi; lia|]).
  destruct Hin.
Qed.

Lemma hyphen_not_digit : is_digit 45%N = false.
Proof. vm_compute. reflexivity. Qed.

(** What [rev_code] reads, put back in order, is a code: read from a
    digit it is a whole code, read from a hyphen it is a code and the
    hyphen. *)
Lemma rev_code_shape (r : str) :
  forall y,
    (forall c t, r = c :: t -> is_digit c = true ->
       code_from false (rev (rev_code r) ++ y) = code_from true y)
    /\ (forall d t, r = 45%N :: d :: t -> is_digit d = true ->
          code_from false (rev (rev_code r) ++ y) = code_from false y).
Proof.
  induction r as [|c t IH]; intros y; split; try discriminate.
  - intros c0 t0 E Hc. inversion E; subst c0 t0. simpl. rewrite Hc. simpl.
    rewrite <- app_assoc. simpl.
    destruct t as [|c1 t1].
    + simpl. now rewrite Hc.
    + destruct (is_digit c1) eqn:E1.
      * destruct (IH (c :: y)) as [IH1 _]. rewrite (IH1 c1 t1 eq_refl E1).
        simpl. now rewrite Hc.
      * cbn [rev_code]. rewrite E1.
        destruct (N.eqb c1 45 && match t1 with d :: _ => is_digit d | [] => false end)
          eqn:E2.
        -- apply andb_true_iff in E2 as [E3 E4]. apply N.eqb_eq in E3. subst c1.
           destruct t1 as [|d t2]; [discriminate|].
           destruct (IH (c :: y)) as [_ IH2].
           assert (R : rev_code (45%N :: d :: t2) = 45%N :: rev_code (d :: t2)).
           { cbn [rev_code]. cbn [is_digit N.leb N.compare Pos.compare Pos.compare_cont andb].
             now rewrite E4. }
           transitivity (code_from false (c :: y)); [|simpl; now rewrite Hc].
           etransitivity; [|exact (IH2 d t2 eq_refl E4)].
           exact (f_equal (fun z => code_from false (rev z ++ c :: y)) (eq_sym R)).
        -- simpl. now rewrite Hc.
  - intros d t0 E Hd. inversion E; subst c t. clear E.
    assert (R : rev_code (45%N :: d :: t0) = 45%N :: rev_code (d :: t0)).
    { cbn [rev_code]. cbn [is_digit N.leb N.compare Pos.compare Pos.compare_cont andb].
      now rewrite Hd. }
    etransitivity; [exact (f_equal (fun z => code_from false (rev z ++ y)) R)|].
    cbn [rev]. rewrite <- app_assoc. cbn [app].
    destruct (IH (45%N :: y)) as [IH1 _].
    etransitivity; [exact (IH1 d t0 eq_refl Hd)|]. reflexivity.
Qed.

Lemma trailing_code_is_code (s k : str) : trailing_code s = Some k -> is_code k = true.
Proof.
  unfold trailing_code.
  set (r := match rev s with c :: t => if N.eqb c c_nl then t else c :: t | [] => [] end).
  destruct r as [|c t] eqn:Er; [discriminate|].
  destruct (is_digit c) eqn:Ec; [|discriminate].
  intros H. inversion H; subst k. clear H.
  destruct (rev_code_shape (c :: t) []) as [Q _].
  specialize (Q c t eq_refl Ec). rewrite app_nil_r in Q. exact Q.
Qed.

(** X5.  Whatever token it is given, the code that
    [_extract_numeric_code] returns is well formed: groups of decimal
    digits (the class [\d], which holds the decimal digits of every
    script) separated by single hyphens, beginning and ending with a
    digit. *)
Theorem extracted_code_is_well_formed (token k : str) :
  _extract_numeric_code token = Some k -> is_code k = true.
Proof.
  unfold _extract_numeric_code.
  destruct (negb (nonempty token)); [discriminate|].
  apply trailing_code_is_code.
Qed.

Lemma extracted_code_is_well_formed_witness :
  _extract_numeric_code (L "<http://example.org/esco/42-10>") = Some (L "42-10")
  /\ is_code (L "42-10") = true.
Proof.
  split; [vm_compute; reflexivity|].
  apply (@extracted_code_is_well_formed (L "<http://example.org/esco/42-10>")).
  vm_compute. reflexivity.
Defined.

(** The same with the Arabic-Indic digits U+0663 and U+0661 *)
Lemma extracted_code_of_other_script :
  _extract_numeric_code (L "http://x/" ++ [1635; 1633]%N) = Some [1635; 1633]%N
  /\ _code_prefixes [1635; 1633]%N = [[1635%N]].
Proof. split; vm_compute; reflexivity. Qed.

Lemma code_from_last (k : str) :
  forall b, code_from b k = true -> k <> [] ->
            exists k' d, k = k' ++ [d] /\ is_digit d = true.
Proof.
  induction k as [|c t IH]; intros b H Hn; [contradiction|].
  simpl in H. destruct (is_digit c) eqn:Ec.
  - destruct t as [|c1 t1].
    + exists [], c. auto.
    + destruct (IH true H) as (k' & d & E & Hd); [discriminate|].
      exists (c :: k'), d. rewrite E. auto.
  - apply andb_true_iff in H as [_ H].
    destruct t as [|c1 t1]; [discriminate|].
    destruct (IH false H) as (k' & d & E & Hd); [discriminate|].
    exists (c :: k'), d. rewrite E. auto.
Qed.

Lemma code_from_chars (k : str) :
  forall b, code_from b k = true -> Forall (fun c => is_digit c = true \/ c = 45%N) k.
Proof.
  induction k as [|c t IH]; intros b H; [constructor|].
  simpl in H. destruct (is_digit c) eqn:Ec.
  - constructor; eauto.
  - apply andb_true_iff in H as [H1 H2]. apply andb_true_iff in H1 as [H1 _].
    apply N.eqb_eq in H1. constructor; eauto.
Qed.

(** [rev_code] reads a reversed code to its end *)
Lemma rev_code_reads_code (k : str) :
  forall b acc,
    code_from b k = true ->
    rev_code acc = acc ->
    (b = true -> exists d t, acc = d :: t /\ is_digit d = true) ->
    rev_code (rev k ++ acc) = rev k ++ acc.
Proof.
  induction k as [|c t IH]; intros b acc H Ha Hb; simpl; auto.
  simpl in H. rewrite <- app_assoc. simpl.
  destruct (is_digit c) eqn:Ec.
  - apply IH with true; auto.
    + simpl. rewrite Ec. now rewrite Ha.
    + intros _. eauto.
  - apply andb_true_iff in H as [H1 H2]. apply andb_true_iff in H1 as [H1 H3].
    apply N.eqb_eq in H1. subst c. subst b.
    destruct Hb as (d & t' & -> & Hd); auto.
    apply IH with false; auto; [|discriminate].
    simpl in Ha. rewrite Hd in Ha. injection Ha as Ha.
    simpl. rewrite Hd. simpl. now rewrite Ha.
Qed.

Lemma trailing_code_of_code (k : str) : is_code k = true -> trailing_code k = Some k.
Proof.
  intros H. unfold is_code in H.
  assert (Hn : k <> []) by (destruct k; [discriminate|discriminate]).
  destruct (code_from_last _ H Hn) as (k' & d & E & Hd).
  pose proof (@rev_code_reads_code k false [] H eq_refl) as R.
  rewrite app_nil_r in R. unfold trailing_code.
  assert (Er : rev k = d :: rev k') by (rewrite E, rev_app_distr; reflexivity).
  rewrite Er in *.
  assert (Enl : N.eqb d c_nl = false).
  { apply digit_range in Hd. apply N.eqb_neq. unfold c_nl. lia. }
  rewrite Enl, Hd. rewrite R by discriminate.
  rewrite <- Er, rev_involutive. reflexivity.
Qed.

Lemma rstrip_by_last (p : char -> bool) (a : str) (c : char) :
  p c = false -> rstrip_by p (a ++ [c]) = a ++ [c].
Proof.
  intros H. unfold rstrip_by. rewrite rev_app_distr. simpl. rewrite H.
  simpl. now rewrite rev_involutive.
Qed.

Lemma lstrip_by_app_keep (p : char -> bool) (c : char) (y : str) :
  p c = false -> forall x, exists x', lstrip_by p (x ++ c :: y) = x' ++ c :: y.
Proof.
  intros H. induction x as [|a x IH]; simpl.
  - rewrite H. now exists [].
  - destruct (p a); [exact IH|]. now exists (a :: x).
Qed.

Lemma endswith_last (c d : char) (a : str) : endswith [c] (a ++ [d]) = N.eqb c d.
Proof. unfold endswith. rewrite rev_app_distr. simpl. apply andb_true_r. Qed.

(** [(a + sep + b).split(sep) == a.split(sep) + b.split(sep)] *)
Lemma split_on_app (sep : char) (b : str) :
  forall a, split_on sep (a ++ sep :: b) = split_on sep a ++ split_on sep b.
Proof.
  induction a as [|c a IH]; simpl.
  - now rewrite N.eqb_refl.
  - rewrite IH. destruct (N.eqb c sep); auto.
    pose proof (split_on_nonempty sep a) as Hn.
    destruct (split_on sep a); [contradiction|reflexivity].
Qed.

Lemma split_on_absent (sep : char) (s : str) :
  Forall (fun c => c <> sep) s -> split_on sep s = [s].
Proof.
  induction 1 as [|c t Hc Ht IH]; simpl; auto.
  apply N.eqb_neq in Hc. now rewrite Hc, IH.
Qed.

Lemma last_app_nonempty (A : Type) (x y : list A) (d : A) :
  y <> [] -> last (x ++ y) d = last y d.
Proof.
  intros Hy. induction x as [|a x IH]; auto.
  simpl. destruct (x ++ y) eqn:E; auto.
  apply app_eq_nil in E as [_ E]. contradiction.
Qed.

Lemma contains_absent (c : char) (s : str) :
  Forall (fun x => x <> c) s -> contains [c] s = false.
Proof.
  induction 1 as [|x t Hx Ht IH]; simpl; auto.
  rewrite IH. assert (E : N.eqb c x = false) by (apply N.eqb_neq; congruence).
  now rewrite E.
Qed.

Lemma code_without (c : char) (k : str) :
  is_code k = true -> (c < 45 \/ 45 < c < 48 \/ 57 < c < 1632)%N ->
  Forall (fun x => x <> c) k.
Proof.
  intros H Hc. apply code_from_chars in H.
  eapply Forall_impl; [|exact H]. intros x [Hx| ->]; [|lia].
  apply digit_range in Hx. lia.
Qed.

(** The last path segment and the trailing token, for a code and for a
    code behind a slash *)
Lemma segment_code_plain (k : str) :
  is_code k = true ->
  trailing_code (if contains (L "/") k
                 then last (split_on 47%N (rstrip_chars (L "/") k)) []
                 else k) = Some k.
Proof.
  intros H.
  assert (Hc : contains (L "/") k = false).
  { apply (@contains_absent 47%N k). apply code_without; auto. lia. }
  rewrite Hc. now apply trailing_code_of_code.
Qed.

Lemma segment_code_path (a k : str) :
  is_code k = true ->
  trailing_code (if contains (L "/") (a ++ L "/" ++ k)
                 then last (split_on 47%N (rstrip_chars (L "/") (a ++ L "/" ++ k))) []
                 else a ++ L "/" ++ k) = Some k.
Proof.
  intros H.
  assert (Hc : contains (L "/") (a ++ L "/" ++ k) = true).
  { apply contains_app_r. reflexivity. }
  rewrite Hc.
  assert (Hn : k <> []) by (destruct k; [discriminate|discriminate]).
  destruct (code_from_last _ H Hn) as (k' & d & E & Hd).
  assert (Er : rstrip_chars (L "/") (a ++ L "/" ++ k) = a ++ L "/" ++ k).
  { rewrite E. unfold rstrip_chars. rewrite !app_assoc. apply rstrip_by_last.
    unfold mem_char. simpl. rewrite orb_false_r. apply digit_range in Hd.
    apply N.eqb_neq. lia. }
  rewrite Er.
  assert (Es : split_on 47%N (a ++ L "/" ++ k) = split_on 47%N a ++ [k]).
  { rewrite <- (@split_on_absent 47%N k) by (apply code_without; auto; lia).
    apply (@split_on_app 47%N k a). }
  rewrite Es. rewrite last_app_nonempty by discriminate. simpl.
  now apply trailing_code_of_code.
Qed.

Lemma code_nonempty (k : str) : is_code k = true -> k <> [].
Proof. intros H ->. discriminate H. Qed.

Lemma code_first_digit (c : char) (t : str) : is_code (c :: t) = true -> is_digit c = true.
Proof.
  unfold is_code. simpl. destruct (is_digit c); auto.
  rewrite andb_false_r. discriminate.
Qed.

Lemma strip_by_inner (p : char -> bool) (x m : str) (c d : char) :
  p c = false -> p d = false ->
  exists x', strip_by p (x ++ c :: m ++ [d]) = x' ++ c :: m ++ [d].
Proof.
  intros Hc Hd. unfold strip_by.
  destruct (@lstrip_by_app_keep p c (m ++ [d]) Hc x) as [x' E].
  rewrite E. exists x'.
  replace (x' ++ c :: m ++ [d]) with ((x' ++ c :: m) ++ [d])
    by (now rewrite <- app_assoc).
  now apply rstrip_by_last.
Qed.

Lemma strip_by_ends (p : char -> bool) (m : str) (c d : char) :
  p c = false -> p d = false -> strip_by p (c :: m ++ [d]) = c :: m ++ [d].
Proof.
  intros Hc Hd. unfold strip_by. simpl. rewrite Hc.
  now apply (@rstrip_by_last p (c :: m) d).
Qed.

Lemma strip_code (k : str) : is_code k = true -> strip k = k.
Proof.
  intros H.
  pose proof (@code_nonempty _ H) as Hn.
  destruct (@code_from_last k false H Hn) as (k' & d & E & Hd).
  destruct k as [|c t]; [contradiction|].
  pose proof (@code_first_digit _ _ H) as Hc.
  unfold strip, strip_by. simpl. rewrite (@digit_not_space _ Hc).
  rewrite E. apply rstrip_by_last. now apply digit_not_space.
Qed.

(** X6.  Round trip of the code token: a well-formed code is the code of
    itself, of itself in angle brackets, and of every URI, bracketed or
    not, whose last path segment it is. *)
Theorem code_of_uri_with_code (k base : str) :
  is_code k = true ->
  _extract_numeric_code k = Some k
  /\ _extract_numeric_code (L "<" ++ k ++ L ">") = Some k
  /\ _extract_numeric_code (base ++ L "/" ++ k) = Some k
  /\ _extract_numeric_code (L "<" ++ base ++ L "/" ++ k ++ L ">") = Some k.
Proof.
  intros H.
  pose proof (@code_nonempty _ H) as Hn.
  destruct (@code_from_last k false H Hn) as (k' & d & E & Hd).
  assert (Hgt : N.eqb 62 d = false).
  { apply digit_range in Hd. apply N.eqb_neq. lia. }
  assert (Hbr : forall m, strip (L "<" ++ m ++ L ">") = L "<" ++ m ++ L ">"
                          /\ slice_1_m1 (L "<" ++ m ++ L ">") = m
                          /\ startswith (L "<") (L "<" ++ m ++ L ">") = true
                          /\ endswith (L ">") (L "<" ++ m ++ L ">") = true).
  { intros m. repeat split.
    - apply (@strip_by_ends is_space m 60%N 62%N); reflexivity.
    - apply (removelast_last m 62%N).
    - apply (@endswith_last 62%N 62%N (60%N :: m)). }
  repeat split.
  - unfold _extract_numeric_code.
    destruct k as [|c t]; [contradiction|]. cbn [nonempty negb].
    rewrite (@strip_code _ H).
    pose proof (@code_first_digit _ _ H) as Hc.
    assert (Hs : startswith (L "<") (c :: t) = false).
    { change (startswith (L "<") (c :: t)) with (N.eqb 60 c && true).
      apply digit_range in Hc. rewrite andb_true_r. apply N.eqb_neq. lia. }
    rewrite Hs. cbn [andb]. now apply segment_code_plain.
  - unfold _extract_numeric_code. cbn [L map list_ascii_of_string app nonempty negb].
    destruct (Hbr k) as (B1 & B2 & B3 & B4).
    cbn [L map list_ascii_of_string app] in B1, B2, B3, B4.
    rewrite B1, B3, B4. cbn [andb]. rewrite B2. now apply segment_code_plain.
  - unfold _extract_numeric_code.
    assert (Hne : nonempty (base ++ L "/" ++ k) = true) by (destruct base; reflexivity).
    rewrite Hne. cbn [negb].
    destruct (@strip_by_inner is_space base k' 47%N d eq_refl (@digit_not_space _ Hd))
      as [x' Ex].
    assert (Es : strip (base ++ L "/" ++ k) = x' ++ L "/" ++ k).
    { rewrite E. exact Ex. }
    rewrite Es.
    assert (Ee : endswith (L ">") (x' ++ L "/" ++ k) = false).
    { rewrite E.
      replace (x' ++ L "/" ++ k' ++ [d]) with ((x' ++ L "/" ++ k') ++ [d])
        by (now rewrite <- !app_assoc).
      etransitivity; [apply (@endswith_last 62%N d (x' ++ L "/" ++ k'))|exact Hgt]. }
    rewrite Ee, andb_false_r. now apply segment_code_path.
  - unfold _extract_numeric_code. cbn [L map list_ascii_of_string app nonempty negb].
    destruct (Hbr (base ++ L "/" ++ k)) as (B1 & B2 & B3 & B4).
    cbn [L map list_ascii_of_string app] in B1, B2, B3, B4.
    rewrite <- !app_assoc in B1, B2, B3, B4.
    cbn [L map list_ascii_of_string app] in B1, B2, B3, B4.
    rewrite B1, B3, B4. cbn [andb]. rewrite B2. now apply segment_code_path.
Qed.

Lemma code_of_uri_with_code_witness :
  is_code (L "44-1-2") = true
  /\ _extract_numeric_code (L "http://example.org/esco/isco" ++ L "/" ++ L "44-1-2")
     = Some (L "44-1-2").
Proof.
  split; [reflexivity|].
  apply (@code_of_uri_with_code (L "44-1-2") (L "http://example.org/esco/isco") eq_refl).
Defined.

(* ================================================================== *)
(** ** The URIs that the parser stores *)
(* ================================================================== *)

Lemma lstrip_by_app_stop (q : char -> bool) (c : char) (y : str) :
  q c = false -> forall x, lstrip_by q (x ++ c :: y) = lstrip_by q x ++ c :: y.
Proof.
  intros H. induction x as [|a x IH]; simpl.
  - now rewrite H.
  - destruct (q a); auto.
Qed.

Lemma rstrip_by_keep (q : char -> bool) (x y : str) (c : char) :
  q c = false -> rstrip_by q (x ++ c :: y) = x ++ c :: rstrip_by q y.
Proof.
  intros H. unfold rstrip_by.
  rewrite rev_app_distr. simpl. rewrite <- app_assoc. simpl.
  rewrite lstrip_by_app_stop by exact H.
  rewrite rev_app_distr. simpl. rewrite rev_involutive, <- app_assoc. reflexivity.
Qed.

Lemma startswith_split (p s : str) :
  startswith p s = true -> s = p ++ skipn (length p) s.
Proof.
  revert s. induction p as [|a p IH]; intros [|b s]; simpl; auto; try discriminate.
  intros H. apply andb_true_iff in H as [H1 H2]. apply N.eqb_eq in H1. subst.
  f_equal. now apply IH.
Qed.

Lemma resolve_base_http (b u : str) :
  startswith (L "http") b = true ->
  startswith (L "http") (resolve_base (Some b) u) = true.
Proof.
  intros H. apply startswith_split in H. unfold resolve_base. rewrite H.
  apply startswith_app_l. unfold rstrip_chars.
  change (L "http" ++ skipn (length (L "http")) b)
    with (L "htt" ++ 112%N :: skipn (length (L "http")) b).
  rewrite rstrip_by_keep by reflexivity. reflexivity.
Qed.

Lemma clean_uri_http_of_base (cl : Cleaner) (raw : str) :
  base_is_http (base_uri cl) = true ->
  startswith (L "http") (_clean_uri cl raw) = true.
Proof.
  intros Hb. unfold _clean_uri. cbv zeta.
  destruct (startswith (L "http") (strip_brackets raw)) eqn:Eh; [exact Eh|].
  cbn [negb].
  assert (Hr : truthy (base_uri cl) = true ->
               startswith (L "http") (resolve_base (base_uri cl) (strip_brackets raw)) = true).
  { destruct (base_uri cl) as [b|]; [|discriminate]. simpl. intros Hn.
    simpl in Hb. rewrite Hn in Hb. simpl in Hb. now apply resolve_base_http. }
  destruct (truthy (base_uri cl)) eqn:Et.
  - destruct (contains (L ":") (strip_brackets raw)); cbn [negb andb]; auto.
    destruct (split_first 58%N (strip_brackets raw)) as [prefix local].
    destruct (str_eqb prefix (L "esco")); reflexivity.
  - cbn [andb].
    destruct (contains (L ":") (strip_brackets raw)); [|reflexivity].
    destruct (split_first 58%N (strip_brackets raw)) as [prefix local].
    destruct (str_eqb prefix (L "esco")); reflexivity.
Qed.

(** X7.  With no base URI, or a base that is an [http] URI, whatever
    [_clean_uri] returns begins with [http]: prefixed names, bare local
    names and relative references all leave as absolute URIs. *)
Theorem cleaned_uri_is_http (cl : Cleaner) (raw : str) :
  base_is_http (base_uri cl) = true ->
  startswith (L "http") (_clean_uri cl raw) = true.
Proof. apply clean_uri_http_of_base. Qed.

Lemma cleaned_uri_is_http_witness :
  base_is_http (base_uri (set_base None (Some (L "http://w3id.org/kim/")) default_cleaner))
  = true
  /\ startswith (L "http")
       (_clean_uri (set_base None (Some (L "http://w3id.org/kim/")) default_cleaner)
          (L "<n01>")) = true.
Proof.
  split; [reflexivity|].
  apply (@cleaned_uri_is_http
           (set_base None (Some (L "http://w3id.org/kim/")) default_cleaner)
           (L "<n01>") eq_refl).
Defined.

Lemma clean_uri_base (cl cl' : Cleaner) (raw : str) :
  base_uri cl' = base_uri cl -> _clean_uri cl' raw = _clean_uri cl raw.
Proof. intros H. unfold _clean_uri. now rewrite H. Qed.

Lemma parse_uri_value (g1 : str) (cl : Cleaner) :
  fst (fst (parse_uri g1 cl)) = _clean_uri cl (strip g1).
Proof.
  unfold parse_uri. rewrite bind_run. cbn [get fst snd].
  destruct (negb (str_eqb (strip g1) (_clean_uri cl (strip g1)))); [|reflexivity].
  destruct (_classify_uri_change cl (strip g1) (_clean_uri cl (strip g1))) as [is_fix msg].
  destruct (nonempty msg); [|reflexivity].
  rewrite !bind_run. reflexivity.
Qed.

Lemma parse_fields_uri (block g1 : str) (cl : Cleaner) :
  uri (fst (parse_fields block g1 cl)) = _clean_uri cl (strip g1).
Proof.
  unfold parse_fields. rewrite !bind_run. cbn [ret fst uri]. apply parse_uri_value.
Qed.

Lemma parse_concept_block_uri (block : str) (cl : Cleaner) (c : Concept) :
  fst (_parse_concept_block block cl) = Some c ->
  exists g1, find_subject block = Some g1 /\ uri c = _clean_uri cl (strip g1).
Proof.
  unfold _parse_concept_block. destruct (find_subject block) as [g1|]; [|discriminate].
  rewrite bind_run.
  destruct (prefLabels (fst (parse_fields block g1 cl))) eqn:E.
  - rewrite bind_run. discriminate.
  - simpl. intros H. inversion H; subst. exists g1. split; auto. apply parse_fields_uri.
Qed.

Lemma parse_blocks_uris (P : str -> Prop) (b0 : option str) :
  (forall cl raw, base_uri cl = b0 -> P (_clean_uri cl raw)) ->
  forall blocks cl,
    base_uri cl = b0 -> Forall (fun c => P (uri c)) (fst (parse_blocks blocks cl)).
Proof.
  intros HP. induction blocks as [|b rest IH]; intros cl Hcl; simpl; [constructor|].
  rewrite !bind_run. simpl.
  assert (Hb : base_uri (snd (_parse_concept_block b cl)) = b0).
  { rewrite <- Hcl. apply (@preserves_parse_concept_block _ base_uri b); reflexivity. }
  destruct (fst (_parse_concept_block b cl)) as [c|] eqn:E; [|now apply IH].
  constructor; [|now apply IH].
  destruct (parse_concept_block_uri _ _ E) as (g1 & _ & ->). now apply HP.
Qed.

Lemma extract_concepts_base (content : str) (cl : Cleaner) :
  exists cl0,
    base_uri cl0 = fst (_extract_base_uri content cl)
    /\ _extract_concepts content cl
       = parse_blocks (_split_into_concept_blocks content) cl0.
Proof.
  unfold _extract_concepts. rewrite !bind_run.
  eexists. split; [|reflexivity].
  unfold _extract_base_uri.
  destruct (Re.search base_decl content) as [[decl inner]|]; reflexivity.
Qed.

(** X8.  When the document declares no base, or a base that is an [http]
    URI, the URI of every concept that the parser returns begins with
    [http], whatever form the subject had in the document. *)
Theorem parsed_uris_are_http (content : str) (cl : Cleaner) :
  base_is_http (fst (_extract_base_uri content cl)) = true ->
  Forall (fun c => startswith (L "http") (uri c) = true)
         (fst (_extract_concepts content cl)).
Proof.
  intros Hb. destruct (extract_concepts_base content cl) as (cl0 & E0 & ->).
  apply (@parse_blocks_uris (fun u => startswith (L "http") u = true)
           (fst (_extract_base_uri content cl))); auto.
  intros cl1 raw H1. apply clean_uri_http_of_base. now rewrite H1.
Qed.

Lemma parsed_uris_are_http_witness :
  let doc := join [c_nl]
               [ L "@base <http://x/v/> .";
                 L "<n01> a skos:Concept ;";
                 L "    skos:prefLabel " ++ [c_dq] ++ L "Foo" ++ [c_dq] ++ L "@en ." ] in
  base_is_http (fst (_extract_base_uri doc default_cleaner)) = true
  /\ map uri (fst (_extract_concepts doc default_cleaner)) = [L "http://x/v/n01"]
  /\ Forall (fun c => startswith (L "http") (uri c) = true)
            (fst (_extract_concepts doc default_cleaner)).
Proof.
  cbv zeta. split; [vm_compute; reflexivity|]. split; [vm_compute; reflexivity|].
  apply (@parsed_uris_are_http
           (join [c_nl]
              [ L "@base <http://x/v/> .";
                L "<n01> a skos:Concept ;";
                L "    skos:prefLabel " ++ [c_dq] ++ L "Foo" ++ [c_dq] ++ L "@en ." ])
           default_cleaner).
  vm_compute. reflexivity.
Defined.

(* ================================================================== *)
(** ** The final count of the report of [clean_ttl_file] *)
(* ================================================================== *)

Lemma clean_chunks_accounting (cs : list (list Concept)) :
  forall cl,
    let r := clean_chunks cs cl in
    length (fst r) + duplicates_removed (stats (snd r))
    = length (concat cs) + duplicates_removed (stats cl)
    /\ total_concepts (stats (snd r)) = total_concepts (stats cl)
    /\ concepts_without_preflabel (stats (snd r)) = concepts_without_preflabel (stats cl).
Proof.
  induction cs as [|chunk rest IH]; intros cl; cbv zeta; simpl.
  - repeat split; lia.
  - rewrite !bind_run. cbn [fst snd ret].
    set (c1 := set_processed_chunks (S (processed_chunks cl)) cl).
    unfold _clean_concepts.
    pose proof (dedup_loop_state chunk [] c1) as Hs. cbv zeta in Hs.
    destruct Hs as (Hs1 & _ & Hs3).
    assert (K1 : keeps_stat total_concepts (dedup_loop [] chunk))
      by (as_preserves; apply preserves_dedup_loop; reflexivity).
    assert (K2 : keeps_stat concepts_without_preflabel (dedup_loop [] chunk))
      by (as_preserves; apply preserves_dedup_loop; reflexivity).
    specialize (K1 c1). specialize (K2 c1).
    set (d := dedup_loop [] chunk c1) in *.
    specialize (IH (snd d)). cbv zeta in IH.
    destruct IH as (I1 & I2 & I3).
    change (stats c1) with (stats cl) in *.
    rewrite !length_app. repeat split; try lia; congruence.
Qed.

Section ReportFacts.

Variable urlparse : str -> option (str * str).
Variable set_iter : forall A : Type, list A -> list A.
Variable repr : str -> str.

Lemma hierarchy_gaps_stats (concepts : list Concept) (cl : Cleaner) :
  stats (snd (_validate_hierarchy_gaps set_iter repr concepts cl)) = stats cl.
Proof.
  rewrite hierarchy_gaps_unfold. cbv zeta.
  destruct (fst (code_maps concepts ([], []))); [reflexivity|].
  cbn [snd].
  match goal with |- stats (match ?i with [] => _ | _ => _ end) = _ => destruct i end;
    reflexivity.
Qed.

Lemma run_validation_stats (concepts : list Concept) (cl : Cleaner) :
  stats (snd (run_validation urlparse set_iter repr concepts cl)) = stats cl.
Proof.
  unfold run_validation. rewrite !bind_run. cbn [get fst snd].
  destruct (enable_validation (set_infos [] cl)); [|reflexivity].
  destruct (memory_efficient (set_infos [] cl) && _).
  - rewrite bind_run. unfold _validate_concepts_chunked.
    rewrite bind_run. cbn [get fst snd].
    destruct (chunks_of (chunk_size (set_infos [] cl)) concepts); [|reflexivity].
    rewrite !bind_run. cbn [get ret fst snd].
    rewrite bind_run. cbn [ret fst snd].
    change (stats (set_findings [] []
                     (snd (_validate_hierarchy_gaps set_iter repr concepts
                             (set_infos [] cl)))))
      with (stats (snd (_validate_hierarchy_gaps set_iter repr concepts
                          (set_infos [] cl)))).
    now rewrite hierarchy_gaps_stats.
  - rewrite !bind_run. cbn [ret fst snd].
    match goal with
    | |- stats (set_findings _ _ ?c) = _ => change (stats c = stats cl)
    end.
    rewrite validate_standard_unfold. cbv zeta. cbn [snd].
    now rewrite hierarchy_gaps_stats.
Qed.

End ReportFacts.

Lemma clean_concepts_accounting (concepts : list Concept) (cl : Cleaner) :
  let r := _clean_concepts concepts cl in
  length (fst r) + duplicates_removed (stats (snd r))
  = length concepts + duplicates_removed (stats cl)
  /\ total_concepts (stats (snd r)) = total_concepts (stats cl)
  /\ concepts_without_preflabel (stats (snd r)) = concepts_without_preflabel (stats cl).
Proof.
  cbv zeta. unfold _clean_concepts.
  pose proof (dedup_loop_state concepts [] cl) as Hs. cbv zeta in Hs.
  destruct Hs as (Hs1 & _ & Hs3).
  assert (K1 : keeps_stat total_concepts (dedup_loop [] concepts))
    by (as_preserves; apply preserves_dedup_loop; reflexivity).
  assert (K2 : keeps_stat concepts_without_preflabel (dedup_loop [] concepts))
    by (as_preserves; apply preserves_dedup_loop; reflexivity).
  rewrite (K1 cl), (K2 cl). repeat split; lia.
Qed.

Lemma clean_concepts_chunked_accounting (concepts cs : list Concept) (cl : Cleaner) :
  let r := _clean_concepts_chunked concepts cl in
  fst r = Some cs ->
  if (chunk_size cl <? 0)%Z
  then cs = [] /\ snd r = cl
  else length cs + duplicates_removed (stats (snd r))
       = length concepts + duplicates_removed (stats cl)
       /\ total_concepts (stats (snd r)) = total_concepts (stats cl)
       /\ concepts_without_preflabel (stats (snd r))
          = concepts_without_preflabel (stats cl).
Proof.
  cbv zeta. unfold _clean_concepts_chunked. rewrite bind_run. cbn [get fst snd].
  destruct (chunk_size cl) as [|p|p]; [discriminate| |].
  - cbn [chunks_of Z.ltb Z.compare]. rewrite bind_run. cbn [ret fst snd].
    intros H. inversion H; subst cs. clear H.
    destruct (Pos2Nat.is_succ p) as [n Hn]. rewrite Hn.
    pose proof (clean_chunks_accounting (chunks (length concepts) (S n) concepts) cl) as Hc.
    cbv zeta in Hc. rewrite chunks_concat in Hc by lia. exact Hc.
  - cbn [chunks_of Z.ltb Z.compare]. rewrite bind_run. cbn [clean_chunks ret fst snd].
    intros H. inversion H. auto.
Qed.

Lemma autofix_accounting (concepts : list Concept) (cl : Cleaner) :
  let r := _apply_hierarchy_autofix concepts cl in
  length (fst (fst r)) = length concepts /\ stats (snd r) = stats cl.
Proof.
  cbv zeta. destruct (autofix_by_concept concepts cl) as (H1 & _ & _ & H4).
  rewrite H1, length_map. auto.
Qed.

Lemma extract_concepts_options (content : str) (cl : Cleaner) :
  let e := _extract_concepts content cl in
  memory_efficient (snd e) = memory_efficient cl
  /\ chunk_size (snd e) = chunk_size cl
  /\ autofix_broader (snd e) = autofix_broader cl.
Proof.
  cbv zeta. unfold _extract_concepts. rewrite !bind_run.
  set (c0 := snd (bump _ _)).
  assert (H0 : memory_efficient c0 = memory_efficient cl
               /\ chunk_size c0 = chunk_size cl
               /\ autofix_broader c0 = autofix_broader cl).
  { unfold c0, _extract_base_uri, _extract_metadata.
    destruct (Re.search base_decl content) as [[decl inner]|]; repeat split. }
  destruct H0 as (H1 & H2 & H3). rewrite <- H1, <- H2, <- H3.
  repeat split;
    (apply preserves_parse_blocks; intros b;
     apply preserves_parse_concept_block; reflexivity).
Qed.

(** The graph that [clean_ttl_file] validates and writes, and the
    statistics at that point.  With a negative chunk size the chunked
    deduplicator has no chunk to read and returns no concept at all. *)
Lemma cleaned_graph_accounting (content : str) (cl : Cleaner) (g : list Concept) :
  fst (cleaned_graph content cl) = Some g ->
  let e := _extract_concepts content cl in
  let s := stats (snd (cleaned_graph content cl)) in
  if memory_efficient cl && (chunk_size cl <? 0)%Z
  then g = [] /\ s = stats (snd e)
  else total_concepts s + duplicates_removed (stats cl)
       + concepts_without_preflabel (stats cl)
       = length g + duplicates_removed s + concepts_without_preflabel s.
Proof.
  cbv zeta. unfold cleaned_graph. rewrite bind_run.
  pose proof (extract_concepts_accounting content cl) as He. cbv zeta in He.
  pose proof (extract_concepts_options content cl) as Ho. cbv zeta in Ho.
  set (e := _extract_concepts content cl) in *.
  destruct He as (Ht & Hd & Hn). destruct Ho as (Om & Oc & Oa).
  rewrite bind_run. cbn [get fst snd]. rewrite bind_run.
  rewrite Om, Oc, Oa.
  destruct (memory_efficient cl) eqn:Em; cbn [andb].
  - destruct (chunk_size cl <? 0)%Z eqn:Eneg.
    + assert (Elt : (chunk_size cl <? Z.of_nat (length (fst e)))%Z = true)
        by (apply Z.ltb_lt; apply Z.ltb_lt in Eneg; lia).
      rewrite Elt.
      destruct (fst (_clean_concepts_chunked (fst e) (snd e))) as [cs|] eqn:Ec;
        [|discriminate].
      pose proof (@clean_concepts_chunked_accounting (fst e) cs (snd e) Ec) as Hc.
      rewrite Oc, Eneg in Hc. destruct Hc as [-> Hs]. rewrite Hs.
      destruct (autofix_broader cl).
      * rewrite bind_run. cbn [ret fst snd]. intros H. inversion H. auto.
      * cbn [ret fst snd]. intros H. inversion H. auto.
    + set (m := if (chunk_size cl <? Z.of_nat (length (fst e)))%Z
                then _clean_concepts_chunked (fst e)
                else (r <- _clean_concepts (fst e) ;; ret (Some r))%cleaner).
      assert (Hm : forall cs, fst (m (snd e)) = Some cs ->
                 length cs + duplicates_removed (stats (snd (m (snd e))))
                 = length (fst e) + duplicates_removed (stats (snd e))
                 /\ total_concepts (stats (snd (m (snd e))))
                    = total_concepts (stats (snd e))
                 /\ concepts_without_preflabel (stats (snd (m (snd e))))
                    = concepts_without_preflabel (stats (snd e))).
      { intros cs. unfold m.
        destruct (chunk_size cl <? Z.of_nat (length (fst e)))%Z.
        - intros Ec.
          pose proof (@clean_concepts_chunked_accounting (fst e) cs (snd e) Ec) as Hc.
          rewrite Oc, Eneg in Hc. exact Hc.
        - rewrite bind_run. cbn [ret fst snd]. intros H. inversion H; subst cs.
          apply clean_concepts_accounting. }
      destruct (fst (m (snd e))) as [cs|] eqn:Ec; [|discriminate].
      destruct (Hm cs eq_refl) as (M1 & M2 & M3).
      destruct (autofix_broader cl).
      * rewrite bind_run. cbn [ret fst snd]. intros H. inversion H; subst g.
        destruct (autofix_accounting cs (snd (m (snd e)))) as [A1 A2].
        rewrite A1, A2. lia.
      * cbn [ret fst snd]. intros H. inversion H; subst g. lia.
  - rewrite !bind_run. cbn [ret fst snd].
    destruct (clean_concepts_accounting (fst e) (snd e)) as (M1 & M2 & M3).
    destruct (autofix_broader cl).
    + rewrite bind_run. cbn [ret fst snd]. intros H. inversion H; subst g.
      destruct (autofix_accounting (fst (_clean_concepts (fst e) (snd e)))
                  (snd (_clean_concepts (fst e) (snd e)))) as [A1 A2].
      rewrite A1, A2. lia.
    + cbn [ret fst snd]. intros H. inversion H; subst g. lia.
Qed.

Lemma generate_stats (concepts : list Concept) (content : str) (cl : Cleaner)
    (f : Stats -> nat) :
  (forall s, f (inc_comma_fixes s) = f s) ->
  (forall s, f (inc_text_fields_cleaned s) = f s) ->
  (forall s, f (inc_labels_processed s) = f s) ->
  (forall s, f (inc_definitions_processed s) = f s) ->
  (forall s, f (inc_notes_processed s) = f s) ->
  f (stats (snd (_generate_cleaned_content concepts content cl))) = f (stats cl).
Proof.
  intros H1 H2 H3 H4 H5.
  apply (@preserves_generate _ (fun c => f (stats c))); intros; simpl; auto.
Qed.

Lemma clean_ttl_file_stats
    (urlparse : str -> option (str * str)) (set_iter : forall A : Type, list A -> list A)
    (repr : str -> str) (content out : str) (cl : Cleaner) :
  let run := clean_ttl_file urlparse set_iter repr content cl in
  fst run = Some out ->
  exists g,
    fst (cleaned_graph content cl) = Some g
    /\ total_concepts (stats (snd run))
       = total_concepts (stats (snd (cleaned_graph content cl)))
    /\ duplicates_removed (stats (snd run))
       = duplicates_removed (stats (snd (cleaned_graph content cl)))
    /\ concepts_without_preflabel (stats (snd run))
       = concepts_without_preflabel (stats (snd (cleaned_graph content cl))).
Proof.
  cbv zeta. unfold clean_ttl_file.
  destruct (negb (nonempty content)); [discriminate|].
  rewrite bind_run.
  destruct (fst (cleaned_graph content cl)) as [g|] eqn:Eg; [|discriminate].
  set (c1 := snd (cleaned_graph content cl)) in *.
  rewrite bind_run.
  pose proof (run_validation_stats urlparse set_iter repr g c1) as Hv.
  set (v := run_validation urlparse set_iter repr g c1) in *.
  destruct (fst v) as [findings|]; [|discriminate].
  rewrite bind_run. cbn [ret fst snd]. intros _.
  exists g. split; auto.
  rewrite !generate_stats by reflexivity. now rewrite Hv.
Qed.

(** X3.  The line [Final concepts in output] of the report, for every run
    of [clean_ttl_file] on a fresh cleaner that completes.  Unless the
    memory-efficient mode runs with a negative chunk size, the count
    computed from the statistics (total, less duplicates, less concepts
    without prefLabel) is the number of concepts of the graph that was
    validated and written, in the standard and in the chunked mode, with
    and without the autofix.  In the memory-efficient mode with a negative
    chunk size the chunked deduplicator reads no chunk: no concept is
    written, and the report prints the number of concepts parsed. *)
Theorem report_final_count_is_concepts_written
    (urlparse : str -> option (str * str)) (set_iter : forall A : Type, list A -> list A)
    (repr : str -> str) (cs : Z) (ev me xl af wn : bool) (content out : str) :
  let cl := new_cleaner cs ev me xl af wn in
  let run := clean_ttl_file urlparse set_iter repr content cl in
  fst run = Some out ->
  exists g,
    fst (cleaned_graph content cl) = Some g
    /\ if me && (cs <? 0)%Z
       then g = []
            /\ reported_final_concepts (stats (snd run))
               = Z.of_nat (length (fst (_extract_concepts content cl)))
       else reported_final_concepts (stats (snd run)) = Z.of_nat (length g).
Proof.
  cbv zeta. intros H.
  destruct (@clean_ttl_file_stats urlparse set_iter repr content out _ H)
    as (g & Eg & Ht & Hd & Hn).
  exists g. split; auto.
  pose proof (@cleaned_graph_accounting content _ g Eg) as Ha. cbv zeta in Ha.
  change (memory_efficient (new_cleaner cs ev me xl af wn)) with me in Ha.
  change (chunk_size (new_cleaner cs ev me xl af wn)) with cs in Ha.
  unfold reported_final_concepts. rewrite Ht, Hd, Hn.
  destruct (me && (cs <? 0)%Z).
  - destruct Ha as [-> Hs]. split; auto. rewrite Hs.
    destruct (extract_concepts_accounting content (new_cleaner cs ev me xl af wn))
      as (E1 & E2 & E3).
    change (duplicates_removed (stats (new_cleaner cs ev me xl af wn))) with 0 in E2.
    change (concepts_without_preflabel (stats (new_cleaner cs ev me xl af wn)))
      with 0 in E3.
    lia.
  - change (duplicates_removed (stats (new_cleaner cs ev me xl af wn))) with 0 in Ha.
    change (concepts_without_preflabel (stats (new_cleaner cs ev me xl af wn)))
      with 0 in Ha.
    lia.
Qed.

(** Three blocks: a concept, a second block with the same URI, and a block
    without preferred label; one concept is written. *)
Lemma report_final_count_is_concepts_written_witness :
  let doc := join [c_nl]
    [ L "<http://x/c1> a skos:Concept ;";
      L "    skos:prefLabel " ++ [c_dq] ++ L "One" ++ [c_dq] ++ L "@en .";
      L "<http://x/c1> a skos:Concept ;";
      L "    skos:prefLabel " ++ [c_dq] ++ L "Uno" ++ [c_dq] ++ L "@es .";
      L "<http://x/c2> a skos:Concept ;";
      L "    skos:altLabel " ++ [c_dq] ++ L "Two" ++ [c_dq] ++ L "@en ." ] in
  let run := clean_ttl_file (fun _ => None) (fun A l => l) (fun s => s) doc
               default_cleaner in
  (total_concepts (stats (snd run)) = 3
   /\ duplicates_removed (stats (snd run)) = 1
   /\ concepts_without_preflabel (stats (snd run)) = 1)
  /\ exists g,
       fst (cleaned_graph doc default_cleaner) = Some g
       /\ reported_final_concepts (stats (snd run)) = Z.of_nat (length g).
Proof.
  cbv zeta. split; [vm_compute; repeat split|].
  set (doc := join [c_nl] _).
  apply (@report_final_count_is_concepts_written
           (fun _ => None) (fun A l => l) (fun s => s) 1000 true false false false false
           doc
           (match fst (clean_ttl_file (fun _ => None) (fun A l => l) (fun s => s) doc
                         default_cleaner) with
            | Some o => o
            | None => []
            end)).
  vm_compute. reflexivity.
Defined.

(** The same document in the memory-efficient mode with the chunk size -1:
    the run completes, no concept is written, and the count of the report
    is 2, the number of concepts parsed. *)
Lemma negative_chunk_size_writes_no_concept :
  let doc := join [c_nl]
    [ L "<http://x/c1> a skos:Concept ;";
      L "    skos:prefLabel " ++ [c_dq] ++ L "One" ++ [c_dq] ++ L "@en .";
      L "<http://x/c1> a skos:Concept ;";
      L "    skos:prefLabel " ++ [c_dq] ++ L "Uno" ++ [c_dq] ++ L "@es .";
      L "<http://x/c2> a skos:Concept ;";
      L "    skos:altLabel " ++ [c_dq] ++ L "Two" ++ [c_dq] ++ L "@en ." ] in
  let cl := new_cleaner (-1) true true false false false in
  let run := clean_ttl_file (fun _ => None) (fun A l => l) (fun s => s) doc cl in
  is_some (fst run) = true
  /\ fst (cleaned_graph doc cl) = Some []
  /\ length (fst (_extract_concepts doc cl)) = 2
  /\ reported_final_concepts (stats (snd run)) = 2%Z.
Proof. vm_compute. repeat split. Qed.


(* ================================================================== *)
(** ** The autofixer applied twice *)
(* ================================================================== *)

Section Extension.

(** A change of the concepts that keeps the URIs and only adds properties *)
Variable f : Concept -> Concept.
Hypothesis f_uri : forall c, uri (f c) = uri c.
Hypothesis f_props : forall c p, In p (other_properties c) -> In p (other_properties (f c)).

Lemma code_of_ext (c : Concept) : code_of (f c) = code_of c.
Proof. unfold code_of. now rewrite f_uri. Qed.

Lemma has_code_ext (p : str) (c : Concept) : has_code p (f c) = has_code p c.
Proof. unfold has_code. now rewrite code_of_ext. Qed.

Lemma graph_codes_ext (concepts : list Concept) :
  graph_codes (map f concepts) = graph_codes concepts.
Proof.
  unfold graph_codes. induction concepts as [|c rest IH]; simpl; auto.
  now rewrite code_of_ext, IH.
Qed.

Lemma existing_candidates_ext (concepts : list Concept) (k : str) :
  existing_candidates (map f concepts) k = existing_candidates concepts k.
Proof. unfold existing_candidates. now rewrite graph_codes_ext. Qed.

Lemma find_has_code_ext (p : str) (l : list Concept) :
  option_map uri (find (has_code p) (map f l)) = option_map uri (find (has_code p) l).
Proof.
  induction l as [|c rest IH]; simpl; auto.
  rewrite has_code_ext. destruct (has_code p c); simpl; auto.
  now rewrite f_uri.
Qed.

Lemma concept_of_code_ext (concepts : list Concept) (p : str) :
  concept_of_code (map f concepts) p = concept_of_code concepts p.
Proof. unfold concept_of_code. rewrite <- map_rev. apply find_has_code_ext. Qed.

Lemma declared_broader_ext (concepts : list Concept) (k t : str) :
  In t (declared_broader concepts k) -> In t (declared_broader (map f concepts) k).
Proof.
  unfold declared_broader. rewrite !in_flat_map.
  intros [c [Hc Ht]]. exists (f c). split; [now apply in_map|].
  rewrite has_code_ext. destruct (has_code k c); [|exact Ht].
  apply in_flat_map in Ht as [p [Hp Ht]]. apply in_flat_map. exists p. split; auto.
  apply filter_In in Hp as [Hp1 Hp2]. apply filter_In. split; auto.
Qed.

End Extension.

Lemma autofix_spec_uri (concepts : list Concept) (c : Concept) :
  uri (autofix_spec concepts c) = uri c.
Proof. unfold autofix_spec. destruct (autofix_target concepts c) as [[p k]|]; reflexivity. Qed.

Lemma autofix_spec_props (concepts : list Concept) (c : Concept) (p : str) :
  In p (other_properties c) -> In p (other_properties (autofix_spec concepts c)).
Proof.
  unfold autofix_spec. destruct (autofix_target concepts c) as [[q k]|]; auto.
  simpl. intros H. apply in_or_app. now left.
Qed.

(** After the autofixer, no concept is left for it to act on. *)
Lemma autofix_target_after (concepts : list Concept) (c : Concept) :
  autofix_target (map (autofix_spec concepts) concepts) (autofix_spec concepts c) = None.
Proof.
  set (f := autofix_spec concepts).
  unfold autofix_target at 1.
  rewrite (@code_of_ext f (autofix_spec_uri concepts)).
  destruct (code_of c) as [k|] eqn:Ek; [|reflexivity].
  rewrite (@existing_candidates_ext f (autofix_spec_uri concepts)).
  destruct (existing_candidates concepts k) as [|c0 cr] eqn:Ec; [reflexivity|].
  destruct (existsb (fun t => mem_str t (c0 :: cr))
              (declared_broader (map f concepts) k)) eqn:Ed; [reflexivity|].
  assert (Ed0 : existsb (fun t => mem_str t (c0 :: cr)) (declared_broader concepts k)
                = false).
  { destruct (existsb _ (declared_broader concepts k)) eqn:E0; [|reflexivity].
    apply existsb_exists in E0 as [t [Ht Hm]].
    assert (Hx : existsb (fun t => mem_str t (c0 :: cr))
                   (declared_broader (map f concepts) k) = true).
    { apply existsb_exists. exists t. split; auto.
      apply (@declared_broader_ext f (autofix_spec_uri concepts)
               (autofix_spec_props concepts)); auto. }
    congruence. }
  cbv zeta. rewrite (@concept_of_code_ext f (autofix_spec_uri concepts)).
  set (parent := match concept_of_code concepts (max_by_len c0 cr) with
                 | Some u => u
                 | None => []
                 end).
  assert (Hm : mem_str (broader_triple parent) (other_properties (f c)) = true).
  { unfold f, autofix_spec, autofix_target. rewrite Ek, Ec, Ed0. cbv zeta. fold parent.
    destruct (mem_str (broader_triple parent) (other_properties c)) eqn:E1; [exact E1|].
    simpl. apply mem_str_In. apply in_or_app. right. now left. }
  now rewrite Hm.
Qed.

Lemma autofix_loop_nothing (cu uc : Dict.t str) (bm : Dict.t (list str))
    (concepts : list Concept) (cl : Cleaner) :
  (forall c, In c concepts -> autofix_decision cu uc bm c = None) ->
  autofix_loop cu uc bm concepts cl = ((concepts, 0), cl).
Proof.
  induction concepts as [|c rest IH]; intros H; simpl; [reflexivity|].
  rewrite bind_run, autofix_concept_eq. cbv zeta.
  rewrite (H c (or_introl eq_refl)). cbn [apply_decision is_some fst snd].
  rewrite bind_run, IH by (intros c0 H0; apply H; now right). reflexivity.
Qed.

(** X9.  The autofixer is idempotent: run again on its own result, it adds
    no link, changes no concept and logs nothing. *)
Theorem autofix_twice_adds_nothing (concepts : list Concept) (cl : Cleaner) :
  let r1 := _apply_hierarchy_autofix concepts cl in
  _apply_hierarchy_autofix (fst (fst r1)) (snd r1) = ((fst (fst r1), 0), snd r1).
Proof.
  cbv zeta.
  destruct (autofix_by_concept concepts cl) as (H1 & _).
  set (r1 := _apply_hierarchy_autofix concepts cl) in *.
  rewrite H1. set (cs' := map (autofix_spec concepts) concepts).
  unfold _apply_hierarchy_autofix.
  pose proof (autofix_decision_spec cs') as Hd.
  destruct (code_maps cs' ([], [])) as [cu uc]. cbn [fst snd] in Hd.
  destruct cu as [|x cu]; [reflexivity|].
  apply autofix_loop_nothing. intros c Hc. rewrite (Hd c Hc).
  unfold cs' in Hc. apply in_map_iff in Hc as [c0 [<- Hc0]].
  apply autofix_target_after.
Qed.

(* ================================================================== *)
(** ** The hierarchy validator after the autofixer *)
(* ================================================================== *)

Lemma hierarchy_fold_broader (src : str) (props : list str) :
  forall m : Dict.t (list str) * Dict.t (list str),
    fst (fold_left
           (fun acc prop =>
              if contains (L "skos:broader ") prop
              then (add_targets src (target_codes prop) (fst acc), snd acc)
              else if contains (L "skos:narrower ") prop
              then (fst acc, add_targets src (target_codes prop) (snd acc))
              else acc)
           props m)
    = fold_left (fun acc prop =>
                   if contains (L "skos:broader ") prop
                   then add_targets src (target_codes prop) acc
                   else acc)
                props (fst m).
Proof.
  induction props as [|prop props IH]; intros m; simpl; auto.
  rewrite IH. destruct (contains (L "skos:broader ") prop); [reflexivity|].
  destruct (contains (L "skos:narrower ") prop); reflexivity.
Qed.

(** The [broader_map] of the validator is the one of the autofixer. *)
Lemma hierarchy_maps_broader (uc : Dict.t str) (concepts : list Concept) :
  forall m, fst (hierarchy_maps uc concepts m) = autofix_broader_map uc concepts (fst m).
Proof.
  induction concepts as [|c rest IH]; intros m; simpl; auto.
  destruct (Dict.get (uri c) uc) as [src|]; rewrite IH; [|reflexivity].
  now rewrite hierarchy_fold_broader.
Qed.

Lemma broader_triple_is_broader (u : str) :
  contains (L "skos:broader ") (broader_triple u) = true.
Proof. reflexivity. Qed.

(** After the autofixer, every code that has an existing candidate parent
    has a declared [skos:broader] target among its candidates. *)
Lemma autofix_declares_parent (concepts : list Concept) (k c0 : str) (cr : list str) :
  links_readable concepts = true ->
  mem_str k (graph_codes concepts) = true ->
  existing_candidates concepts k = c0 :: cr ->
  existsb (fun t => mem_str t (c0 :: cr))
          (declared_broader (map (autofix_spec concepts) concepts) k) = true.
Proof.
  intros HR Hk Ec. set (f := autofix_spec concepts).
  apply mem_str_In in Hk. unfold graph_codes in Hk.
  apply in_flat_map in Hk as [c [Hc Hk]].
  destruct (code_of c) as [k0|] eqn:Ek; [|destruct Hk].
  destruct Hk as [->|[]].
  destruct (existsb (fun t => mem_str t (c0 :: cr)) (declared_broader concepts k)) eqn:Ed.
  - apply existsb_exists in Ed as [t [Ht Hm]]. apply existsb_exists. exists t. split; auto.
    apply (@declared_broader_ext f (autofix_spec_uri concepts)
             (autofix_spec_props concepts)); auto.
  - set (best := max_by_len c0 cr).
    assert (Hbest : In best (c0 :: cr)) by apply max_by_len_longest.
    assert (Hg : mem_str best (graph_codes concepts) = true).
    { rewrite <- Ec in Hbest. unfold existing_candidates in Hbest.
      now apply filter_In in Hbest as [_ Hb]. }
    unfold concept_of_code in *.
    assert (Hp : exists cp, find (has_code best) (rev concepts) = Some cp).
    { destruct (concept_of_existing_code concepts best Hg) as [pu Hpu].
      unfold concept_of_code in Hpu.
      destruct (find (has_code best) (rev concepts)) as [cp|]; [eauto|discriminate]. }
    destruct Hp as [cp Hcp].
    pose proof (find_some _ _ Hcp) as [Hin Hhas].
    apply in_rev in Hin.
    assert (Hread : mem_str best (target_codes (broader_triple (uri cp))) = true).
    { unfold links_readable in HR. rewrite forallb_forall in HR. specialize (HR cp Hin).
      unfold has_code in Hhas. destruct (code_of cp) as [kp|]; [|discriminate].
      apply str_eqb_eq in Hhas. now subst kp. }
    assert (Htriple : In (broader_triple (uri cp)) (other_properties (f c))).
    { unfold f, autofix_spec, autofix_target, concept_of_code.
      rewrite Ek, Ec, Ed. cbv zeta. fold best. rewrite Hcp. cbn [option_map].
      destruct (mem_str (broader_triple (uri cp)) (other_properties c)) eqn:E1.
      - now apply mem_str_In.
      - simpl. apply in_or_app. right. now left. }
    apply existsb_exists. exists best. split; [|now apply mem_str_In].
    unfold declared_broader. apply in_flat_map. exists (f c). split; [now apply in_map|].
    assert (Hc' : has_code k (f c) = true).
    { rewrite (@has_code_ext f (autofix_spec_uri concepts)).
      unfold has_code. rewrite Ek. apply str_eqb_refl. }
    rewrite Hc'. apply in_flat_map. exists (broader_triple (uri cp)). split.
    + apply filter_In. split; auto.
    + now apply mem_str_In.
Qed.

(** X10.  The autofixer does what the hierarchy validator asks for: when
    the links it writes are read back as the codes of their targets, the
    validator finds no [Inconsistent hierarchy] violation, and so no
    violation at all, in the concepts that the autofixer returns. *)
Theorem autofix_leaves_no_inconsistent_hierarchy
    (set_iter : forall A : Type, list A -> list A) (repr : str -> str)
    (concepts : list Concept) (cl cl' : Cleaner) :
  links_readable concepts = true ->
  let fixed := fst (fst (_apply_hierarchy_autofix concepts cl)) in
  fst (fst (_validate_hierarchy_gaps set_iter repr fixed cl')) = [].
Proof.
  intros HR. cbv zeta.
  destruct (autofix_by_concept concepts cl) as (H1 & _). rewrite H1.
  set (cs' := map (autofix_spec concepts) concepts).
  rewrite hierarchy_gaps_unfold. cbv zeta.
  pose proof (code_maps_keys cs' ([], [])) as Hkeys.
  pose proof (candidates_of_maps cs') as Hcand.
  assert (Hbm : forall k t,
             mem_str t (Dict.get_set k (fst (hierarchy_maps (snd (code_maps cs' ([], [])))
                                               cs' ([], []))))
             = mem_str t (declared_broader cs' k)).
  { intros k t. rewrite hierarchy_maps_broader. cbn [fst].
    rewrite broader_map_members; [reflexivity|].
    intros c1 Hc1. now apply code_maps_uri_of_member. }
  destruct (fst (code_maps cs' ([], []))) as [|x cu] eqn:Ecu; [reflexivity|].
  cbn [fst]. rewrite flat_map_concat_map, map_map, <- flat_map_concat_map.
  apply flat_map_none. intros [code u] Hin. cbn [fst snd].
  unfold hierarchy_check.
  destruct (_code_prefixes code) as [|p0 pr] eqn:Ep; [reflexivity|].
  cbv zeta. cbn [fst].
  rewrite <- Ep, Hcand.
  assert (Hcode : mem_str code (graph_codes concepts) = true).
  { specialize (Hkeys code). unfold cs' in Hkeys.
    rewrite (@graph_codes_ext _ (autofix_spec_uri concepts)) in Hkeys.
    change (mem_str code (Dict.keys (fst (@nil (str * str), @nil (str * str)))))
      with false in Hkeys.
    cbn [orb] in Hkeys. rewrite <- Hkeys.
    apply mem_str_In. change (In code (map fst (x :: cu))).
    apply in_map_iff. exists (code, u). auto. }
  unfold cs'. rewrite (@existing_candidates_ext _ (autofix_spec_uri concepts)).
  fold cs'.
  destruct (existing_candidates concepts code) as [|c0 cr] eqn:Ec; [reflexivity|].
  cbn [nonempty_list andb]. rewrite inter_nonempty.
  rewrite (@existsb_same_members (fun t => mem_str t (c0 :: cr)) _
             (declared_broader cs' code) (Hbm code)).
  unfold cs'. now rewrite (@autofix_declares_parent concepts code c0 cr HR Hcode Ec).
Qed.

(** The concepts [http://x/31] and [http://x/311] without any relation: the
    validator reports [311] before the autofixer and nothing after it. *)
Lemma autofix_leaves_no_inconsistent_hierarchy_witness :
  let cs := [ mkConcept (L "http://x/31") [mkLabel (L "a") (L "en")]
                [] [] [] [] [] [] [] [] [] [] [];
              mkConcept (L "http://x/311") [mkLabel (L "b") (L "en")]
                [] [] [] [] [] [] [] [] [] [] [] ] in
  let fixed := fst (fst (_apply_hierarchy_autofix cs default_cleaner)) in
  links_readable cs = true
  /\ length (fst (fst (_validate_hierarchy_gaps (fun A l => l) (fun s => s) cs
                        default_cleaner))) = 1
  /\ fst (fst (_validate_hierarchy_gaps (fun A l => l) (fun s => s) fixed
                 default_cleaner)) = [].
Proof.
  cbv zeta. split; [vm_compute; reflexivity|]. split; [vm_compute; reflexivity|].
  apply (@autofix_leaves_no_inconsistent_hierarchy (fun A l => l) (fun s => s)
           [ mkConcept (L "http://x/31") [mkLabel (L "a") (L "en")]
               [] [] [] [] [] [] [] [] [] [] [];
             mkConcept (L "http://x/311") [mkLabel (L "b") (L "en")]
               [] [] [] [] [] [] [] [] [] [] [] ]
           default_cleaner default_cleaner).
  vm_compute. reflexivity.
Defined.

(* ================================================================== *)
(** ** The white space of the values that the parser stores *)
(* ================================================================== *)

Lemma spaced_from_word (w z : str) (b : bool) :
  w <> [] -> forallb (fun c => negb (is_space c)) w = true ->
  spaced_from b (w ++ z) = spaced_from true z.
Proof.
  revert b. induction w as [|c w IH]; intros b Hn Hw; [contradiction|].
  simpl in Hw. apply andb_true_iff in Hw as [Hc Hw].
  apply negb_true_iff in Hc. simpl. rewrite Hc.
  destruct w as [|c1 w1]; [reflexivity|]. apply IH; [discriminate|exact Hw].
Qed.

Lemma split_ws_aux_words (s : str) :
  forall cur,
    forallb (fun c => negb (is_space c)) cur = true ->
    Forall (fun w => w <> [] /\ forallb (fun c => negb (is_space c)) w = true)
           (split_ws_aux cur s).
Proof.
  assert (Hrev : forall cur, cur <> [] ->
                   forallb (fun c => negb (is_space c)) cur = true ->
                   rev cur <> [] /\ forallb (fun c => negb (is_space c)) (rev cur) = true).
  { intros cur Hn Hc. split.
    - intros E. apply (f_equal (@rev char)) in E. rewrite rev_involutive in E.
      now apply Hn.
    - rewrite forallb_forall in *. intros x Hx. apply Hc. now apply in_rev. }
  induction s as [|c t IH]; intros cur Hcur; simpl.
  - destruct cur as [|x cur]; constructor; [|constructor].
    apply Hrev; [discriminate|exact Hcur].
  - destruct (is_space c) eqn:Ec.
    + destruct cur as [|x cur]; [now apply IH|].
      constructor; [apply Hrev; [discriminate|exact Hcur] | now apply IH].
    + apply IH. simpl. now rewrite Ec.
Qed.

Lemma join_words_spaced (words : list str) :
  Forall (fun w => w <> [] /\ forallb (fun c => negb (is_space c)) w = true) words ->
  words <> [] ->
  forall b, spaced_from b (join (L " ") words) = true.
Proof.
  induction 1 as [|w rest [Hn Hw] Hrest IH]; intros Hne b; [contradiction|].
  destruct rest as [|w2 rest].
  - simpl. rewrite <- (app_nil_r w). now rewrite spaced_from_word.
  - change (join (L " ") (w :: w2 :: rest)) with (w ++ L " " ++ join (L " ") (w2 :: rest)).
    rewrite spaced_from_word by assumption.
    change (spaced_from true (L " " ++ join (L " ") (w2 :: rest)))
      with (spaced_from false (join (L " ") (w2 :: rest))).
    apply IH. discriminate.
Qed.

Lemma sub_ws_no_leading_space (s : str) :
  lstrip_by is_space (sub_ws true s) = sub_ws true s.
Proof.
  induction s as [|c t IH]; simpl; auto.
  destruct (is_space c) eqn:Ec; auto. simpl. now rewrite Ec.
Qed.

Lemma lstrip_sub_ws (s : str) : lstrip_by is_space (sub_ws false s) = sub_ws true s.
Proof.
  destruct s as [|c t]; simpl; auto.
  destruct (is_space c) eqn:Ec.
  - simpl. apply sub_ws_no_leading_space.
  - simpl. now rewrite Ec.
Qed.

Lemma lstrip_by_app (p : char -> bool) (x y : str) :
  lstrip_by p (x ++ y)
  = match lstrip_by p x with [] => lstrip_by p y | r => r ++ y end.
Proof.
  induction x as [|a x IH]; simpl.
  - destruct (lstrip_by p y); reflexivity.
  - destruct (p a); auto.
Qed.

(** [rstrip] read from the front *)
Lemma rstrip_by_cons (p : char -> bool) (c : char) (t : str) :
  rstrip_by p (c :: t)
  = match rstrip_by p t with
    | [] => if p c then [] else [c]
    | r => c :: r
    end.
Proof.
  unfold rstrip_by. simpl. rewrite lstrip_by_app.
  destruct (lstrip_by p (rev t)) as [|a r] eqn:E.
  - simpl. destruct (p c); reflexivity.
  - rewrite rev_app_distr. simpl.
    destruct (rev r ++ [a]) eqn:E2; [|reflexivity].
    apply app_eq_nil in E2 as [_ E2]. discriminate.
Qed.

Lemma rstrip_sub_ws_spaced (s : str) :
  spaced_from true (rstrip_by is_space (sub_ws false s)) = true
  /\ (rstrip_by is_space (sub_ws true s) = []
      \/ spaced_from false (rstrip_by is_space (sub_ws true s)) = true).
Proof.
  induction s as [|c t [IH1 IH2]]; simpl.
  - split; [reflexivity|now left].
  - destruct (is_space c) eqn:Ec.
    + split; [|exact IH2].
      rewrite rstrip_by_cons.
      destruct IH2 as [E|E].
      * rewrite E. reflexivity.
      * destruct (rstrip_by is_space (sub_ws true t)) as [|a r]; [reflexivity|].
        change (spaced_from true (c_sp :: a :: r))
          with (spaced_from false (a :: r)). exact E.
    + assert (H : forall st, spaced_from st (rstrip_by is_space (c :: sub_ws false t)) = true).
      { intros st. rewrite rstrip_by_cons.
        destruct (rstrip_by is_space (sub_ws false t)) as [|a r].
        - rewrite Ec. simpl. now rewrite Ec.
        - cbn [spaced_from]. rewrite Ec. exact IH1. }
      split; [apply H | right; apply H].
Qed.

Lemma clean_label_spaced (label t : str) (cl : Cleaner) :
  fst (_clean_label label cl) = Some t -> single_spaced t = true.
Proof.
  unfold _clean_label. destruct (negb (nonempty label)); [discriminate|].
  rewrite !bind_run.
  set (label2 := join (L " ") (split_ws (apply_replacements label_replacements label))).
  destruct (negb (nonempty (strip label2))) eqn:Ee.
  - rewrite bind_run. discriminate.
  - cbn [ret fst]. intros H. inversion H; subst t. clear H.
    unfold single_spaced, label2. apply join_words_spaced.
    + apply split_ws_aux_words. reflexivity.
    + intros E. unfold label2 in Ee. rewrite E in Ee. discriminate.
Qed.

Lemma clean_text_field_spaced (txt t : str) (cl : Cleaner) :
  fst (_clean_text_field txt cl) = Some t -> single_spaced t = true.
Proof.
  unfold _clean_text_field. destruct (negb (nonempty txt)); [discriminate|].
  rewrite !bind_run.
  set (t3 := strip (sub_ws false
                      (fix_punctuation (apply_replacements text_replacements txt)))).
  destruct (negb (nonempty (strip t3))) eqn:Ee.
  - rewrite bind_run. discriminate.
  - cbn [ret fst]. intros H. inversion H; subst t. clear H.
    assert (Hn : t3 <> []) by (intros E; rewrite E in Ee; discriminate).
    unfold t3, strip, strip_by in *. rewrite lstrip_sub_ws in *.
    destruct (rstrip_sub_ws_spaced
                (fix_punctuation (apply_replacements text_replacements txt)))
      as [_ [E|E]]; [contradiction|exact E].
Qed.

(** X11.  A value that [_clean_label] or [_clean_text_field] returns is
    never blank and has its words separated by single blanks: no white
    space at either end, no tab, newline or other white-space character,
    no two blanks in a row. *)
Theorem cleaned_values_are_single_spaced (s t : str) (cl : Cleaner) :
  (fst (_clean_label s cl) = Some t \/ fst (_clean_text_field s cl) = Some t) ->
  single_spaced t = true.
Proof.
  intros [H|H]; [exact (clean_label_spaced _ _ H) | exact (clean_text_field_spaced _ _ H)].
Qed.

Lemma cleaned_values_are_single_spaced_witness :
  fst (_clean_label (L "  Data   base" ++ [9%N] ++ L "engineer ") default_cleaner)
  = Some (L "Data base engineer")
  /\ single_spaced (L "Data base engineer") = true.
Proof.
  split; [vm_compute; reflexivity|].
  apply (@cleaned_values_are_single_spaced
           (L "  Data   base" ++ [9%N] ++ L "engineer ") (L "Data base engineer")
           default_cleaner).
  left. vm_compute. reflexivity.
Defined.

Lemma add_values_texts (Q : str -> Prop) (clean : str -> M (option str)) (dd : bool) :
  (forall lbl cl t, fst (clean lbl cl) = Some t -> Q t) ->
  forall found acc cl,
    Forall (fun l => Q (text l)) acc ->
    Forall (fun l => Q (text l)) (fst (add_values clean dd found acc cl)).
Proof.
  intros HQ found. induction found as [|[lbl lng] rest IH]; intros acc cl Hacc; simpl; auto.
  rewrite bind_run. destruct (fst (clean lbl cl)) as [t|] eqn:Et; [|now apply IH].
  assert (Hnew : Forall (fun l => Q (text l)) (acc ++ [mkLabel t (lang_or_en lng)])).
  { apply Forall_app. split; auto. constructor; [|constructor]. simpl. eapply HQ; eauto. }
  destruct (dd && existsb _ acc); now apply IH.
Qed.

Lemma add_multi_texts (Q : str -> Prop) (tails : list str) :
  (forall lbl cl t, fst (_clean_label lbl cl) = Some t -> Q t) ->
  forall acc cl,
    Forall (fun l => Q (text l)) acc ->
    Forall (fun l => Q (text l)) (fst (add_multi tails acc cl)).
Proof.
  intros HQ. induction tails as [|tail rest IH]; intros acc cl Hacc; simpl; auto.
  rewrite bind_run. apply IH. now apply add_values_texts.
Qed.

Lemma parse_fields_texts (Q : str -> Prop) (block g1 : str) (cl : Cleaner) :
  (forall lbl cl t, fst (_clean_label lbl cl) = Some t -> Q t) ->
  (forall lbl cl t, fst (_clean_text_field lbl cl) = Some t -> Q t) ->
  Forall (fun l => Q (text l)) (all_values (fst (parse_fields block g1 cl))).
Proof.
  intros HL HT. unfold parse_fields. rewrite !bind_run. unfold all_values. simpl.
  repeat (apply Forall_app; split);
    first [ unfold parse_labels; rewrite bind_run; apply add_multi_texts; auto;
            apply add_values_texts; auto
          | unfold parse_texts; apply add_values_texts; auto ].
Qed.

(** X12.  Every label, definition, note and example that the parser stores
    in a concept has its words separated by single blanks and is not
    blank. *)
Theorem parsed_values_are_single_spaced (content : str) (cl : Cleaner) :
  Forall (fun c => Forall (fun l => single_spaced (text l) = true) (all_values c))
         (fst (_extract_concepts content cl)).
Proof.
  apply (@extract_concepts_Forall
           (fun c => Forall (fun l => single_spaced (text l) = true) (all_values c))).
  intros block cl0 c. unfold _parse_concept_block.
  destruct (find_subject block) as [g1|]; [|discriminate].
  rewrite bind_run.
  destruct (prefLabels (fst (parse_fields block g1 cl0))) eqn:E.
  - rewrite bind_run. discriminate.
  - simpl. intros H. inversion H; subst.
    apply (@parse_fields_texts (fun t => single_spaced t = true)).
    + intros lbl c1 t. apply clean_label_spaced.
    + intros lbl c1 t. apply clean_text_field_spaced.
Qed.

(* ================================================================== *)
(** ** What the integrity validator reports *)
(* ================================================================== *)












